(** * Cograph editing: a shallow embedding of triples.py, graphs.py and
      editing.py, with the properties of the specification stated and
      settled over it.

    Layout of the file:
    - [outcome]: the result monad (a value, a Python exception, or a
      recursion that ran out of fuel);
    - [Dict]: insertion-ordered Python dictionaries as association lists;
    - [NX]: the part of networkx.Graph the repository calls;
    - the functions of triples.py, graphs.py and editing.py, under their
      own names;
    - the instances of the examples and the predicates of the statements;
    - the lemmas on dictionaries, graphs and components, then the
      properties C1 to C10 of the specification, each settled on the
      code;
    - further properties X1 to X27 of the same functions and of
      triple_dict_to_list, triple_list_to_dict, path_graph, union, join,
      recursive_join, recursive_union and random_editing. *)

From Stdlib Require Import List Arith Bool Lia PeanoNat Permutation.
Import ListNotations.

Set Implicit Arguments.

(* ================================================================== *)
(** ** Results of Python calls *)
(* ================================================================== *)

(** The exceptions the modelled code can raise. [Inconsistent] is the
    [Exception("R is not compatible.")] of BUILD_cograph, which the
    specification calls InconsistentTripleSet; [InvalidConfiguration] is
    the error kind the specification names for a rejected configuration. *)
Inductive exn : Type :=
| Inconsistent
| InvalidConfiguration
| KeyError
| IndexError
| TypeError
| UnboundLocalError
| NetworkXError.

Inductive outcome (A : Type) : Type :=
| Ok (a : A)
| Raise (e : exn)
| OutOfFuel.

Arguments Ok {A} a.
Arguments Raise {A} e.
Arguments OutOfFuel {A}.

Definition bind {A B : Type} (c : outcome A) (k : A -> outcome B) : outcome B :=
  match c with
  | Ok a => k a
  | Raise e => Raise e
  | OutOfFuel => OutOfFuel
  end.

Declare Scope py_scope.
Delimit Scope py_scope with py.
Notation "x <- c ;; k" := (bind c (fun x => k))
  (at level 61, c at next level, right associativity) : py_scope.
Notation "' p <- c ;; k" := (bind c (fun p => k))
  (at level 61, p pattern, c at next level, right associativity) : py_scope.
Open Scope py_scope.

(** A [for] loop whose body threads a state and may raise. *)
Fixpoint for_each {A S : Type} (xs : list A) (body : S -> A -> outcome S) (s : S)
  : outcome S :=
  match xs with
  | [] => Ok s
  | x :: xs' => s' <- body s x ;; for_each xs' body s'
  end.

(* ================================================================== *)
(** ** Python dictionaries *)
(* ================================================================== *)

(** A dict keeps its keys in insertion order; assigning to a key that is
    present keeps its position. *)
Module Dict.
Section Ops.
Variable K : Type.
Variable eqb : K -> K -> bool.
Variable A : Type.

Definition t := list (K * A).

Fixpoint get (k : K) (d : t) : option A :=
  match d with
  | [] => None
  | (k', a) :: d' => if eqb k k' then Some a else get k d'
  end.

Definition mem (k : K) (d : t) : bool :=
  match get k d with Some _ => true | None => false end.

(** [d[k] = a] *)
Fixpoint set (k : K) (a : A) (d : t) : t :=
  match d with
  | [] => [(k, a)]
  | (k', a') :: d' => if eqb k k' then (k', a) :: d' else (k', a') :: set k a d'
  end.

(** [del d[k]] / [d.pop(k)], on a key that is present *)
Fixpoint remove (k : K) (d : t) : t :=
  match d with
  | [] => []
  | (k', a') :: d' => if eqb k k' then d' else (k', a') :: remove k d'
  end.

Definition keys (d : t) : list K := map fst d.

End Ops.
End Dict.

Definition vertex := nat.

Definition In_b (x : vertex) (l : list vertex) : bool := existsb (Nat.eqb x) l.

Definition pair_eqb (p q : vertex * vertex) : bool :=
  Nat.eqb (fst p) (fst q) && Nat.eqb (snd p) (snd q).

(* ================================================================== *)
(** ** networkx.Graph *)
(* ================================================================== *)

(** An undirected graph is networkx's [_adj]: a dict from each node to the
    dict of its neighbours, each neighbour with the edge's data, of which
    the code only uses ["weight"] ([None]: the attribute is absent). A
    Python set of vertices is a duplicate-free list, in the order in which
    the search that builds it meets the vertices; Python does not fix the
    order of a set, and no property below depends on it. *)
Module NX.

Definition adjacency := list (vertex * option nat).
Definition Graph := list (vertex * adjacency).

Definition empty : Graph := [].

(** [G.nodes], iterated *)
Definition nodes (g : Graph) : list vertex := map fst g.

(** [n in G.nodes] *)
Definition has_node (g : Graph) (n : vertex) : bool := In_b n (nodes g).

Definition adj (g : Graph) (n : vertex) : adjacency :=
  match Dict.get Nat.eqb n g with Some a => a | None => [] end.

(** [G.has_edge(u, v)]: false when [u] is not a node *)
Definition has_edge (g : Graph) (u v : vertex) : bool :=
  Dict.mem Nat.eqb v (adj g u).

(** [G.neighbors(n)]; raises when [n] is not a node *)
Definition neighbors (g : Graph) (n : vertex) : outcome (list vertex) :=
  match Dict.get Nat.eqb n g with
  | Some a => Ok (map fst a)
  | None => Raise NetworkXError
  end.

(** [G.add_node(n)] *)
Definition add_node (g : Graph) (n : vertex) : Graph :=
  if has_node g n then g else g ++ [(n, [])].

(** [G.add_nodes_from(ns)] *)
Definition add_nodes_from (g : Graph) (ns : list vertex) : Graph :=
  fold_left add_node ns g.

(** [G.add_edge(u, v, weight=w)] ([w = None]: no attribute is passed, and
    the data of an edge that is present is kept) *)
Definition add_edge (g : Graph) (u v : vertex) (w : option nat) : Graph :=
  let g := add_node (add_node g u) v in
  let old := match Dict.get Nat.eqb v (adj g u) with Some d => d | None => None end in
  let d := match w with Some _ => w | None => old end in
  let g := Dict.set Nat.eqb u (Dict.set Nat.eqb v d (adj g u)) g in
  Dict.set Nat.eqb v (Dict.set Nat.eqb u d (adj g v)) g.

(** [G.add_edges_from(es)], edges without data *)
Definition add_edges_from (g : Graph) (es : list (vertex * vertex)) : Graph :=
  fold_left (fun g e => add_edge g (fst e) (snd e) None) es g.

(** [G.remove_edge(u, v)] *)
Definition remove_edge (g : Graph) (u v : vertex) : outcome Graph :=
  if has_edge g u v then
    let g := Dict.set Nat.eqb u (Dict.remove Nat.eqb v (adj g u)) g in
    Ok (if Nat.eqb u v then g
        else Dict.set Nat.eqb v (Dict.remove Nat.eqb u (adj g v)) g)
  else Raise NetworkXError.

(** [G.remove_nodes_from(ns)]: nodes that are absent are skipped *)
Definition remove_nodes_from (g : Graph) (ns : list vertex) : Graph :=
  map (fun na => (fst na, filter (fun md => negb (In_b (fst md) ns)) (snd na)))
      (filter (fun na => negb (In_b (fst na) ns)) g).

(** [G.edges], iterated: every node in order, every neighbour that has not
    been a source yet. *)
Fixpoint edges_from (seen : list vertex) (g : Graph) : list (vertex * vertex) :=
  match g with
  | [] => []
  | (n, nbrs) :: g' =>
      map (fun md => (n, fst md))
          (filter (fun md => negb (In_b (fst md) seen)) nbrs)
      ++ edges_from (n :: seen) g'
  end.

Definition edges (g : Graph) : list (vertex * vertex) := edges_from [] g.

(** [G.edges[u, v]["weight"] = w]: the data dict is shared by both
    directions of the edge. *)
Definition set_weight (g : Graph) (u v : vertex) (w : nat) : outcome Graph :=
  if has_edge g u v then
    let g := Dict.set Nat.eqb u (Dict.set Nat.eqb v (Some w) (adj g u)) g in
    Ok (Dict.set Nat.eqb v (Dict.set Nat.eqb u (Some w) (adj g v)) g)
  else Raise KeyError.

(** ["weight" in G.edges[u, v]] *)
Definition has_weight (g : Graph) (u v : vertex) : outcome bool :=
  match Dict.get Nat.eqb v (adj g u) with
  | Some (Some _) => Ok true
  | Some None => Ok false
  | None => Raise KeyError
  end.

(** [G.copy()]: a new graph, the nodes added in order, then every
    adjacency entry added as an edge with its data. *)
Definition copy (g : Graph) : Graph :=
  fold_left (fun h na =>
               fold_left (fun h md => add_edge h (fst na) (fst md) (snd md)) (snd na) h)
            g (add_nodes_from empty (nodes g)).

(** [nx.complement(G)] *)
Definition complement (g : Graph) : Graph :=
  add_edges_from (add_nodes_from empty (nodes g))
    (flat_map (fun na =>
                 map (fun m => (fst na, m))
                     (filter (fun m => negb (Dict.mem Nat.eqb m (snd na))
                                       && negb (Nat.eqb (fst na) m))
                             (nodes g)))
              g).

(** The vertices not in [seen], each once. *)
Fixpoint fresh (seen ws : list vertex) : list vertex :=
  match ws with
  | [] => []
  | w :: ws' => if In_b w seen then fresh seen ws' else w :: fresh (w :: seen) ws'
  end.

(** [_plain_bfs]: the vertices reachable from the queue, [seen] being the
    vertices met so far. *)
Fixpoint plain_bfs (fuel : nat) (g : Graph) (seen queue : list vertex) : list vertex :=
  match fuel, queue with
  | S f, v :: q =>
      let new := fresh seen (map fst (adj g v)) in
      plain_bfs f g (seen ++ new) (q ++ new)
  | _, _ => seen
  end.

Definition component (g : Graph) (v : vertex) : list vertex :=
  plain_bfs (S (2 * length g)) g [v] [v].

(** [nx.connected_components(G)] *)
Fixpoint components_from (g : Graph) (vs seen : list vertex) : list (list vertex) :=
  match vs with
  | [] => []
  | v :: vs' =>
      if In_b v seen then components_from g vs' seen
      else let c := component g v in c :: components_from g vs' (seen ++ c)
  end.

Definition connected_components (g : Graph) : list (list vertex) :=
  components_from g (nodes g) [].

End NX.

Import NX.

(* ================================================================== *)
(** ** triples.py *)
(* ================================================================== *)

(** A triple set: the dict from a pair [(x, y)] to the list of its
    witnesses [z]. *)
Definition triples := list ((vertex * vertex) * list vertex).

Definition is_triple (G : Graph) (t : vertex * vertex * vertex) (R1 R2 : bool)
  : outcome bool :=
  let '(x, y, z) := t in
  if negb (has_edge G y z) && negb (has_edge G x z) then
    if R1 && has_edge G x y then Ok true
    else if R2 && negb (has_edge G x y) then
      ns <- neighbors G x ;;
      Ok (existsb (fun n => has_edge G y n && negb (has_edge G z n)) ns)
    else Ok false
  else if has_edge G x z && has_edge G y z then
    if R1 && negb (has_edge G x y) then Ok true
    else if R2 && has_edge G x y then
      ns <- neighbors G z ;;
      Ok (existsb (fun n => negb (has_edge G x n) && negb (has_edge G y n)) ns)
    else Ok false
  else Ok false.

(** The body of the innermost loop of [get_triples]. *)
Definition record_triple (G : Graph) (R1 R2 : bool) (vi vj : vertex)
  (T : triples) (v : vertex) : outcome triples :=
  if negb (Nat.eqb v vi) && negb (Nat.eqb v vj) then
    b <- is_triple G (vi, vj, v) R1 R2 ;;
    if b then
      match Dict.get pair_eqb (vi, vj) T with
      | Some zs => Ok (Dict.set pair_eqb (vi, vj) (zs ++ [v]) T)
      | None => Ok (Dict.set pair_eqb (vi, vj) [v] T)
      end
    else Ok T
  else Ok T.

Definition get_triples (G : Graph) (R1 R2 : bool) : outcome triples :=
  let V := nodes G in
  for_each (seq 0 (length V - 1))
    (fun T i =>
       for_each (seq (i + 1) (length V - (i + 1)))
         (fun T j =>
            for_each V (record_triple G R1 R2 (nth i V 0) (nth j V 0)) T)
         T)
    [].

Definition triple_subset (R : triples) (L : list vertex) : triples :=
  map (fun kv => (fst kv, filter (fun z => In_b z L) (snd kv)))
      (filter (fun kv => In_b (fst (fst kv)) L && In_b (snd (fst kv)) L) R).

(** [[(x, y, z) for x, y in R.keys() for z in R[x, y]]]: [R[x, y]] is the
    value of the entry that the iteration is at. *)
Definition triple_dict_to_list (R : triples) : list (vertex * vertex * vertex) :=
  flat_map (fun kv => map (fun z => (fst kv, z)) (snd kv)) R.

(** The call [D[x[0], x[1]].append(x[2])] that triple_list_to_dict maps
    over the list. *)
Definition append_witness (D : triples) (t : vertex * vertex * vertex)
  : outcome triples :=
  match Dict.get pair_eqb (fst t) D with
  | Some zs => Ok (Dict.set pair_eqb (fst t) (zs ++ [snd t]) D)
  | None => Raise KeyError
  end.

Definition triple_list_to_dict (R : list (vertex * vertex * vertex))
  : outcome triples :=
  let D := fold_left (fun D t => Dict.set pair_eqb (fst t) [] D) R [] in
  for_each R append_witness D.

(* ================================================================== *)
(** ** graphs.py *)
(* ================================================================== *)

Definition comp_graph (R : triples) (V : list vertex) : Graph :=
  let A := add_nodes_from empty V in
  let edges :=
    map fst (filter (fun kv => (0 <? length (snd kv))
                               && In_b (fst (fst kv)) V && In_b (snd (fst kv)) V) R) in
  fold_left (fun A e => add_edge A (fst e) (snd e) (Some (length [fst e; snd e])))
            edges A.

Definition union (G1 G2 : Graph) : Graph :=
  let G := copy G1 in
  let G := add_nodes_from G (nodes G2) in
  add_edges_from G (edges G2).

Definition join (G1 G2 : Graph) : Graph :=
  let G := union G1 G2 in
  add_edges_from G (flat_map (fun x => map (fun y => (x, y)) (nodes G2)) (nodes G1)).

Unset Elimination Schemes.

(** The nested lists that recursive_join and recursive_union take: an
    element is a vertex, or a list of elements. Its induction principle
    is [nest_induction], proved with the properties. *)
Inductive nest : Type :=
| Leaf (v : vertex)
| Sub (cs : list nest).

Set Elimination Schemes.

(** The graph that stands for one element [c] of the list: inside
    recursive_join a list goes to recursive_union, and inside
    recursive_union to recursive_join; a vertex gives the graph [tmp]
    with this one node. *)
Fixpoint element_graph (in_join : bool) (c : nest) : Graph :=
  match c with
  | Leaf v => add_node empty v
  | Sub cs =>
      fold_left (fun G c' =>
                   if in_join then union G (element_graph false c')
                   else join G (element_graph true c'))
                cs empty
  end.

Definition recursive_join (C : list nest) : Graph :=
  fold_left (fun G c => join G (element_graph true c)) C empty.

Definition recursive_union (C : list nest) : Graph :=
  fold_left (fun G c => union G (element_graph false c)) C empty.

(** The leaf collection [L] of BUILD_cograph is a Python list, or the
    node view [G.nodes] that min_cut_edit passes. Both have [len] and can
    be iterated; [L[i]] is a position in a list, but a node key in a node
    view, whose value is the node's attribute dict. *)
Inductive leaves : Type :=
| PyList (l : list vertex)
| NodeView (g : Graph).

Inductive pyval : Type :=
| PyVertex (v : vertex)
| PyDict.

Definition leaves_iter (L : leaves) : list vertex :=
  match L with PyList l => l | NodeView g => nodes g end.

Definition leaves_len (L : leaves) : nat := length (leaves_iter L).

Definition leaves_getitem (L : leaves) (i : nat) : outcome pyval :=
  match L with
  | PyList l =>
      match nth_error l i with Some v => Ok (PyVertex v) | None => Raise IndexError end
  | NodeView g => if has_node g i then Ok PyDict else Raise KeyError
  end.

(** A dict is not hashable, so it cannot become a node. *)
Definition as_node (v : pyval) : outcome vertex :=
  match v with PyVertex n => Ok n | PyDict => Raise TypeError end.

Fixpoint BUILD_cograph_rec (fuel : nat) (R : triples) (L : leaves) (label : nat)
  : outcome Graph :=
  match fuel with
  | 0 => OutOfFuel
  | S fuel' =>
      let G := empty in
      if leaves_len L =? 1 then
        l0 <- leaves_getitem L 0 ;;
        n0 <- as_node l0 ;;
        Ok (add_node G n0)
      else if leaves_len L =? 2 then
        let G := add_nodes_from G (leaves_iter L) in
        if label =? 1 then
          l0 <- leaves_getitem L 0 ;;
          l1 <- leaves_getitem L 1 ;;
          n0 <- as_node l0 ;;
          n1 <- as_node l1 ;;
          Ok (add_edge G n0 n1 None)
        else Ok G
      else
        let CG := comp_graph R (leaves_iter L) in
        let comps := connected_components CG in
        if length comps =? 1 then Raise Inconsistent
        else
          for_each comps
            (fun G C =>
               if label =? 1 then
                 H <- BUILD_cograph_rec fuel' (triple_subset R C) (PyList C) 0 ;;
                 Ok (join G H)
               else
                 H <- BUILD_cograph_rec fuel' (triple_subset R C) (PyList C) 1 ;;
                 Ok (union G H))
            G
  end.

(** Every recursive call is on a component, which has fewer vertices. *)
Definition BUILD_cograph (R : triples) (L : leaves) (label : nat) : outcome Graph :=
  BUILD_cograph_rec (S (leaves_len L)) R L label.

(* ================================================================== *)
(** ** editing.py *)
(* ================================================================== *)

(** What the code takes from outside the repository: the cograph
    recognition of tralda, the two bipartitions of networkx, and the
    random module ([shuffle i l] is the list that the [i]-th trial's
    [rand.shuffle] leaves in place of [l]). *)
Record Oracles : Type := {
  recognition : Graph -> bool;
  stoer_wagner : Graph -> list vertex * list vertex;
  kernighan_lin_bisection : Graph -> list vertex * list vertex;
  shuffle : nat -> list (vertex * vertex) -> list (vertex * vertex)
}.

(** [nx.stoer_wagner(G)[1]] refuses a graph with fewer than two nodes and
    a graph that is not connected. *)
Definition nx_stoer_wagner (O : Oracles) (g : Graph)
  : outcome (list vertex * list vertex) :=
  if length (nodes g) <? 2 then Raise NetworkXError
  else if negb (length (connected_components g) =? 1) then Raise NetworkXError
  else Ok (stoer_wagner O g).

Definition n_deletions (G H : Graph) : nat :=
  length (filter (fun e => negb (has_edge H (fst e) (snd e))) (edges G)).

Definition n_edits (G H : Graph) : nat :=
  length (filter (fun e => negb (has_edge H (fst e) (snd e))) (edges G))
  + length (filter (fun e => negb (has_edge G (fst e) (snd e))) (edges H)).

Definition In_pair (e : vertex * vertex) (l : list (vertex * vertex)) : bool :=
  existsb (pair_eqb e) l.

(** [set(E)], as the list of its distinct elements *)
Fixpoint pair_set (E : list (vertex * vertex)) : list (vertex * vertex) :=
  match E with
  | [] => []
  | e :: E' => if In_pair e E' then pair_set E' else e :: pair_set E'
  end.

Definition n_sub_edits (E E_edited : list (vertex * vertex)) : nat :=
  let added_edges := filter (fun e => negb (In_pair e E)) (pair_set E_edited) in
  let removed_edges := filter (fun e => negb (In_pair e E_edited)) (pair_set E) in
  length added_edges + length removed_edges.

(** The weights that direct_graph_cut puts on [G] at its first entry. *)
Definition weigh (G : Graph) (R : triples) : outcome Graph :=
  G <- for_each R
         (fun G kv =>
            if has_edge G (fst (fst kv)) (snd (fst kv))
            then set_weight G (fst (fst kv)) (snd (fst kv)) (length (snd kv))
            else Ok G)
         G ;;
  for_each (edges G)
    (fun G e =>
       w <- has_weight G (fst e) (snd e) ;;
       if negb w then set_weight G (fst e) (snd e) 0 else Ok G)
    G.

Fixpoint direct_graph_cut_rec (fuel : nat) (O : Oracles) (G_ : Graph)
  (half_cut R1 R2 init : bool) : outcome Graph :=
  match fuel with
  | 0 => OutOfFuel
  | S fuel' =>
      if recognition O G_ then Ok G_
      else
        let G := copy G_ in
        let comps := connected_components G in
        G <- (if init then R <- get_triples G R1 R2 ;; weigh G R else Ok G) ;;
        if 1 <? length comps then
          let Gnew := empty in
          (* the loop assigns G_new, and Gnew is what is returned *)
          _ <- for_each comps
                 (fun G_new comp =>
                    let G_comp := copy G in
                    let G_comp :=
                      remove_nodes_from G_comp
                        (filter (fun v => negb (In_b v comp)) (nodes G)) in
                    r <- direct_graph_cut_rec fuel' O G_comp half_cut R1 R2 false ;;
                    Ok (union Gnew r))
                 Gnew ;;
          Ok Gnew
        else
          ' (V1, V2) <- (if half_cut then Ok (kernighan_lin_bisection O G)
                         else nx_stoer_wagner O G) ;;
          let current_edges := edges G in
          let G2 := copy G in
          let G := remove_nodes_from G V2 in
          let G2 := remove_nodes_from G2 V1 in
          G <- direct_graph_cut_rec fuel' O G half_cut R1 R2 false ;;
          G2 <- direct_graph_cut_rec fuel' O G2 half_cut R1 R2 false ;;
          let G_add := join G G2 in
          let G_del := union G G2 in
          let E_add := edges G_add in
          let E_del := edges G_del in
          if n_sub_edits current_edges E_add <? n_sub_edits current_edges E_del
          then Ok G_add
          else Ok G_del
  end.

Definition direct_graph_cut (O : Oracles) (G_ : Graph) (half_cut R1 R2 init : bool)
  : outcome Graph :=
  direct_graph_cut_rec (S (length (nodes G_))) O G_ half_cut R1 R2 init.

(** One step of the inner loop of minimal_graph_cut. *)
Definition toggle_edge (O : Oracles) (G_tmp : Graph) (e : vertex * vertex)
  : outcome Graph :=
  let '(x, y) := e in
  if has_edge G_tmp x y then
    G_tmp <- remove_edge G_tmp x y ;;
    if negb (recognition O G_tmp) then Ok (add_edge G_tmp x y None) else Ok G_tmp
  else
    let G_tmp := add_edge G_tmp x y None in
    if negb (recognition O G_tmp) then remove_edge G_tmp x y else Ok G_tmp.

(** [n <= best_score], where [None] is [math.inf]. *)
Definition leb_score (n : nat) (best_score : option nat) : bool :=
  match best_score with None => true | Some b => n <=? b end.

(** A local variable that may not have been assigned when it is read. *)
Definition read_local {A : Type} (x : option A) : outcome A :=
  match x with Some a => Ok a | None => Raise UnboundLocalError end.

(** One trial of minimal_graph_cut: the state is the list [edited_edges],
    which every trial shuffles in place, and the local [G_min]. *)
Definition graph_cut_trial (O : Oracles) (G G2 : Graph) (best_score : option nat)
  (st : list (vertex * vertex) * option Graph) (i : nat)
  : outcome (list (vertex * vertex) * option Graph) :=
  let G_tmp := copy G2 in
  let edited_edges := shuffle O i (fst st) in
  G_tmp <- for_each edited_edges (toggle_edge O) G_tmp ;;
  if leb_score (n_edits G G_tmp) best_score
  then Ok (edited_edges, Some G_tmp)
  else Ok (edited_edges, snd st).

Definition minimal_graph_cut (O : Oracles) (G : Graph) (iterations : nat)
  (half_cut R1 R2 init : bool) : outcome Graph :=
  G2 <- direct_graph_cut O G half_cut R1 R2 init ;;
  let best_score : option nat := None in
  let cut_edges := filter (fun e => negb (has_edge G2 (fst e) (snd e))) (edges G) in
  let added_edges := filter (fun e => negb (has_edge G (fst e) (snd e))) (edges G2) in
  let edited_edges := cut_edges ++ added_edges in
  st <- for_each (seq 0 iterations) (graph_cut_trial O G G2 best_score)
          (edited_edges, None) ;;
  read_local (snd st).

(** The pruning of one pair of the cut in min_cut_split. *)
Definition prune_pair (CG : Graph) (R : triples) (k : vertex * vertex)
  : outcome triples :=
  match Dict.get pair_eqb k R with
  | Some zs =>
      let kept := filter (fun z => negb (has_node CG z)) zs in
      let R := Dict.set pair_eqb k kept R in
      if length kept =? 0 then Ok (Dict.remove pair_eqb k R) else Ok R
  | None => Raise KeyError
  end.

(** [try] the pair as the edge view gives it, [except] the pair swapped. *)
Definition prune_cut_edge (CG : Graph) (R : triples) (e : vertex * vertex)
  : outcome triples :=
  let '(x, y) := e in
  if Dict.mem pair_eqb (x, y) R then prune_pair CG R (x, y)
  else prune_pair CG R (y, x).

Fixpoint min_cut_split_rec (fuel : nat) (O : Oracles) (R : triples) (L : list vertex)
  (half_cut init : bool) : outcome triples :=
  match fuel with
  | 0 => OutOfFuel
  | S fuel' =>
      if length L <? 3 then Ok R
      else
        let R := if init then map (fun kv => (fst kv, snd kv)) R else R in
        let CG := comp_graph R L in
        let comps := connected_components CG in
        if 1 <? length comps then
          for_each comps
            (fun R comp => min_cut_split_rec fuel' O R comp half_cut false) R
        else
          ' (V1, V2) <- (if half_cut then Ok (kernighan_lin_bisection O CG)
                         else nx_stoer_wagner O CG) ;;
          let cut :=
            filter (fun e => (In_b (fst e) V1 && In_b (snd e) V2)
                             || (In_b (fst e) V2 && In_b (snd e) V1))
                   (edges CG) in
          R <- for_each cut (prune_cut_edge CG) R ;;
          R <- (if 2 <? length V1 then min_cut_split_rec fuel' O R V1 half_cut false
                else Ok R) ;;
          R <- (if 2 <? length V2 then min_cut_split_rec fuel' O R V2 half_cut false
                else Ok R) ;;
          Ok R
  end.

Definition min_cut_split (O : Oracles) (R : triples) (L : list vertex)
  (half_cut init : bool) : outcome triples :=
  min_cut_split_rec (S (length L)) O R L half_cut init.

Definition min_cut_edit (O : Oracles) (G : Graph) (half_cut R1 R2 : bool)
  : outcome Graph :=
  R <- get_triples G R1 R2 ;;
  R_new <- min_cut_split O R (nodes G) half_cut true ;;
  H <- BUILD_cograph R_new (NodeView G) 0 ;;
  let H_comp := complement H in
  if n_edits G H <? n_edits G H_comp then Ok H else Ok H_comp.

(** One step of the inner loop of minimal_min_cut_edit. *)
Definition readd_edge (O : Oracles) (G_tmp : Graph) (e : vertex * vertex)
  : outcome Graph :=
  let '(x, y) := e in
  let G_tmp := add_edge G_tmp x y None in
  if negb (recognition O G_tmp) then remove_edge G_tmp x y else Ok G_tmp.

(** One trial of minimal_min_cut_edit: the state is the list [cut_edges],
    which every trial shuffles in place, and the local [G_min]. *)
Definition min_cut_trial (O : Oracles) (G H : Graph) (best_score : nat)
  (st : list (vertex * vertex) * option Graph) (i : nat)
  : outcome (list (vertex * vertex) * option Graph) :=
  let G_tmp := copy H in
  let cut_edges := shuffle O i (fst st) in
  G_tmp <- for_each cut_edges (readd_edge O) G_tmp ;;
  if n_deletions G G_tmp <? best_score
  then Ok (cut_edges, Some G_tmp)
  else Ok (cut_edges, snd st).

Definition minimal_min_cut_edit (O : Oracles) (G : Graph) (iterations : nat)
  (half_cut R1 R2 : bool) : outcome Graph :=
  H <- min_cut_edit O G half_cut R1 R2 ;;
  let cut_edges := filter (fun e => negb (has_edge H (fst e) (snd e))) (edges G) in
  let best_score := length (edges G) in
  st <- for_each (seq 0 iterations) (min_cut_trial O G H best_score)
          (cut_edges, None) ;;
  read_local (snd st).




(* ================================================================== *)
(** ** Instances used by the examples *)
(* ================================================================== *)

(** [path_graph] of graphs.py, with [label_start]. *)
Definition path_graph (n label_start : nat) : Graph :=
  fold_left (fun G i => add_edge G i (i + 1) None) (seq label_start (n - 1)) empty.

(** An instance of the recognition oracle, which the code takes from
    tralda: a cograph is a graph with no induced path on four vertices. *)
Definition p4_free (g : Graph) : bool :=
  negb (existsb (fun a => existsb (fun b => existsb (fun c => existsb (fun d =>
     has_edge g a b && has_edge g b c && has_edge g c d
     && negb (has_edge g a c) && negb (has_edge g a d) && negb (has_edge g b d)
     && negb (Nat.eqb a c) && negb (Nat.eqb a d) && negb (Nat.eqb b d))
     (nodes g)) (nodes g)) (nodes g)) (nodes g)).

(** All the ways to split a list in two. *)
Fixpoint bipartitions (l : list vertex) : list (list vertex * list vertex) :=
  match l with
  | [] => [([], [])]
  | x :: r =>
      flat_map (fun p => [(x :: fst p, snd p); (fst p, x :: snd p)]) (bipartitions r)
  end.

(** The weight of an edge for a cut: 1 when the attribute is absent. *)
Definition weight_of (g : Graph) (u v : vertex) : nat :=
  match Dict.get Nat.eqb v (adj g u) with
  | Some (Some w) => w
  | Some None => 1
  | None => 0
  end.

Definition crosses (p : list vertex * list vertex) (e : vertex * vertex) : bool :=
  (In_b (fst e) (fst p) && In_b (snd e) (snd p))
  || (In_b (fst e) (snd p) && In_b (snd e) (fst p)).

Definition cut_weight (g : Graph) (p : list vertex * list vertex) : nat :=
  list_sum (map (fun e => weight_of g (fst e) (snd e)) (filter (crosses p) (edges g))).

(** An instance of the minimum-cut oracle, which the code takes from
    networkx: a bipartition of the vertices, both sides non-empty, of
    minimum total weight of the edges that cross it. When the graph has
    fewer than two vertices, one side is empty. *)
Definition brute_min_cut (g : Graph) : list vertex * list vertex :=
  match nodes g with
  | [] => ([], [])
  | v :: rest =>
      fold_left
        (fun best p =>
           match snd p with
           | [] => best
           | _ => if cut_weight g p <? cut_weight g best then p else best
           end)
        (map (fun p => (v :: fst p, snd p)) (bipartitions rest))
        ([v], rest)
  end.

(** The oracles of the examples; the shuffles are given trial by trial. *)
Definition example_oracles
  (sh : nat -> list (vertex * vertex) -> list (vertex * vertex)) : Oracles :=
  {| recognition := p4_free;
     stoer_wagner := brute_min_cut;
     kernighan_lin_bisection := brute_min_cut;
     shuffle := sh |}.

Definition no_shuffle (i : nat) (l : list (vertex * vertex)) := l.

Unset Implicit Arguments.

(** The graphs and triple sets of the examples. *)
Definition P4 : Graph := path_graph 4 1.

(** The path 1-2-3-4 and the isolated vertex 5. *)
Definition P4_and_vertex : Graph := add_node P4 5.

(** The three-vertex graph with no edge. *)
Definition three_vertices : Graph := add_nodes_from empty [1; 2; 3].

(** The path 1-2-...-9. *)
Definition P9 : Graph := path_graph 9 1.

(** The first shuffle leaves the list as it is, the later ones move its
    first two elements to its end. *)
Definition rotate_later (i : nat) (l : list (vertex * vertex)) : list (vertex * vertex) :=
  match i with
  | 0 => l
  | S _ => skipn 2 l ++ firstn 2 l
  end.

(** The triples of the path 1-2-3-4, as [get_triples] gives them. *)
Definition P4_triples : triples :=
  [((1, 2), [4]); ((1, 3), [2]); ((2, 4), [3]); ((3, 4), [1])].

(* ================================================================== *)
(** ** Well-formed graphs and connectivity *)
(* ================================================================== *)

(** The neighbour dicts have no repeated key. *)
Definition adj_NoDup (g : Graph) : Prop := forall a, NoDup (map fst (adj g a)).

(** What networkx keeps true of an undirected graph: the nodes are
    distinct, an edge is stored at both of its ends, and both ends are
    nodes. *)
Definition wf_graph (g : Graph) : Prop :=
  NoDup (nodes g)
  /\ adj_NoDup g
  /\ (forall a b, has_edge g a b = true -> has_edge g b a = true)
  /\ (forall a b, has_edge g a b = true -> In a (nodes g) /\ In b (nodes g)).

(** There is a path from [x]. *)
Inductive reach (g : Graph) (x : vertex) : vertex -> Prop :=
| reach_refl : reach g x x
| reach_step (y z : vertex) : reach g x y -> has_edge g y z = true -> reach g x z.

(** No edge leaves [K]. *)
Definition closed (g : Graph) (K : list vertex) : Prop :=
  forall x y, In x K -> has_edge g x y = true -> In y K.

Definition component_like (g : Graph) (K : list vertex) : Prop :=
  K <> [] /\ closed g K /\ exists v, In v K /\ forall y, In y K -> reach g v y.

(** The edges that [comp_graph] adds, and the loop that adds them. *)
Definition comp_edges (R : triples) (V : list vertex) : list (vertex * vertex) :=
  map fst (filter (fun kv => (0 <? length (snd kv))
                             && In_b (fst (fst kv)) V && In_b (snd (fst kv)) V) R).

Definition add_pairs (w : option nat) (g : Graph) (ks : list (vertex * vertex)) : Graph :=
  fold_left (fun A e => add_edge A (fst e) (snd e) w) ks g.

(** A list of pairs that holds no pair in both orders. *)
Definition swap_free (es : list (vertex * vertex)) : Prop :=
  forall x y, In (x, y) es -> In (y, x) es -> x = y.

(** The pair with its smaller end first. *)
Definition norm (e : vertex * vertex) : vertex * vertex :=
  if fst e <=? snd e then e else (snd e, fst e).

(** [rand.shuffle] rearranges the list. *)
Definition permuting (O : Oracles) : Prop :=
  forall i l, Permutation (shuffle O i l) l.

(* ================================================================== *)
(** ** Triple sets and the oracles' contracts *)
(* ================================================================== *)

(** [R[k]], and no witness when [k] is not a key. *)
Definition wit (R : triples) (k : vertex * vertex) : list vertex :=
  match Dict.get pair_eqb k R with Some zs => zs | None => [] end.

Definition keys_of (R : triples) : list (vertex * vertex) := map fst R.

(** The keys are unique, also up to the order of the pair. *)
Definition canonical (R : triples) : Prop :=
  NoDup (keys_of R)
  /\ forall x y, In (x, y) (keys_of R) -> In (y, x) (keys_of R) -> x = y.

(** What the loops of [get_triples] keep true of the dict they fill: the
    keys are distinct pairs of vertices of [G], the first before the second
    in [G.nodes], and the witnesses are vertices of [G]. *)
Definition triples_inv (G : Graph) (T : triples) : Prop :=
  NoDup (keys_of T)
  /\ (forall k, In k (keys_of T) ->
                exists i j, i < j /\ j < length (nodes G)
                            /\ k = (nth i (nodes G) 0, nth j (nodes G) 0))
  /\ (forall k z, In z (wit T k) -> In z (nodes G)).

(** Every witness of a pair of [L] is in [L]. *)
Definition witnesses_in (R : triples) (L : list vertex) : Prop :=
  forall x y z, In x L -> In y L -> In z (wit R (x, y)) -> In z L.

(** [R'] has lost keys or witnesses of [R], and has nothing new. *)
Definition pruned (R' R : triples) : Prop :=
  incl (keys_of R') (keys_of R)
  /\ (NoDup (keys_of R) -> NoDup (keys_of R'))
  /\ forall k, incl (wit R' k) (wit R k).

(** [V1] and [V2] are the two sides of a cut of [V]. *)
Definition bipartition (V V1 V2 : list vertex) : Prop :=
  V1 <> [] /\ V2 <> [] /\ NoDup V1 /\ NoDup V2
  /\ (forall v, In v V <-> In v V1 \/ In v V2)
  /\ (forall v, In v V1 -> In v V2 -> False).

(** The contract of a cut oracle (section 6 of the specification): on a
    connected graph with two vertices or more, a 2-partition that covers
    all the vertices, without overlap. *)
Definition valid_cut (f : Graph -> list vertex * list vertex) : Prop :=
  forall g, wf_graph g -> 2 <= length (nodes g) ->
            length (connected_components g) = 1 ->
            bipartition (nodes g) (fst (f g)) (snd (f g)).

Definition valid_oracles (O : Oracles) : Prop :=
  valid_cut (stoer_wagner O) /\ valid_cut (kernighan_lin_bisection O).

(** [C] splits in two parts such that no triple with its witness in [C]
    has its pair across the parts. *)
Definition separated (R : triples) (C : list vertex) : Prop :=
  exists A B,
    A <> [] /\ B <> []
    /\ (forall v, In v C <-> In v A \/ In v B)
    /\ (forall v, In v A -> In v B -> False)
    /\ forall x y z, In x A -> In y B -> In z C ->
                     ~ In z (wit R (x, y)) /\ ~ In z (wit R (y, x)).

(** Every set of three leaves or more inside [M] can be separated. *)
Definition consistent_on (R : triples) (M : list vertex) : Prop :=
  forall C, NoDup C -> incl C M -> 3 <= length C -> separated R C.

(* ================================================================== *)
(** ** The rule of the specification for a triple *)
(* ================================================================== *)

(** The rule of section 4.1 of the specification, in its words: [edge G a b]
    reads "a-b is an edge" and "a is adjacent to b". *)
Definition edge (G : Graph) (a b : vertex) : Prop := has_edge G a b = true.

Definition triple_rule (G : Graph) (x y z : vertex) (R1 R2 : bool) : Prop :=
  (~ edge G z x /\ ~ edge G z y /\
   ((R1 = true /\ edge G x y)
    \/ (R2 = true /\ ~ edge G x y /\
        exists n, edge G x n /\ edge G n y /\ ~ edge G n z)))
  \/
  (edge G z x /\ edge G z y /\
   ((R1 = true /\ ~ edge G x y)
    \/ (R2 = true /\ edge G x y /\
        exists n, edge G z n /\ ~ edge G n x /\ ~ edge G n y))).

(** An undirected graph: [has_edge] does not depend on the order of the
    endpoints. *)
Definition undirected (G : Graph) : Prop :=
  forall a b, has_edge G a b = has_edge G b a.

(** The claim of the specification about a rejected configuration. *)
Definition rejects_configuration {A : Type} (r : outcome A) : Prop :=
  r = Raise InvalidConfiguration.

Definition raises {A : Type} (r : outcome A) : Prop := exists e, r = Raise e.

Definition returns {A : Type} (r : outcome A) : Prop := exists a, r = Ok a.

(* ================================================================== *)
(** ** Cographs, and the notions of the further properties *)
(* ================================================================== *)

(** [z] is a witness that [get_triples] records for the pair [(x, y)]. *)
Definition recorded (G : Graph) (R1 R2 : bool) (x y z : vertex) : Prop :=
  In z (nodes G) /\ z <> x /\ z <> y /\ is_triple G (x, y, z) R1 R2 = Ok true.

(** No key has an empty list of witnesses. *)
Definition no_empty_entry (T : triples) : Prop :=
  forall k, In k (keys_of T) -> wit T k <> [].

(** The dict with the keys of [R], and no witness. *)
Definition blank (R : triples) : triples := map (fun kv => (fst kv, @nil vertex)) R.

(** The pairs that [join] adds. *)
Definition cross_pairs (G1 G2 : Graph) : list (vertex * vertex) :=
  flat_map (fun x => map (fun y => (x, y)) (nodes G2)) (nodes G1).

(** The pairs that [complement] adds. *)
Definition complement_pairs (g : Graph) : list (vertex * vertex) :=
  flat_map (fun na =>
              map (fun m => (fst na, m))
                  (filter (fun m => negb (Dict.mem Nat.eqb m (snd na))
                                    && negb (Nat.eqb (fst na) m))
                          (nodes g)))
           g.

(** [a-b-c-d] is an induced path of [g]. *)
Definition induced_P4 (g : Graph) (a b c d : vertex) : Prop :=
  has_edge g a b = true /\ has_edge g b c = true /\ has_edge g c d = true
  /\ has_edge g a c = false /\ has_edge g a d = false /\ has_edge g b d = false
  /\ a <> c /\ a <> d /\ b <> d.

Definition disjoint (V1 V2 : list vertex) : Prop :=
  forall v, In v V1 -> In v V2 -> False.

(** [G] is a well-formed graph on the vertices [V] with no induced path on
    four vertices. *)
Definition cograph_on (V : list vertex) (G : Graph) : Prop :=
  wf_graph G /\ (forall v, In v (nodes G) <-> In v V) /\ p4_free G = true.

(** The nodes of a graph with the keys of their neighbour dicts: what is
    left of the graph when the data of the edges is dropped. *)
Definition skeleton (g : Graph) : list (vertex * list vertex) :=
  map (fun na => (fst na, map fst (snd na))) g.

(** The recogniser is the test for an induced path on four vertices. *)
Definition recognises_cographs (O : Oracles) : Prop :=
  forall g, recognition O g = p4_free g.

(** The vertices of a nested list. *)
Fixpoint leaves_of (c : nest) : list vertex :=
  match c with
  | Leaf v => [v]
  | Sub cs => flat_map leaves_of cs
  end.

(** [G.edges[a, b]], as the neighbour dict of [a] has it: the data of the
    edge, of which the code uses the weight. *)
Definition edge_data (g : Graph) (a b : vertex) : option (option nat) :=
  Dict.get Nat.eqb b (adj g a).

(** The data of an edge is one dict, seen from both ends. *)
Definition data_symmetric (g : Graph) : Prop :=
  forall a b, edge_data g a b = edge_data g b a.

(** The number of witnesses of the pair [a], [b], in the order in which
    the dict has it; [None] when it has the pair in neither order. *)
Definition witness_count (R : triples) (a b : vertex) : option nat :=
  if Dict.mem pair_eqb (a, b) R then Some (length (wit R (a, b)))
  else if Dict.mem pair_eqb (b, a) R then Some (length (wit R (b, a)))
  else None.

(** The weight that direct_graph_cut leaves on the edge [a-b] of [G]. *)
Definition edge_weight (R : triples) (G : Graph) (a b : vertex) : nat :=
  match witness_count R a b with
  | Some n => n
  | None => match edge_data G a b with Some (Some w) => w | _ => 0 end
  end.

(** [a], [b] are the ends [x], [y] of an edge, in one order or the other. *)
Definition touches (x y a b : vertex) : bool :=
  (Nat.eqb a x && Nat.eqb b y) || (Nat.eqb a y && Nat.eqb b x).

(** The state of the first weighting loop, after the entries [done]. *)
Definition weighted_by (G : Graph) (done : triples) (G' : Graph) : Prop :=
  skeleton G' = skeleton G
  /\ forall a b, edge_data G' a b
                 = match (if has_edge G a b then witness_count done a b else None) with
                   | Some n => Some (Some n)
                   | None => edge_data G a b
                   end.

(** The state of the second weighting loop, after the edges [done]. *)
Definition zeroed_by (G1 : Graph) (done : list (vertex * vertex)) (G' : Graph) : Prop :=
  skeleton G' = skeleton G1
  /\ forall a b, edge_data G' a b
                 = match edge_data G1 a b with
                   | Some None =>
                       if existsb (fun e => touches (fst e) (snd e) a b) done
                       then Some (Some 0) else Some None
                   | d => d
                   end.

(* ================================================================== *)
(** ** Basic facts *)
(* ================================================================== *)

Lemma In_b_true (x : vertex) (l : list vertex) : In_b x l = true <-> In x l.
Proof.
  unfold In_b. rewrite existsb_exists. split.
  - intros [y [Hy E]]. apply Nat.eqb_eq in E. now subst.
  - intros H. exists x. split; [assumption | apply Nat.eqb_refl].
Qed.

Lemma In_b_false (x : vertex) (l : list vertex) : In_b x l = false <-> ~ In x l.
Proof.
  rewrite <- In_b_true. destruct (In_b x l); split; congruence.
Qed.

Lemma pair_eqb_eq (p q : vertex * vertex) : pair_eqb p q = true <-> p = q.
Proof.
  destruct p as [a b], q as [c d]. unfold pair_eqb. simpl.
  rewrite andb_true_iff, !Nat.eqb_eq. split.
  - intros [-> ->]. reflexivity.
  - intros E. inversion E. auto.
Qed.

Lemma pair_eqb_refl (p : vertex * vertex) : pair_eqb p p = true.
Proof. now apply pair_eqb_eq. Qed.

Lemma pair_eqb_neq (p q : vertex * vertex) : pair_eqb p q = false <-> p <> q.
Proof.
  rewrite <- pair_eqb_eq. destruct (pair_eqb p q); split; congruence.
Qed.

Lemma for_each_app {A S : Type} (xs ys : list A) (body : S -> A -> outcome S) (s : S) :
  for_each (xs ++ ys) body s = (s' <- for_each xs body s ;; for_each ys body s').
Proof.
  revert s. induction xs as [|x xs IH]; intros s; simpl.
  - reflexivity.
  - destruct (body s x); simpl; auto.
Qed.

(** A loop whose body never changes the state returns it. *)
Lemma for_each_skip {A S : Type} (xs : list A) (body : S -> A -> outcome S) (s : S) :
  (forall x, In x xs -> body s x = Ok s) -> for_each xs body s = Ok s.
Proof.
  induction xs as [|x xs IH]; intros H; simpl.
  - reflexivity.
  - rewrite (H x (or_introl eq_refl)). simpl. apply IH.
    intros y Hy. apply H. now right.
Qed.

Lemma for_each_invariant {X S : Type} (P : S -> Prop) (xs : list X)
  (body : S -> X -> outcome S) :
  (forall s x, In x xs -> P s -> exists s', body s x = Ok s' /\ P s') ->
  forall s, P s -> exists s', for_each xs body s = Ok s' /\ P s'.
Proof.
  induction xs as [|x xs IH]; intros Hb s Hs.
  - exists s. now split.
  - destruct (Hb s x (or_introl eq_refl) Hs) as [s1 [E1 H1]].
    destruct (IH (fun s0 x0 H0 => Hb s0 x0 (or_intror H0)) s1 H1) as [s' [E' H']].
    exists s'. cbn [for_each]. rewrite E1. cbn [bind]. now split.
Qed.

(* ================================================================== *)
(** ** Dictionaries *)
(* ================================================================== *)

(** Reading, assigning and deleting keys, for every key type with a
    boolean equality. *)

Section DictFacts.
Variable K : Type.
Variable eqb : K -> K -> bool.
Hypothesis eqb_eq : forall x y, eqb x y = true <-> x = y.
Variable A : Type.
Implicit Types (d : list (K * A)) (k : K) (a : A).

Lemma dict_eqb_refl k : eqb k k = true.
Proof. now apply eqb_eq. Qed.

Lemma dict_eqb_neq k k' : k <> k' -> eqb k k' = false.
Proof.
  intros N. destruct (eqb k k') eqn:E; [|reflexivity].
  apply eqb_eq in E. contradiction.
Qed.

Lemma get_set_same k a d : Dict.get eqb k (Dict.set eqb k a d) = Some a.
Proof.
  induction d as [|[k' a'] d IH]; simpl.
  - now rewrite dict_eqb_refl.
  - destruct (eqb k k') eqn:E; simpl; rewrite E; auto.
Qed.

Lemma get_set_other k k' a d :
  k <> k' -> Dict.get eqb k (Dict.set eqb k' a d) = Dict.get eqb k d.
Proof.
  intros N. induction d as [|[k2 a2] d IH]; simpl.
  - now rewrite dict_eqb_neq.
  - destruct (eqb k' k2) eqn:E; simpl.
    + apply eqb_eq in E. subst k2. now rewrite dict_eqb_neq.
    + now rewrite IH.
Qed.

Lemma get_In k a d : Dict.get eqb k d = Some a -> In (k, a) d.
Proof.
  induction d as [|[k' a'] d IH]; simpl; [discriminate|].
  destruct (eqb k k') eqn:E.
  - intros H. inversion H. apply eqb_eq in E. subst. now left.
  - intros H. right. auto.
Qed.

Lemma In_get k a d : NoDup (map fst d) -> In (k, a) d -> Dict.get eqb k d = Some a.
Proof.
  induction d as [|[k' a'] d IH]; simpl; [contradiction|].
  intros ND [H|H].
  - inversion H. subst. now rewrite dict_eqb_refl.
  - inversion ND as [|? ? Hn ND']. subst.
    rewrite dict_eqb_neq; [auto|].
    intros ->. apply Hn. apply (in_map fst) in H. exact H.
Qed.

Lemma get_None k d : Dict.get eqb k d = None <-> ~ In k (map fst d).
Proof.
  induction d as [|[k' a'] d IH]; simpl.
  - tauto.
  - destruct (eqb k k') eqn:E.
    + apply eqb_eq in E. subst. split; [discriminate|]. intros H. exfalso. apply H. now left.
    + rewrite IH. split.
      * intros H [H1|H1]; [|contradiction]. subst. rewrite dict_eqb_refl in E. discriminate.
      * intros H H1. apply H. now right.
Qed.

Lemma mem_keys k d : Dict.mem eqb k d = true <-> In k (map fst d).
Proof.
  unfold Dict.mem. destruct (Dict.get eqb k d) eqn:E.
  - split; [|reflexivity]. intros _. apply get_In in E. apply (in_map fst) in E. exact E.
  - apply get_None in E. split; [discriminate | contradiction].
Qed.

Lemma keys_set_present k a d :
  In k (map fst d) -> map fst (Dict.set eqb k a d) = map fst d.
Proof.
  induction d as [|[k' a'] d IH]; simpl; [contradiction|].
  intros H. destruct (eqb k k') eqn:E; simpl; [reflexivity|].
  f_equal. apply IH. destruct H as [H|H]; [|assumption].
  subst. rewrite dict_eqb_refl in E. discriminate.
Qed.

Lemma keys_set_absent k a d :
  ~ In k (map fst d) -> map fst (Dict.set eqb k a d) = map fst d ++ [k].
Proof.
  induction d as [|[k' a'] d IH]; simpl; [reflexivity|].
  intros H. destruct (eqb k k') eqn:E; simpl.
  - apply eqb_eq in E. subst. exfalso. apply H. now left.
  - f_equal. apply IH. intros H1. apply H. now right.
Qed.

Lemma get_remove_other k k' d :
  k <> k' -> Dict.get eqb k (Dict.remove eqb k' d) = Dict.get eqb k d.
Proof.
  intros N. induction d as [|[k2 a2] d IH]; simpl; [reflexivity|].
  destruct (eqb k' k2) eqn:E; simpl.
  - apply eqb_eq in E. subst. now rewrite dict_eqb_neq.
  - now rewrite IH.
Qed.

Lemma get_remove_same k d :
  NoDup (map fst d) -> Dict.get eqb k (Dict.remove eqb k d) = None.
Proof.
  induction d as [|[k2 a2] d IH]; simpl; [reflexivity|].
  intros ND. inversion ND as [|? ? Hn ND']. subst.
  destruct (eqb k k2) eqn:E; simpl.
  - apply eqb_eq in E. subst. now apply get_None.
  - rewrite E. auto.
Qed.

Lemma keys_remove_incl k d : incl (map fst (Dict.remove eqb k d)) (map fst d).
Proof.
  induction d as [|[k2 a2] d IH]; simpl; [apply incl_refl|].
  destruct (eqb k k2); simpl.
  - apply incl_tl, incl_refl.
  - intros x [H|H]; [now left | right; auto].
Qed.

Lemma keys_remove_NoDup k d : NoDup (map fst d) -> NoDup (map fst (Dict.remove eqb k d)).
Proof.
  induction d as [|[k2 a2] d IH]; simpl; [auto|].
  intros ND. inversion ND as [|? ? Hn ND']. subst.
  destruct (eqb k k2); simpl; [assumption|].
  constructor; [|auto]. intros H. apply Hn. now apply (keys_remove_incl k d).
Qed.

End DictFacts.

(* ================================================================== *)
(** ** Nodes and edges of a graph *)
(* ================================================================== *)

(** How [add_node], [add_edge] and [remove_edge] change the nodes and the
    answers of [has_edge], and that they keep a graph well formed. *)

Lemma neighbors_node (G : Graph) (x : vertex) :
  has_node G x = true -> neighbors G x = Ok (map fst (adj G x)).
Proof.
  unfold has_node, neighbors, adj, nodes. intros H.
  apply In_b_true in H.
  induction G as [|[n a] G IH]; simpl in *.
  - contradiction.
  - destruct (Nat.eqb x n) eqn:E; [reflexivity|].
    apply IH. destruct H as [H|H]; [|assumption].
    subst. rewrite Nat.eqb_refl in E. discriminate.
Qed.

Lemma dict_mem_keys {A : Type} (k : vertex) (d : list (vertex * A)) :
  Dict.mem Nat.eqb k d = In_b k (map fst d).
Proof.
  unfold Dict.mem. induction d as [|[k' a] d IH]; simpl; [reflexivity|].
  destruct (Nat.eqb k k'); simpl; auto.
Qed.

Lemma has_edge_neighbors (G : Graph) (x n : vertex) :
  has_edge G x n = true <-> In n (map fst (adj G x)).
Proof.
  unfold has_edge. rewrite dict_mem_keys. apply In_b_true.
Qed.

Lemma existsb_neighbors (G : Graph) (x : vertex) (p : vertex -> bool) :
  existsb p (map fst (adj G x)) = true <-> exists n, edge G x n /\ p n = true.
Proof.
  rewrite existsb_exists. unfold edge.
  split; intros [n [H1 H2]]; exists n; split; try assumption;
    now apply has_edge_neighbors.
Qed.

Lemma get_app_vertex {A : Type} (k : vertex) (d d' : list (vertex * A)) :
  Dict.get Nat.eqb k (d ++ d')
  = match Dict.get Nat.eqb k d with Some a => Some a | None => Dict.get Nat.eqb k d' end.
Proof.
  induction d as [|[k' a] d IH]; simpl; [reflexivity|].
  destruct (Nat.eqb k k'); auto.
Qed.

Lemma adj_add_node (g : Graph) (n a : vertex) : adj (add_node g n) a = adj g a.
Proof.
  unfold add_node, adj. destruct (has_node g n); [reflexivity|].
  rewrite get_app_vertex. destruct (Dict.get Nat.eqb a g); [reflexivity|].
  simpl. destruct (Nat.eqb a n); reflexivity.
Qed.

Lemma nodes_add_node (g : Graph) (n : vertex) :
  nodes (add_node g n) = if has_node g n then nodes g else nodes g ++ [n].
Proof.
  unfold add_node. destruct (has_node g n); [reflexivity|].
  unfold nodes. now rewrite map_app.
Qed.

Lemma In_nodes_add_node (g : Graph) (n v : vertex) :
  In v (nodes (add_node g n)) <-> In v (nodes g) \/ v = n.
Proof.
  rewrite nodes_add_node. destruct (has_node g n) eqn:E.
  - apply In_b_true in E. split; [tauto|]. intros [H|H]; [assumption | now subst].
  - rewrite in_app_iff. simpl. split; intros [H|H]; auto.
    + destruct H as [H|[]]; auto.
Qed.

Lemma NoDup_nodes_add_node (g : Graph) (n : vertex) :
  NoDup (nodes g) -> NoDup (nodes (add_node g n)).
Proof.
  intros ND. rewrite nodes_add_node. destruct (has_node g n) eqn:E; [assumption|].
  apply In_b_false in E.
  apply NoDup_app; [assumption | repeat constructor; auto | ].
  - intros x Hx [H|[]]. subst. contradiction.
Qed.

Lemma adj_set (g : Graph) (u a : vertex) (x : adjacency) :
  adj (Dict.set Nat.eqb u x g) a = if Nat.eqb a u then x else adj g a.
Proof.
  unfold adj. destruct (Nat.eqb a u) eqn:E.
  - apply Nat.eqb_eq in E. subst. now rewrite (get_set_same _ _ Nat.eqb_eq).
  - apply Nat.eqb_neq in E. now rewrite (get_set_other _ _ Nat.eqb_eq).
Qed.

Lemma mem_set (k k' : vertex) (x : option nat) (d : adjacency) :
  Dict.mem Nat.eqb k (Dict.set Nat.eqb k' x d) = Nat.eqb k k' || Dict.mem Nat.eqb k d.
Proof.
  unfold Dict.mem. destruct (Nat.eqb k k') eqn:E.
  - apply Nat.eqb_eq in E. subst. now rewrite (get_set_same _ _ Nat.eqb_eq).
  - apply Nat.eqb_neq in E. now rewrite (get_set_other _ _ Nat.eqb_eq).
Qed.

Lemma has_edge_add_edge (g : Graph) (u v : vertex) (w : option nat) (a b : vertex) :
  has_edge (add_edge g u v w) a b
  = has_edge g a b || (Nat.eqb a u && Nat.eqb b v) || (Nat.eqb a v && Nat.eqb b u).
Proof.
  unfold add_edge, has_edge.
  rewrite !adj_set, !adj_add_node.
  destruct (Nat.eqb a v) eqn:Eav, (Nat.eqb a u) eqn:Eau; simpl;
    rewrite ?mem_set, ?adj_set, ?adj_add_node;
    try (apply Nat.eqb_eq in Eav); try (apply Nat.eqb_eq in Eau); subst;
    rewrite ?Nat.eqb_refl, ?mem_set; simpl.
  - destruct (Nat.eqb b u), (Dict.mem Nat.eqb b (adj g u)); reflexivity.
  - rewrite Eau. destruct (Nat.eqb b u), (Dict.mem Nat.eqb b (adj g v)); reflexivity.
  - destruct (Nat.eqb b v), (Dict.mem Nat.eqb b (adj g u)); reflexivity.
  - destruct (Dict.mem Nat.eqb b (adj g a)); reflexivity.
Qed.

Lemma nodes_set_present (g : Graph) (u : vertex) (x : adjacency) :
  In u (nodes g) -> nodes (Dict.set Nat.eqb u x g) = nodes g.
Proof. apply (keys_set_present _ _ Nat.eqb_eq). Qed.

Lemma nodes_add_edge (g : Graph) (u v : vertex) (w : option nat) :
  nodes (add_edge g u v w) = nodes (add_node (add_node g u) v).
Proof.
  unfold add_edge.
  rewrite nodes_set_present.
  - rewrite nodes_set_present; [reflexivity|].
    apply In_nodes_add_node. left. apply In_nodes_add_node. now right.
  - rewrite nodes_set_present.
    + apply In_nodes_add_node. now right.
    + apply In_nodes_add_node. left. apply In_nodes_add_node. now right.
Qed.

Lemma nodes_add_edge_present (g : Graph) (u v : vertex) (w : option nat) :
  In u (nodes g) -> In v (nodes g) -> nodes (add_edge g u v w) = nodes g.
Proof.
  intros Hu Hv. rewrite nodes_add_edge, !nodes_add_node.
  assert (E1 : has_node g u = true) by now apply In_b_true.
  unfold has_node at 1. rewrite nodes_add_node, E1.
  assert (E2 : In_b v (nodes g) = true) by now apply In_b_true.
  now rewrite E2.
Qed.

Lemma keys_set_NoDup (k : vertex) (x : option nat) (d : adjacency) :
  NoDup (map fst d) -> NoDup (map fst (Dict.set Nat.eqb k x d)).
Proof.
  intros ND. destruct (in_dec Nat.eq_dec k (map fst d)) as [H|H].
  - now rewrite (keys_set_present _ _ Nat.eqb_eq).
  - rewrite (keys_set_absent _ _ Nat.eqb_eq); [|assumption].
    apply NoDup_app; [assumption | repeat constructor; auto |].
    intros y Hy [E|[]]. subst. contradiction.
Qed.

Lemma adj_NoDup_add_edge (g : Graph) (u v : vertex) (w : option nat) :
  adj_NoDup g -> adj_NoDup (add_edge g u v w).
Proof.
  intros ND a. unfold add_edge. rewrite adj_set.
  destruct (Nat.eqb a v).
  - apply keys_set_NoDup. rewrite adj_set.
    destruct (Nat.eqb v u).
    + apply keys_set_NoDup. rewrite adj_add_node, adj_add_node. apply ND.
    + rewrite !adj_add_node. apply ND.
  - rewrite adj_set. destruct (Nat.eqb a u).
    + apply keys_set_NoDup. rewrite !adj_add_node. apply ND.
    + rewrite !adj_add_node. apply ND.
Qed.

Lemma add_nodes_from_nodes (ns : list vertex) (g : Graph) (v : vertex) :
  In v (nodes (add_nodes_from g ns)) <-> In v (nodes g) \/ In v ns.
Proof.
  revert g. induction ns as [|n ns IH]; intros g; simpl.
  - tauto.
  - unfold add_nodes_from in *. simpl. rewrite IH, In_nodes_add_node.
    intuition congruence.
Qed.

Lemma add_nodes_from_app (ns : list vertex) (g : Graph) :
  NoDup ns -> (forall v, In v ns -> ~ In v (nodes g)) ->
  nodes (add_nodes_from g ns) = nodes g ++ ns.
Proof.
  revert g. induction ns as [|n ns IH]; intros g ND Hd; simpl.
  - now rewrite app_nil_r.
  - unfold add_nodes_from in *. simpl. inversion ND as [|? ? Hn ND']. subst.
    rewrite IH; [| assumption |].
    + rewrite nodes_add_node.
      assert (E : has_node g n = false).
      { apply In_b_false. apply Hd. now left. }
      rewrite E, <- app_assoc. reflexivity.
    + intros v Hv Hin. apply In_nodes_add_node in Hin. destruct Hin as [Hin|Hin].
      * apply (Hd v); [now right | assumption].
      * subst. contradiction.
Qed.

Lemma add_nodes_from_adj (ns : list vertex) (g : Graph) (a : vertex) :
  adj (add_nodes_from g ns) a = adj g a.
Proof.
  revert g. induction ns as [|n ns IH]; intros g; simpl; [reflexivity|].
  unfold add_nodes_from in *. simpl. now rewrite IH, adj_add_node.
Qed.

Lemma has_edge_add_node (g : Graph) (n a b : vertex) :
  has_edge (add_node g n) a b = has_edge g a b.
Proof. unfold has_edge. now rewrite adj_add_node. Qed.

Lemma wf_empty : wf_graph empty.
Proof.
  split; [constructor|]. split; [intros a; constructor|].
  split; intros a b H; discriminate.
Qed.

Lemma wf_add_node (g : Graph) (n : vertex) : wf_graph g -> wf_graph (add_node g n).
Proof.
  intros [ND [Ha [Hs Hc]]]. split; [now apply NoDup_nodes_add_node|].
  split; [intros a; rewrite adj_add_node; apply Ha|]. split.
  - intros a b. rewrite !has_edge_add_node. apply Hs.
  - intros a b. rewrite has_edge_add_node, !In_nodes_add_node.
    intros H. apply Hc in H. tauto.
Qed.

Lemma wf_add_edge (g : Graph) (u v : vertex) (w : option nat) :
  wf_graph g -> wf_graph (add_edge g u v w).
Proof.
  intros [ND [Ha [Hs Hc]]]. split; [|split; [|split]].
  - rewrite nodes_add_edge. now apply NoDup_nodes_add_node, NoDup_nodes_add_node.
  - now apply adj_NoDup_add_edge.
  - intros a b. rewrite !has_edge_add_edge, !orb_true_iff, !andb_true_iff.
    intros [[H|H]|H]; [left; left; now apply Hs | right; tauto | left; right; tauto].
  - intros a b. rewrite has_edge_add_edge, nodes_add_edge, !In_nodes_add_node.
    rewrite !orb_true_iff, !andb_true_iff, !Nat.eqb_eq.
    intros [[H|[-> ->]]|[-> ->]]; [apply Hc in H|..]; tauto.
Qed.

Lemma fold_left_wf {X : Type} (f : Graph -> X -> Graph) (l : list X) :
  (forall h x, wf_graph h -> wf_graph (f h x)) ->
  forall h, wf_graph h -> wf_graph (fold_left f l h).
Proof.
  intros Hf. induction l as [|x l IH]; intros h Hh; simpl; [assumption|].
  apply IH. now apply Hf.
Qed.

Lemma wf_add_nodes_from (g : Graph) (ns : list vertex) :
  wf_graph g -> wf_graph (add_nodes_from g ns).
Proof. apply fold_left_wf. intros h x. apply wf_add_node. Qed.

Lemma wf_add_edges_from (g : Graph) (es : list (vertex * vertex)) :
  wf_graph g -> wf_graph (add_edges_from g es).
Proof. apply fold_left_wf. intros h x. apply wf_add_edge. Qed.

Lemma wf_copy (g : Graph) : wf_graph (copy g).
Proof.
  unfold copy. apply fold_left_wf.
  - intros h na Hh. apply fold_left_wf; [|assumption].
    intros h' md. apply wf_add_edge.
  - apply wf_add_nodes_from, wf_empty.
Qed.

Lemma wf_union (G1 G2 : Graph) : wf_graph (union G1 G2).
Proof. apply wf_add_edges_from, wf_add_nodes_from, wf_copy. Qed.

Lemma wf_join (G1 G2 : Graph) : wf_graph (join G1 G2).
Proof. apply wf_add_edges_from, wf_union. Qed.

Lemma wf_complement (g : Graph) : wf_graph (complement g).
Proof. apply wf_add_edges_from, wf_add_nodes_from, wf_empty. Qed.

Lemma for_each_wf {X : Type} (xs : list X) (body : Graph -> X -> outcome Graph) :
  (forall G x G', body G x = Ok G' -> wf_graph G') ->
  forall G G', wf_graph G -> for_each xs body G = Ok G' -> wf_graph G'.
Proof.
  intros Hb. induction xs as [|x xs IH]; intros G G' HG; simpl.
  - intros E. inversion E. now subst.
  - destruct (body G x) as [G1| |] eqn:E1; simpl; try discriminate.
    apply IH. now apply (Hb G x).
Qed.

Lemma mem_remove (k k' : vertex) (d : adjacency) :
  NoDup (map fst d) ->
  Dict.mem Nat.eqb k (Dict.remove Nat.eqb k' d)
  = Dict.mem Nat.eqb k d && negb (Nat.eqb k k').
Proof.
  intros ND. unfold Dict.mem. destruct (Nat.eqb k k') eqn:E.
  - apply Nat.eqb_eq in E. subst.
    rewrite (get_remove_same _ _ Nat.eqb_eq _ _ _ ND). now rewrite andb_false_r.
  - apply Nat.eqb_neq in E. rewrite (get_remove_other _ _ Nat.eqb_eq _ _ _ _ E).
    now rewrite andb_true_r.
Qed.

Lemma remove_edge_spec (g : Graph) (u v : vertex) :
  wf_graph g -> has_edge g u v = true ->
  exists g', remove_edge g u v = Ok g' /\ wf_graph g'
             /\ forall a b, has_edge g' a b
                            = has_edge g a b
                              && negb ((Nat.eqb a u && Nat.eqb b v)
                                       || (Nat.eqb a v && Nat.eqb b u)).
Proof.
  intros [ND [Ha [Hs Hc]]] He. unfold remove_edge. rewrite He.
  destruct (Hc u v He) as [Hu Hv].
  pose (g1 := Dict.set Nat.eqb u (Dict.remove Nat.eqb v (adj g u)) g : Graph).
  exists (if Nat.eqb u v then g1
          else Dict.set Nat.eqb v (Dict.remove Nat.eqb u (adj g1 v)) g1).
  split; [reflexivity|].
  assert (N1 : nodes g1 = nodes g) by now apply nodes_set_present.
  assert (A1 : forall a, adj g1 a
                         = if Nat.eqb a u then Dict.remove Nat.eqb v (adj g u) else adj g a).
  { intros a. apply adj_set. }
  assert (Hedge : forall a b,
             has_edge (if Nat.eqb u v then g1
                       else Dict.set Nat.eqb v (Dict.remove Nat.eqb u (adj g1 v)) g1) a b
             = has_edge g a b
               && negb ((Nat.eqb a u && Nat.eqb b v) || (Nat.eqb a v && Nat.eqb b u))).
  { intros a b. unfold has_edge. destruct (Nat.eqb u v) eqn:Euv.
    - apply Nat.eqb_eq in Euv. subst v. rewrite A1.
      destruct (Nat.eqb a u) eqn:Eau.
      + apply Nat.eqb_eq in Eau. subst a. rewrite mem_remove; [|apply Ha].
        destruct (Nat.eqb b u); simpl; now rewrite ?andb_true_r, ?andb_false_r.
      + simpl. now rewrite andb_true_r.
    - rewrite adj_set, !A1. rewrite (Nat.eqb_sym v u), Euv.
      destruct (Nat.eqb a v) eqn:Eav, (Nat.eqb a u) eqn:Eau; simpl.
      + apply Nat.eqb_eq in Eav, Eau. subst. rewrite Nat.eqb_refl in Euv. discriminate.
      + apply Nat.eqb_eq in Eav. subst a. rewrite mem_remove; [|apply Ha].
        reflexivity.
      + apply Nat.eqb_eq in Eau. subst a. rewrite mem_remove; [|apply Ha].
        now rewrite orb_false_r.
      + now rewrite andb_true_r. }
  assert (Hnodes : nodes (if Nat.eqb u v then g1
                          else Dict.set Nat.eqb v (Dict.remove Nat.eqb u (adj g1 v)) g1)
                   = nodes g).
  { destruct (Nat.eqb u v); [assumption|].
    rewrite nodes_set_present; [assumption | now rewrite N1]. }
  split; [|exact Hedge].
  split; [now rewrite Hnodes|]. split; [|split].
  - intros a. destruct (Nat.eqb u v).
    + rewrite A1. destruct (Nat.eqb a u); [|apply Ha].
      apply (keys_remove_NoDup _ Nat.eqb), Ha.
    + rewrite adj_set. destruct (Nat.eqb a v).
      * apply (keys_remove_NoDup _ Nat.eqb). rewrite A1.
        destruct (Nat.eqb v u); [|apply Ha].
        apply (keys_remove_NoDup _ Nat.eqb), Ha.
      * rewrite A1. destruct (Nat.eqb a u); [|apply Ha].
        apply (keys_remove_NoDup _ Nat.eqb), Ha.
  - intros a b. rewrite !Hedge, !andb_true_iff. intros [H1 H2].
    split; [now apply Hs|].
    destruct (Nat.eqb a u), (Nat.eqb b v), (Nat.eqb a v), (Nat.eqb b u);
      simpl in *; congruence.
  - intros a b. rewrite Hedge, Hnodes, andb_true_iff. intros [H _]. now apply Hc.
Qed.

(* ================================================================== *)
(** ** The edge view and the constraint graph *)
(* ================================================================== *)

(** [G.edges] lists every edge once, in one of its two orders; the
    constraint graph has the leaves as nodes and an edge for every key
    with a witness. *)

Lemma adj_In (g : Graph) (x : vertex) (a : adjacency) :
  NoDup (nodes g) -> In (x, a) g -> adj g x = a.
Proof.
  intros ND H. unfold adj. now rewrite (In_get _ _ Nat.eqb_eq _ _ _ _ ND H).
Qed.

Lemma edges_from_In (seen : list vertex) (g : Graph) (x y : vertex) :
  In (x, y) (edges_from seen g) ->
  ~ In y seen /\ exists a, In (x, a) g /\ In y (map fst a).
Proof.
  revert seen. induction g as [|[n nbrs] g IH]; intros seen; simpl; [contradiction|].
  rewrite in_app_iff. intros [H|H].
  - apply in_map_iff in H. destruct H as [[m d] [E H]]. simpl in E. inversion E. subst.
    apply filter_In in H. destruct H as [H1 H2]. simpl in H2.
    apply negb_true_iff, In_b_false in H2. split; [assumption|].
    exists nbrs. split; [now left|]. apply (in_map fst) in H1. exact H1.
  - apply IH in H. destruct H as [H1 [a [H2 H3]]]. split.
    + intros H. apply H1. now right.
    + exists a. split; [now right | assumption].
Qed.

Lemma edges_has_edge (g : Graph) (x y : vertex) :
  NoDup (nodes g) -> In (x, y) (edges g) -> has_edge g x y = true.
Proof.
  intros ND H. apply edges_from_In in H. destruct H as [_ [a [H1 H2]]].
  apply has_edge_neighbors. now rewrite (adj_In g _ _ ND H1).
Qed.

Lemma edges_from_complete (seen : list vertex) (g : Graph) (x y : vertex) (a : adjacency) :
  NoDup (nodes g) ->
  (forall s, In s seen -> ~ In s (nodes g)) ->
  (forall b, In (y, b) g -> In x (map fst b)) ->
  In (x, a) g -> In y (map fst a) -> ~ In y seen ->
  In (x, y) (edges_from seen g) \/ In (y, x) (edges_from seen g).
Proof.
  revert seen. induction g as [|[n nbrs] g IH]; intros seen ND Hs Hsym Hx Hy Hseen;
    simpl in *; [contradiction|].
  inversion ND as [|? ? Hn ND']. subst.
  destruct Hx as [Hx|Hx].
  - inversion Hx. subst. left. apply in_or_app. left.
    apply in_map_iff in Hy. destruct Hy as [[m d] [E Hy]]. simpl in E. subst.
    apply in_map_iff. exists (y, d). split; [reflexivity|].
    apply filter_In. split; [assumption|]. simpl.
    apply negb_true_iff, In_b_false. assumption.
  - assert (Hxn : x <> n).
    { intros ->. apply Hn. apply (in_map fst) in Hx. exact Hx. }
    destruct (Nat.eq_dec y n) as [->|Hyn].
    + right. apply in_or_app. left.
      specialize (Hsym nbrs (or_introl eq_refl)).
      apply in_map_iff in Hsym. destruct Hsym as [[m d] [E Hm]]. simpl in E. subst.
      apply in_map_iff. exists (x, d). split; [reflexivity|].
      apply filter_In. split; [assumption|]. simpl.
      apply negb_true_iff, In_b_false. intros H. apply (Hs x H).
      right. apply (in_map fst) in Hx. exact Hx.
    + destruct (IH (n :: seen)) as [H|H]; try assumption.
      * intros s [->|Hin]; [assumption|]. intros H. apply (Hs s Hin). now right.
      * intros b Hb. apply Hsym. now right.
      * intros [E|H]; [congruence | contradiction].
      * left. apply in_or_app. now right.
      * right. apply in_or_app. now right.
Qed.

Lemma has_edge_In_entry (g : Graph) (x y : vertex) :
  has_edge g x y = true -> exists a, In (x, a) g /\ In y (map fst a).
Proof.
  intros H. apply has_edge_neighbors in H. unfold adj in H.
  destruct (Dict.get Nat.eqb x g) as [a|] eqn:E; [|contradiction].
  exists a. split; [|assumption]. now apply (get_In _ _ Nat.eqb_eq).
Qed.

Lemma edges_complete (g : Graph) (x y : vertex) :
  wf_graph g -> has_edge g x y = true -> In (x, y) (edges g) \/ In (y, x) (edges g).
Proof.
  intros [ND [_ [Hsym _]]] H.
  destruct (has_edge_In_entry g x y H) as [a [H1 H2]].
  apply (edges_from_complete [] g x y a); auto.
  intros b Hb. apply Hsym in H. apply has_edge_neighbors in H.
  now rewrite (adj_In g _ _ ND Hb) in H.
Qed.

Lemma edges_from_oriented (seen : list vertex) (g : Graph) (x y : vertex) :
  NoDup (nodes g) ->
  In (x, y) (edges_from seen g) -> In (y, x) (edges_from seen g) -> x = y.
Proof.
  revert seen. induction g as [|[n nbrs] g IH]; intros seen ND; simpl; [contradiction|].
  inversion ND as [|? ? Hn ND']. subst.
  rewrite !in_app_iff. intros [H1|H1] [H2|H2].
  - apply in_map_iff in H1. destruct H1 as [? [E1 _]]. inversion E1.
    apply in_map_iff in H2. destruct H2 as [? [E2 _]]. inversion E2. congruence.
  - apply in_map_iff in H1. destruct H1 as [? [E1 _]]. inversion E1. subst.
    apply edges_from_In in H2. destruct H2 as [H2 _]. exfalso. apply H2. now left.
  - apply in_map_iff in H2. destruct H2 as [? [E2 _]]. inversion E2. subst.
    apply edges_from_In in H1. destruct H1 as [H1 _]. exfalso. apply H1. now left.
  - eapply IH; eassumption.
Qed.

Lemma edges_from_NoDup (seen : list vertex) (g : Graph) :
  NoDup (nodes g) -> (forall x a, In (x, a) g -> NoDup (map fst a)) ->
  NoDup (edges_from seen g).
Proof.
  revert seen. induction g as [|[n nbrs] g IH]; intros seen ND Ha; simpl; [constructor|].
  inversion ND as [|? ? Hn ND']. subst.
  apply NoDup_app.
  - assert (Hnb : NoDup (map fst nbrs)) by (apply (Ha n); now left).
    clear - Hnb. induction nbrs as [|[m d] nbrs IHn]; simpl; [constructor|].
    simpl in Hnb. inversion Hnb as [|? ? Hm Hnb']. subst.
    destruct (negb (In_b m seen)); simpl; [|auto].
    constructor; [|auto]. intros H. apply in_map_iff in H.
    destruct H as [[m' d'] [E H]]. simpl in E. inversion E. subst.
    apply filter_In in H. destruct H as [H _]. apply Hm.
    apply (in_map fst) in H. exact H.
  - apply IH; [assumption|]. intros x a H. apply (Ha x). now right.
  - intros [x y] H1 H2. apply in_map_iff in H1. destruct H1 as [? [E _]].
    inversion E. subst. apply edges_from_In in H2. destruct H2 as [_ [a [H2 _]]].
    apply Hn. apply (in_map fst) in H2. exact H2.
Qed.

Lemma edges_NoDup (g : Graph) : wf_graph g -> NoDup (edges g).
Proof.
  intros [ND [Ha _]]. apply edges_from_NoDup; [assumption|].
  intros x a H. rewrite <- (adj_In g _ _ ND H). apply Ha.
Qed.

Lemma edges_oriented (g : Graph) (x y : vertex) :
  wf_graph g -> In (x, y) (edges g) -> In (y, x) (edges g) -> x = y.
Proof. intros [ND _]. now apply edges_from_oriented. Qed.

Lemma add_pairs_has_edge (w : option nat) (ks : list (vertex * vertex)) (g : Graph)
  (a b : vertex) :
  has_edge (add_pairs w g ks) a b = true
  <-> has_edge g a b = true \/ In (a, b) ks \/ In (b, a) ks.
Proof.
  revert g. induction ks as [|[u v] ks IH]; intros g; simpl.
  - tauto.
  - unfold add_pairs in *. simpl. rewrite IH, has_edge_add_edge.
    rewrite !orb_true_iff, !andb_true_iff, !Nat.eqb_eq.
    split.
    + intros [[[H|[-> ->]]|[-> ->]]|[H|H]]; auto.
    + intros [H|[[H|H]|[H|H]]]; auto; inversion H; subst; auto.
Qed.

Lemma add_pairs_nodes (w : option nat) (ks : list (vertex * vertex)) (g : Graph) :
  (forall e, In e ks -> In (fst e) (nodes g) /\ In (snd e) (nodes g)) ->
  nodes (add_pairs w g ks) = nodes g.
Proof.
  revert g. induction ks as [|[u v] ks IH]; intros g H; simpl; [reflexivity|].
  unfold add_pairs in *. simpl.
  destruct (H (u, v) (or_introl eq_refl)) as [Hu Hv]. simpl in Hu, Hv.
  rewrite IH; rewrite nodes_add_edge_present; auto.
  intros e He. apply H. now right.
Qed.

Lemma add_pairs_adj_NoDup (w : option nat) (ks : list (vertex * vertex)) (g : Graph) :
  adj_NoDup g -> adj_NoDup (add_pairs w g ks).
Proof.
  revert g. induction ks as [|[u v] ks IH]; intros g H; simpl; [assumption|].
  unfold add_pairs in *. simpl. apply IH. now apply adj_NoDup_add_edge.
Qed.

Lemma comp_graph_unfold (R : triples) (V : list vertex) :
  comp_graph R V = add_pairs (Some 2) (add_nodes_from empty V) (comp_edges R V).
Proof. reflexivity. Qed.

Lemma comp_edges_In (R : triples) (V : list vertex) (k : vertex * vertex) :
  NoDup (map fst R) ->
  In k (comp_edges R V) <-> wit R k <> [] /\ In (fst k) V /\ In (snd k) V.
Proof.
  intros ND. unfold comp_edges. rewrite in_map_iff. split.
  - intros [[k' zs] [E H]]. simpl in E. subst k'.
    apply filter_In in H. destruct H as [H1 H2]. simpl in H2.
    apply andb_true_iff in H2. destruct H2 as [H2 H4].
    apply andb_true_iff in H2. destruct H2 as [H2 H3].
    apply In_b_true in H3, H4. apply Nat.ltb_lt in H2.
    unfold wit. rewrite (In_get _ _ pair_eqb_eq _ _ _ _ ND H1).
    repeat split; auto. intros ->. simpl in H2. lia.
  - intros [H1 [H2 H3]]. unfold wit in H1.
    destruct (Dict.get pair_eqb k R) as [zs|] eqn:E; [|congruence].
    exists (k, zs). split; [reflexivity|].
    apply filter_In. split; [now apply (get_In _ _ pair_eqb_eq)|]. simpl.
    apply In_b_true in H2, H3. rewrite H2, H3.
    destruct zs; [congruence | reflexivity].
Qed.

Lemma comp_graph_nodes (R : triples) (V : list vertex) :
  NoDup V -> nodes (comp_graph R V) = V.
Proof.
  intros ND. rewrite comp_graph_unfold.
  assert (E : nodes (add_nodes_from empty V) = V).
  { rewrite add_nodes_from_app; auto. }
  rewrite add_pairs_nodes; [assumption|].
  intros e He. rewrite E. unfold comp_edges in He.
  apply in_map_iff in He. destruct He as [[k zs] [Ek H]]. simpl in Ek. subst.
  apply filter_In in H. destruct H as [_ H]. simpl in H.
  apply andb_true_iff in H. destruct H as [H H4].
  apply andb_true_iff in H. destruct H as [_ H3].
  apply In_b_true in H3, H4. now split.
Qed.

Lemma has_edge_empty_nodes (V : list vertex) (a b : vertex) :
  has_edge (add_nodes_from empty V) a b = false.
Proof.
  unfold has_edge. now rewrite add_nodes_from_adj.
Qed.

Lemma comp_graph_has_edge (R : triples) (V : list vertex) (a b : vertex) :
  NoDup (map fst R) ->
  has_edge (comp_graph R V) a b = true
  <-> In a V /\ In b V /\ (wit R (a, b) <> [] \/ wit R (b, a) <> []).
Proof.
  intros ND. rewrite comp_graph_unfold, add_pairs_has_edge, has_edge_empty_nodes.
  rewrite !(comp_edges_In R V _ ND). simpl.
  split.
  - intros [H|[H|H]]; [discriminate| |]; tauto.
  - intros [H1 [H2 [H|H]]]; tauto.
Qed.

Lemma comp_graph_wf (R : triples) (V : list vertex) :
  NoDup (map fst R) -> NoDup V -> wf_graph (comp_graph R V).
Proof.
  intros NR NV. unfold wf_graph. rewrite (comp_graph_nodes R V NV).
  split; [assumption|]. split; [|split].
  - rewrite comp_graph_unfold. apply add_pairs_adj_NoDup.
    intros a. rewrite add_nodes_from_adj. constructor.
  - intros a b. rewrite !(comp_graph_has_edge R V _ _ NR). tauto.
  - intros a b. rewrite !(comp_graph_has_edge R V _ _ NR). tauto.
Qed.

Lemma has_edge_add_row (n : vertex) (nbrs : adjacency) (h : Graph) (a b : vertex) :
  has_edge (fold_left (fun h md => add_edge h n (fst md) (snd md)) nbrs h) a b = true
  <-> has_edge h a b = true
      \/ exists m, In m (map fst nbrs) /\ ((a = n /\ b = m) \/ (a = m /\ b = n)).
Proof.
  revert h. induction nbrs as [|[m d] nbrs IH]; intros h; simpl.
  - split; [tauto|]. intros [H|[m [[] _]]]. assumption.
  - rewrite IH, has_edge_add_edge, !orb_true_iff, !andb_true_iff, !Nat.eqb_eq. split.
    + intros [[[H|H]|H]|[m' [H1 H2]]]; auto.
      * right. exists m. tauto.
      * right. exists m. tauto.
      * right. exists m'. tauto.
    + intros [H|[m' [[<-|H1] H2]]]; auto.
      * left. tauto.
      * right. exists m'. tauto.
Qed.

Lemma has_edge_add_rows (g h : Graph) (a b : vertex) :
  has_edge (fold_left (fun h na =>
                         fold_left (fun h md => add_edge h (fst na) (fst md) (snd md))
                                   (snd na) h) g h) a b = true
  <-> has_edge h a b = true
      \/ exists n nbrs m, In (n, nbrs) g /\ In m (map fst nbrs)
                          /\ ((a = n /\ b = m) \/ (a = m /\ b = n)).
Proof.
  revert h. induction g as [|[n nbrs] g IH]; intros h; simpl.
  - split; [tauto|]. intros [H|[n [nbrs [m [[] _]]]]]. assumption.
  - rewrite IH, has_edge_add_row. split.
    + intros [[H|[m [H1 H2]]]|[n' [nbrs' [m [H1 H2]]]]]; auto.
      * right. exists n, nbrs, m. tauto.
      * right. exists n', nbrs', m. tauto.
    + intros [H|[n' [nbrs' [m [[E|H1] H2]]]]]; auto.
      * inversion E. subst. left. right. exists m. tauto.
      * right. exists n', nbrs', m. tauto.
Qed.

Lemma has_edge_copy (g : Graph) (a b : vertex) :
  wf_graph g -> has_edge (copy g) a b = has_edge g a b.
Proof.
  intros [ND [_ [Hs _]]].
  apply eq_true_iff_eq. unfold copy. rewrite has_edge_add_rows, has_edge_empty_nodes.
  split.
  - intros [H|[n [nbrs [m [H1 [H2 H3]]]]]]; [discriminate|].
    assert (He : has_edge g n m = true).
    { apply has_edge_neighbors. now rewrite (adj_In g n nbrs ND H1). }
    destruct H3 as [[-> ->]|[-> ->]]; [assumption | now apply Hs].
  - intros H. right. destruct (has_edge_In_entry g a b H) as [nbrs [H1 H2]].
    exists a, nbrs, b. tauto.
Qed.

(* ================================================================== *)
(** ** The weights of the constraint graph *)
(* ================================================================== *)

Lemma get_set_vertex (k k' : vertex) (x : option nat) (d : adjacency) :
  Dict.get Nat.eqb k (Dict.set Nat.eqb k' x d)
  = if Nat.eqb k k' then Some x else Dict.get Nat.eqb k d.
Proof.
  destruct (Nat.eqb k k') eqn:E.
  - apply Nat.eqb_eq in E. subst. apply (get_set_same _ _ Nat.eqb_eq).
  - apply Nat.eqb_neq in E. now apply (get_set_other _ _ Nat.eqb_eq).
Qed.

Lemma get_set_data (k k' : vertex) (x y : option nat) (d : adjacency) :
  Dict.get Nat.eqb k (Dict.set Nat.eqb k' x d) = Some y ->
  y = x \/ Dict.get Nat.eqb k d = Some y.
Proof.
  rewrite get_set_vertex. destruct (Nat.eqb k k'); [|now right].
  intros E. inversion E. now left.
Qed.

Lemma add_edge_data (g : Graph) (u v : vertex) (w : nat) (a b : vertex) (d : option nat) :
  Dict.get Nat.eqb b (adj (add_edge g u v (Some w)) a) = Some d ->
  d = Some w \/ Dict.get Nat.eqb b (adj g a) = Some d.
Proof.
  unfold add_edge. cbn iota. rewrite adj_set. destruct (Nat.eqb a v) eqn:Eav.
  - apply Nat.eqb_eq in Eav. subst a. intros E.
    apply get_set_data in E. destruct E as [E|E]; [now left|].
    rewrite adj_set in E. destruct (Nat.eqb v u) eqn:Evu.
    + apply Nat.eqb_eq in Evu. subst v.
      apply get_set_data in E. destruct E as [E|E]; [now left|].
      rewrite !adj_add_node in E. now right.
    + rewrite !adj_add_node in E. now right.
  - rewrite adj_set. destruct (Nat.eqb a u) eqn:Eau.
    + apply Nat.eqb_eq in Eau. subst a. intros E.
      apply get_set_data in E. destruct E as [E|E]; [now left|].
      rewrite !adj_add_node in E. now right.
    + rewrite !adj_add_node. now right.
Qed.

(** Every edge of the constraint graph carries the weight 2. *)
Lemma comp_graph_weight (R : triples) (V : list vertex) (a b : vertex) (d : option nat) :
  Dict.get Nat.eqb b (adj (comp_graph R V) a) = Some d -> d = Some 2.
Proof.
  rewrite comp_graph_unfold. generalize (comp_edges R V). intros ks.
  assert (H0 : forall a b d,
             Dict.get Nat.eqb b (adj (add_nodes_from empty V) a) = Some d -> d = Some 2).
  { intros a' b' d'. rewrite add_nodes_from_adj. discriminate. }
  revert H0. generalize (add_nodes_from empty V). intros g. revert g a b d.
  induction ks as [|[u v] ks IH]; intros g a b d Hg; simpl.
  - apply Hg.
  - apply IH. intros a' b' d' E. apply add_edge_data in E.
    destruct E as [E|E]; [assumption | now apply (Hg a' b')].
Qed.

(** C2, on the code: the pair (1, 2) has the single witness 3, and
    [comp_graph] gives the edge 1-2 the weight 2, the length of the list
    [[x, y]], where the claim says the number of witnesses, 1. The node
    set and the edge set are as the claim says. *)
Theorem comp_graph_weight_is_two :
  let R : triples := [((1, 2), [3])] in
  let A := comp_graph R [1; 2; 3] in
  nodes A = [1; 2; 3]
  /\ edges A = [(1, 2)]
  /\ Dict.get pair_eqb (1, 2) R = Some [3]
  /\ Dict.get Nat.eqb 2 (adj A 1) = Some (Some 2).
Proof.
  repeat split.
Qed.

(* ================================================================== *)
(** ** Connected components *)
(* ================================================================== *)

(** [connected_components] partitions the nodes into non-empty sets that
    no edge leaves and that are connected. *)

Lemma reach_trans (g : Graph) (x y z : vertex) :
  reach g x y -> reach g y z -> reach g x z.
Proof.
  intros Hxy Hyz. induction Hyz as [|u w _ IH Hw]; [assumption|].
  now apply (reach_step g x u w).
Qed.

Lemma reach_sym (g : Graph) (x y : vertex) :
  (forall a b, has_edge g a b = true -> has_edge g b a = true) ->
  reach g x y -> reach g y x.
Proof.
  intros Hsym H. induction H as [|u w _ IH Hw]; [constructor|].
  apply (reach_trans g w u x); [|assumption].
  apply (reach_step g w w u); [constructor | now apply Hsym].
Qed.

Lemma closed_reach (g : Graph) (K : list vertex) (x y : vertex) :
  closed g K -> In x K -> reach g x y -> In y K.
Proof.
  intros Hc Hx H. induction H as [|u w _ IH Hw]; [assumption|].
  now apply (Hc u w).
Qed.

Lemma closed_app (g : Graph) (K1 K2 : list vertex) :
  closed g K1 -> closed g K2 -> closed g (K1 ++ K2).
Proof.
  intros H1 H2 x y Hx He. apply in_app_iff in Hx. apply in_app_iff.
  destruct Hx as [Hx|Hx]; [left; now apply (H1 x) | right; now apply (H2 x)].
Qed.

Lemma fresh_In (ws seen : list vertex) (w : vertex) :
  In w (fresh seen ws) <-> In w ws /\ ~ In w seen.
Proof.
  revert seen. induction ws as [|w0 ws IH]; intros seen; simpl; [tauto|].
  destruct (In_b w0 seen) eqn:E.
  - apply In_b_true in E. rewrite IH. split; [tauto|].
    intros [[->|H] Hn]; [contradiction | tauto].
  - apply In_b_false in E. simpl. rewrite IH. simpl. split.
    + intros [->|[H1 H2]]; [tauto|]. split; [tauto|]. intros H. apply H2. now right.
    + intros [[->|H] Hn]; [now left|].
      destruct (Nat.eq_dec w0 w) as [->|N]; [now left|]. right. split; [assumption|].
      intros [H1|H1]; contradiction.
Qed.

Lemma fresh_NoDup (ws seen : list vertex) : NoDup (fresh seen ws).
Proof.
  revert seen. induction ws as [|w0 ws IH]; intros seen; simpl; [constructor|].
  destruct (In_b w0 seen); [apply IH|].
  constructor; [|apply IH]. rewrite fresh_In. intros [_ H]. apply H. now left.
Qed.

Lemma NoDup_app_fresh (ws seen : list vertex) :
  NoDup seen -> NoDup (seen ++ fresh seen ws).
Proof.
  intros ND. apply NoDup_app; [assumption | apply fresh_NoDup |].
  intros x Hx Hf. apply fresh_In in Hf. tauto.
Qed.

Section Components.
Variable g : Graph.
Hypothesis Hwf : wf_graph g.

Lemma plain_bfs_spec (P : vertex -> Prop) :
  (forall x y, P x -> has_edge g x y = true -> P y) ->
  forall fuel seen queue,
    NoDup seen -> incl queue seen -> incl seen (nodes g) ->
    (forall x, In x seen -> ~ In x queue ->
               forall y, has_edge g x y = true -> In y seen) ->
    (forall x, In x seen -> P x) ->
    2 * (length (nodes g) - length seen) + length queue < fuel ->
    let r := plain_bfs fuel g seen queue in
    NoDup r /\ incl seen r /\ incl r (nodes g) /\ closed g r /\ (forall y, In y r -> P y).
Proof.
  intros HP. induction fuel as [|fuel IH]; intros seen queue ND Hq Hs Hc HPs Hm; [lia|].
  destruct queue as [|u q].
  - simpl. repeat split; auto using incl_refl.
    intros x y Hx He. apply (Hc x); auto.
  - simpl.
    set (new := fresh seen (map fst (adj g u))).
    assert (Hnew : forall w, In w new <-> has_edge g u w = true /\ ~ In w seen).
    { intros w. unfold new. rewrite fresh_In, has_edge_neighbors. tauto. }
    assert (ND' : NoDup (seen ++ new)) by now apply NoDup_app_fresh.
    assert (Hs' : incl (seen ++ new) (nodes g)).
    { apply incl_app; [assumption|]. intros w Hw. apply Hnew in Hw.
      destruct Hwf as [_ [_ [_ Hcl]]]. now apply (Hcl u w). }
    assert (Hu : In u seen) by (apply Hq; now left).
    assert (Hlen : length (seen ++ new) <= length (nodes g))
      by now apply NoDup_incl_length.
    rewrite length_app in Hlen.
    destruct (IH (seen ++ new) (q ++ new)) as [R1 [R2 [R3 [R4 R5]]]]; auto.
    + apply incl_app.
      * intros x Hx. apply in_app_iff. left. apply Hq. now right.
      * apply incl_appr, incl_refl.
    + intros x Hx Hnq y He. apply in_app_iff.
      rewrite in_app_iff in Hnq. apply in_app_iff in Hx.
      destruct Hx as [Hx|Hx]; [|tauto].
      destruct (Nat.eq_dec x u) as [->|N].
      * destruct (in_dec Nat.eq_dec y seen) as [Hy|Hy]; [now left|].
        right. apply Hnew. tauto.
      * left. apply (Hc x); auto. intros [E|Hin]; [congruence | tauto].
    + intros x Hx. apply in_app_iff in Hx. destruct Hx as [Hx|Hx]; [auto|].
      apply Hnew in Hx. apply (HP u); [auto | tauto].
    + rewrite !length_app. simpl in Hm. lia.
    + repeat split; auto. intros x Hx. apply R2. apply in_app_iff. now left.
Qed.

Lemma component_spec (v : vertex) :
  In v (nodes g) ->
  NoDup (component g v) /\ In v (component g v) /\ incl (component g v) (nodes g)
  /\ closed g (component g v) /\ (forall y, In y (component g v) -> reach g v y).
Proof.
  intros Hv. unfold component.
  assert (HP : forall x y, reach g v x -> has_edge g x y = true -> reach g v y).
  { intros x y Hx He. now apply (reach_step g v x y). }
  assert (H1 : NoDup [v]) by (repeat constructor; intros []).
  assert (H2 : incl [v] (nodes g)) by (intros x [<-|[]]; assumption).
  assert (H3 : forall x, In x [v] -> ~ In x [v] ->
                         forall y, has_edge g x y = true -> In y [v])
    by (intros x Hx Hn; contradiction).
  assert (H4 : forall x, In x [v] -> reach g v x) by (intros x [<-|[]]; constructor).
  assert (H5 : 2 * (length (nodes g) - length [v]) + length [v] < S (2 * length g)).
  { unfold nodes. rewrite length_map. simpl.
    destruct g; [contradiction | simpl; lia]. }
  destruct (plain_bfs_spec (reach g v) HP (S (2 * length g)) [v] [v]
              H1 (incl_refl _) H2 H3 H4 H5) as [R1 [R2 [R3 [R4 R5]]]].
  repeat split; auto. apply R2. now left.
Qed.

Lemma components_from_spec (vs seen : list vertex) :
  incl vs (nodes g) -> closed g seen -> NoDup seen -> incl seen (nodes g) ->
  let cs := components_from g vs seen in
  NoDup (seen ++ concat cs) /\ incl (concat cs) (nodes g)
  /\ (forall v, In v vs -> In v seen \/ In v (concat cs))
  /\ Forall (component_like g) cs.
Proof.
  revert seen. induction vs as [|v vs IH]; intros seen Hvs Hc ND Hs; simpl.
  - rewrite app_nil_r. repeat split; auto; try (intros x []); try constructor.
  - assert (Hvs' : incl vs (nodes g)) by (intros x Hx; apply Hvs; now right).
    destruct (In_b v seen) eqn:E.
    + apply In_b_true in E.
      destruct (IH seen Hvs' Hc ND Hs) as [R1 [R2 [R3 R4]]].
      repeat split; auto. intros x [<-|Hx]; auto.
    + apply In_b_false in E.
      destruct (component_spec v) as [C1 [C2 [C3 [C4 C5]]]]; [apply Hvs; now left|].
      assert (Hdisj : forall x, In x seen -> In x (component g v) -> False).
      { intros x Hx Hxc. apply E. apply (closed_reach g seen x v Hc Hx).
        apply reach_sym; [apply Hwf | now apply C5]. }
      destruct (IH (seen ++ component g v)) as [R1 [R2 [R3 R4]]]; auto.
      * now apply closed_app.
      * apply NoDup_app; auto.
      * now apply incl_app.
      * simpl. rewrite <- app_assoc in R1. repeat split; auto.
        -- now apply incl_app.
        -- intros x [<-|Hx].
           ++ right. apply in_app_iff. now left.
           ++ destruct (R3 x Hx) as [H|H].
              ** apply in_app_iff in H. destruct H as [H|H]; [now left|].
                 right. apply in_app_iff. now left.
              ** right. apply in_app_iff. now right.
        -- constructor; [|assumption]. split; [|split; [assumption|]].
           ++ intros Hnil. rewrite Hnil in C2. contradiction.
           ++ exists v. split; assumption.
Qed.

Lemma connected_components_spec :
  let cs := connected_components g in
  NoDup (concat cs)
  /\ (forall v, In v (nodes g) <-> In v (concat cs))
  /\ Forall (component_like g) cs.
Proof.
  unfold connected_components.
  destruct (components_from_spec (nodes g) []) as [R1 [R2 [R3 R4]]].
  - apply incl_refl.
  - intros x y [].
  - constructor.
  - intros x [].
  - simpl in R1. repeat split; auto.
    intros Hv. destruct (R3 v Hv) as [[]|H]. assumption.
Qed.

(** Two non-empty sets of vertices without an edge between them are not in
    one component. *)
Lemma components_split (A B : list vertex) :
  A <> [] -> B <> [] ->
  (forall v, In v (nodes g) <-> In v A \/ In v B) ->
  (forall x y, In x A -> In y B -> has_edge g x y = false) ->
  (forall v, In v A -> In v B -> False) ->
  1 < length (connected_components g).
Proof.
  intros HA HB Hcov Hno Hdisj.
  destruct connected_components_spec as [_ [Hall Hf]].
  destruct Hwf as [_ [_ [Hsym Hcl]]].
  destruct A as [|a A']; [congruence|]. destruct B as [|b B']; [congruence|].
  set (A := a :: A') in *. set (B := b :: B') in *.
  assert (Ha : In a A) by now left. assert (Hb : In b B) by now left.
  assert (stayA : forall x y, In x A -> reach g x y -> In y A).
  { intros x y Hx H. induction H as [|u w _ IH Hw]; [assumption|].
    assert (Hn : In w (nodes g)) by (apply Hcl in Hw; tauto).
    apply Hcov in Hn. destruct Hn as [Hn|Hn]; [assumption|].
    rewrite (Hno u w IH Hn) in Hw. discriminate. }
  assert (stayB : forall x y, In x B -> reach g x y -> In y B).
  { intros x y Hx H. induction H as [|u w _ IH Hw]; [assumption|].
    assert (Hn : In w (nodes g)) by (apply Hcl in Hw; tauto).
    apply Hcov in Hn. destruct Hn as [Hn|Hn]; [|assumption].
    apply Hsym in Hw. rewrite (Hno w u Hn IH) in Hw. discriminate. }
  destruct (connected_components g) as [|K [|K2 cs]] eqn:E.
  - exfalso. apply (Hall a). apply Hcov. now left.
  - exfalso. simpl in Hall. inversion Hf as [|? ? [_ [_ [v [Hv Hr]]]] _]. subst.
    assert (HaK : In a K).
    { specialize (Hall a). rewrite app_nil_r in Hall. apply Hall, Hcov. now left. }
    assert (HbK : In b K).
    { specialize (Hall b). rewrite app_nil_r in Hall. apply Hall, Hcov. now right. }
    assert (Hvn : In v A \/ In v B).
    { apply Hcov, Hall. rewrite app_nil_r. assumption. }
    destruct Hvn as [HvA|HvB].
    + apply (Hdisj b); [|assumption]. apply (stayA v b HvA). now apply Hr.
    + apply (Hdisj a); [assumption|]. apply (stayB v a HvB). now apply Hr.
  - simpl. lia.
Qed.

Lemma In_concat_length {X : Type} (cs : list (list X)) (K : list X) :
  In K cs -> length K <= length (concat cs).
Proof.
  induction cs as [|K1 cs IH]; simpl; [contradiction|].
  rewrite length_app. intros [->|H]; [lia|]. apply IH in H. lia.
Qed.

Lemma concat_length_lt {X : Type} (cs : list (list X)) (K : list X) :
  Forall (fun K => K <> []) cs -> 1 < length cs -> In K cs ->
  length K < length (concat cs).
Proof.
  intros Hf Hlen HK. destruct cs as [|K1 [|K2 cs]]; simpl in Hlen; try lia.
  inversion Hf as [|? ? H1 Hf']. inversion Hf' as [|? ? H2 _]. subst.
  simpl. rewrite !length_app.
  destruct K1; [congruence|]. destruct K2; [congruence|]. simpl.
  destruct HK as [<-|[<-|HK]]; simpl; try lia.
  apply In_concat_length in HK. lia.
Qed.

Lemma In_concat_NoDup {X : Type} (cs : list (list X)) (K : list X) :
  NoDup (concat cs) -> In K cs -> NoDup K.
Proof.
  induction cs as [|K1 cs IH]; simpl; [contradiction|].
  intros ND [->|H].
  - now apply NoDup_app_remove_r in ND.
  - apply IH; [|assumption]. now apply NoDup_app_remove_l in ND.
Qed.

Lemma component_smaller (K : list vertex) :
  1 < length (connected_components g) -> In K (connected_components g) ->
  length K < length (nodes g).
Proof.
  intros Hlen HK. destruct connected_components_spec as [ND [Hall Hf]].
  apply Nat.lt_le_trans with (length (concat (connected_components g))).
  - apply concat_length_lt; auto.
    eapply Forall_impl; [|exact Hf]. intros K' [H _]. exact H.
  - apply NoDup_incl_length; [assumption|]. intros x Hx. now apply Hall.
Qed.

Lemma component_facts (K : list vertex) :
  In K (connected_components g) ->
  NoDup K /\ incl K (nodes g) /\ closed g K /\ K <> [].
Proof.
  intros HK. destruct connected_components_spec as [ND [Hall Hf]].
  split; [now apply (In_concat_NoDup (connected_components g))|].
  split.
  - intros x Hx. apply Hall. apply in_concat. exists K. now split.
  - rewrite Forall_forall in Hf. destruct (Hf K HK) as [H1 [H2 _]]. now split.
Qed.

Lemma component_cover (v : vertex) :
  In v (nodes g) -> exists K, In K (connected_components g) /\ In v K.
Proof.
  intros Hv. destruct connected_components_spec as [_ [Hall _]].
  apply Hall in Hv. apply in_concat in Hv. destruct Hv as [K [H1 H2]].
  exists K. now split.
Qed.

End Components.

(* ================================================================== *)
(** ** The edit count *)
(* ================================================================== *)

Lemma n_edits_deletions (G H : Graph) : n_edits G H = n_deletions G H + n_deletions H G.
Proof. reflexivity. Qed.

(** C10. The edit count is symmetric: [n_edits G H = n_edits H G] for all
    graphs [G] and [H]; the deletions counted in one direction are the
    additions counted in the other. *)
Theorem n_edits_sym (G H : Graph) : n_edits G H = n_edits H G.
Proof.
  rewrite !n_edits_deletions. apply Nat.add_comm.
Qed.

Lemma norm_swap (x y : vertex) : norm (x, y) = norm (y, x).
Proof.
  unfold norm. simpl. destruct (x <=? y) eqn:E1, (y <=? x) eqn:E2; try reflexivity.
  - apply Nat.leb_le in E1, E2. f_equal; lia.
  - apply Nat.leb_gt in E1, E2. lia.
Qed.

Lemma norm_eq (e e' : vertex * vertex) :
  norm e = norm e' -> e = e' \/ e = (snd e', fst e').
Proof.
  destruct e as [a b], e' as [c d]. unfold norm. simpl.
  destruct (a <=? b), (c <=? d); intros E; inversion E; auto.
Qed.

Lemma NoDup_map_norm (l : list (vertex * vertex)) :
  NoDup l -> swap_free l -> NoDup (map norm l).
Proof.
  induction l as [|e l IH]; intros ND Hsw; simpl; [constructor|].
  inversion ND as [|? ? Hn ND']. subst. constructor.
  - intros H. apply in_map_iff in H. destruct H as [e' [E H]].
    apply norm_eq in E. destruct E as [-> | ->]; [contradiction|].
    destruct e as [c d]. simpl in *.
    assert (c = d) by (apply Hsw; [now left | now right]). subst. contradiction.
  - apply IH; [assumption|]. intros x y H1 H2. apply Hsw; now right.
Qed.

Lemma same_edges_length (l1 l2 : list (vertex * vertex)) :
  NoDup l1 -> NoDup l2 -> swap_free l1 -> swap_free l2 ->
  (forall x y, In (x, y) l1 -> In (x, y) l2 \/ In (y, x) l2) ->
  (forall x y, In (x, y) l2 -> In (x, y) l1 \/ In (y, x) l1) ->
  length l1 = length l2.
Proof.
  intros N1 N2 S1 S2 H12 H21.
  rewrite <- (length_map norm l1), <- (length_map norm l2).
  apply Permutation_length, NoDup_Permutation; try now apply NoDup_map_norm.
  intros p. rewrite !in_map_iff. split.
  - intros [[x y] [E H]]. destruct (H12 x y H) as [H'|H'].
    + exists (x, y). now split.
    + exists (y, x). split; [now rewrite norm_swap | assumption].
  - intros [[x y] [E H]]. destruct (H21 x y H) as [H'|H'].
    + exists (x, y). now split.
    + exists (y, x). split; [now rewrite norm_swap | assumption].
Qed.

Lemma filter_length_le {X : Type} (p q : X -> bool) (l : list X) :
  (forall x, In x l -> p x = true -> q x = true) ->
  length (filter p l) <= length (filter q l).
Proof.
  induction l as [|a l IH]; intros H; simpl; [lia|].
  assert (IH' : length (filter p l) <= length (filter q l)).
  { apply IH. intros x Hx. apply H. now right. }
  destruct (p a) eqn:Ep.
  - rewrite (H a (or_introl eq_refl) Ep). simpl. lia.
  - destruct (q a); simpl; lia.
Qed.

Lemma swap_free_filter (p : vertex * vertex -> bool) (l : list (vertex * vertex)) :
  swap_free l -> swap_free (filter p l).
Proof.
  intros H x y H1 H2. apply filter_In in H1, H2. apply H; tauto.
Qed.

(** Adding edges of [G] to [H] does not move the result away from [G]. *)
Lemma n_edits_readded (G H T : Graph) :
  wf_graph G -> wf_graph H -> wf_graph T ->
  (forall a b, has_edge H a b = true -> has_edge T a b = true) ->
  (forall a b, has_edge T a b = true -> has_edge H a b = true \/ has_edge G a b = true) ->
  n_edits G T <= n_edits G H.
Proof.
  intros HG HH HT I1 I2. unfold n_edits.
  assert (L1 : length (filter (fun e => negb (has_edge T (fst e) (snd e))) (edges G))
               <= length (filter (fun e => negb (has_edge H (fst e) (snd e))) (edges G))).
  { apply filter_length_le. intros [x y] _. simpl. rewrite !negb_true_iff.
    intros Hn. destruct (has_edge H x y) eqn:E; [|reflexivity].
    apply I1 in E. congruence. }
  assert (Gsym : forall a b, has_edge G a b = false -> has_edge G b a = false).
  { intros a b Hn. destruct (has_edge G b a) eqn:E; [|reflexivity].
    destruct HG as [_ [_ [HsG _]]]. apply HsG in E. congruence. }
  assert (L2 : length (filter (fun e => negb (has_edge G (fst e) (snd e))) (edges T))
               = length (filter (fun e => negb (has_edge G (fst e) (snd e))) (edges H))).
  { apply same_edges_length.
    - apply NoDup_filter. now apply edges_NoDup.
    - apply NoDup_filter. now apply edges_NoDup.
    - apply swap_free_filter. intros x y. now apply edges_oriented.
    - apply swap_free_filter. intros x y. now apply edges_oriented.
    - intros x y Hin. apply filter_In in Hin. destruct Hin as [Hin Hn]. simpl in Hn.
      apply negb_true_iff in Hn.
      apply edges_has_edge in Hin; [|apply HT].
      destruct (I2 x y Hin) as [He|He]; [|congruence].
      destruct (edges_complete H x y HH He) as [Hc|Hc]; [left | right];
        apply filter_In; split; auto; simpl; apply negb_true_iff; auto.
    - intros x y Hin. apply filter_In in Hin. destruct Hin as [Hin Hn]. simpl in Hn.
      apply negb_true_iff in Hn.
      apply edges_has_edge in Hin; [|apply HH].
      apply I1 in Hin.
      destruct (edges_complete T x y HT Hin) as [Hc|Hc]; [left | right];
        apply filter_In; split; auto; simpl; apply negb_true_iff; auto. }
  lia.
Qed.

(* ================================================================== *)
(** ** The triple rule *)
(* ================================================================== *)

(** C8. For every graph [G] and vertices [x], [y], [z] of [G],
    [is_triple G (x, y, z) R1 R2] returns, and returns [True] exactly when
    the rule of the specification holds: [z] adjacent to neither [x] nor
    [y], and R1 with [x-y] an edge, or R2 with [x-y] not an edge and a
    neighbour [n] of [x] with [n-y] an edge and [n-z] not an edge; or [z]
    adjacent to both, and R1 with [x-y] not an edge, or R2 with [x-y] an
    edge and a neighbour [n] of [z] adjacent to neither [x] nor [y]; and
    [False] when [z] is adjacent to exactly one of them. *)
Theorem is_triple_rule (G : Graph) (x y z : vertex) (R1 R2 : bool) :
  undirected G ->
  has_node G x = true -> has_node G y = true -> has_node G z = true ->
  exists b, is_triple G (x, y, z) R1 R2 = Ok b
            /\ (b = true <-> triple_rule G x y z R1 R2).
Proof.
  intros U Hx _ Hz. unfold is_triple, triple_rule.
  rewrite (neighbors_node G x Hx), (neighbors_node G z Hz). simpl.
  assert (Ezx : edge G z x <-> has_edge G x z = true) by (unfold edge; now rewrite U).
  assert (Ezy : edge G z y <-> has_edge G y z = true) by (unfold edge; now rewrite U).
  assert (N1 : existsb (fun n => has_edge G y n && negb (has_edge G z n))
                       (map fst (adj G x)) = true
               <-> exists n, edge G x n /\ edge G n y /\ ~ edge G n z).
  { rewrite existsb_neighbors. unfold edge.
    split; intros [n [H1 H2]]; exists n; split; try assumption.
    - apply andb_true_iff in H2. destruct H2 as [H2 H3].
      rewrite (U n y), (U n z), H2. apply negb_true_iff in H3. rewrite H3.
      split; congruence.
    - destruct H2 as [H2 H3]. rewrite (U y n), (U z n), H2.
      destruct (has_edge G n z); [contradiction | reflexivity]. }
  assert (N2 : existsb (fun n => negb (has_edge G x n) && negb (has_edge G y n))
                       (map fst (adj G z)) = true
               <-> exists n, edge G z n /\ ~ edge G n x /\ ~ edge G n y).
  { rewrite existsb_neighbors. unfold edge.
    split; intros [n [H1 H2]]; exists n; split; try assumption.
    - apply andb_true_iff in H2. destruct H2 as [H2 H3].
      apply negb_true_iff in H2, H3. rewrite (U n x), (U n y), H2, H3.
      split; congruence.
    - destruct H2 as [H2 H3]. rewrite (U x n), (U y n).
      destruct (has_edge G n x); [contradiction|].
      destruct (has_edge G n y); [contradiction | reflexivity]. }
  assert (Exy : edge G x y <-> has_edge G x y = true) by reflexivity.
  destruct (has_edge G x z), (has_edge G y z), (has_edge G x y), R1, R2; simpl;
    eexists; (split; [reflexivity|]);
    rewrite ?N1, ?N2;
    intuition (try congruence; try discriminate).
Qed.

Lemma P4_undirected : undirected P4.
Proof.
  intros a b. unfold has_edge.
  do 5 (destruct a as [|a]; [do 5 (destruct b as [|b]; [reflexivity|]); reflexivity|]).
  simpl. do 5 (destruct b as [|b]; [reflexivity|]). reflexivity.
Qed.

Lemma is_triple_rule_witness :
  exists b, is_triple P4 (1, 2, 4) true true = Ok b
            /\ (b = true <-> triple_rule P4 1 2 4 true true).
Proof.
  apply (is_triple_rule P4 1 2 4 true true P4_undirected);
    reflexivity.
Defined.

(* ================================================================== *)
(** ** The toggles R1 and R2 *)
(* ================================================================== *)

Lemma is_triple_no_rule (G : Graph) (t : vertex * vertex * vertex) :
  is_triple G t false false = Ok false.
Proof.
  destruct t as [[x y] z]. unfold is_triple. simpl.
  destruct (has_edge G y z), (has_edge G x z); reflexivity.
Qed.

Lemma record_triple_no_rule (G : Graph) (vi vj : vertex) (T : triples) (v : vertex) :
  record_triple G false false vi vj T v = Ok T.
Proof.
  unfold record_triple. rewrite is_triple_no_rule. simpl.
  destruct (negb (Nat.eqb v vi) && negb (Nat.eqb v vj)); reflexivity.
Qed.

(** C7, as amended. With both R1 and R2 off nothing is rejected: for every
    graph, triple extraction returns, and returns the empty triple set, so
    that the pipelines run on no triples. *)
Theorem get_triples_no_rule (G : Graph) : get_triples G false false = Ok [].
Proof.
  unfold get_triples.
  apply for_each_skip. intros i _.
  apply for_each_skip. intros j _.
  apply for_each_skip. intros v _.
  apply record_triple_no_rule.
Qed.

(** C7, as stated, fails on the path 1-2-3-4: with both toggles off, triple
    extraction and the four pipelines return instead of raising
    InvalidConfiguration. *)
Lemma no_configuration_check :
  ~ rejects_configuration (get_triples P4 false false)
  /\ ~ rejects_configuration
       (direct_graph_cut (example_oracles no_shuffle) P4 false false false true)
  /\ ~ rejects_configuration
       (minimal_graph_cut (example_oracles no_shuffle) P4 1 false false false true)
  /\ ~ rejects_configuration
       (min_cut_edit (example_oracles no_shuffle) P4 false false false)
  /\ ~ rejects_configuration
       (minimal_min_cut_edit (example_oracles no_shuffle) P4 1 false false false).
Proof.
  unfold rejects_configuration. repeat split; vm_compute; discriminate.
Qed.

(* ================================================================== *)
(** ** The triples of a graph *)
(* ================================================================== *)

(** [get_triples] returns on every graph, with keys and witnesses among the
    vertices. *)

Lemma is_triple_returns (G : Graph) (x y z : vertex) (R1 R2 : bool) :
  has_node G x = true -> has_node G z = true ->
  returns (is_triple G (x, y, z) R1 R2).
Proof.
  intros Hx Hz. unfold is_triple.
  rewrite (neighbors_node G x Hx), (neighbors_node G z Hz). simpl.
  repeat match goal with
         | |- context [if ?c then _ else _] => destruct c
         end; eexists; reflexivity.
Qed.

Section GetTriples.
Variable G : Graph.
Variables R1 R2 : bool.

Lemma wit_set (T : triples) (k k' : vertex * vertex) (zs : list vertex) :
  wit (Dict.set pair_eqb k zs T) k' = if pair_eqb k' k then zs else wit T k'.
Proof.
  unfold wit. destruct (pair_eqb k' k) eqn:E.
  - apply pair_eqb_eq in E. subst. now rewrite (get_set_same _ _ pair_eqb_eq).
  - apply pair_eqb_neq in E. now rewrite (get_set_other _ _ pair_eqb_eq).
Qed.

Lemma record_triple_inv (i j : nat) (T : triples) (v : vertex) :
  i < j -> j < length (nodes G) -> In v (nodes G) -> triples_inv G T ->
  exists T', record_triple G R1 R2 (nth i (nodes G) 0) (nth j (nodes G) 0) T v = Ok T'
             /\ triples_inv G T'.
Proof.
  intros Hij Hj Hv [ND [Hk Hw]]. unfold record_triple.
  set (vi := nth i (nodes G) 0). set (vj := nth j (nodes G) 0).
  destruct (negb (Nat.eqb v vi) && negb (Nat.eqb v vj)).
  2: { exists T. split; [reflexivity|]. now split. }
  assert (Hvi : has_node G vi = true).
  { apply In_b_true. apply nth_In. lia. }
  assert (Hvn : has_node G v = true) by now apply In_b_true.
  destruct (is_triple_returns G vi vj v R1 R2 Hvi Hvn) as [b Eb]. rewrite Eb.
  cbn [bind]. destruct b.
  2: { exists T. split; [reflexivity|]. now split. }
  destruct (Dict.get pair_eqb (vi, vj) T) as [zs|] eqn:Eg.
  - eexists. split; [reflexivity|].
    assert (Hin : In (vi, vj) (keys_of T)).
    { apply (get_In _ _ pair_eqb_eq) in Eg. apply (in_map fst) in Eg. exact Eg. }
    assert (Ek : keys_of (Dict.set pair_eqb (vi, vj) (zs ++ [v]) T) = keys_of T)
      by now apply (keys_set_present _ _ pair_eqb_eq).
    split; [now rewrite Ek|]. split; [now rewrite Ek|].
    intros k z. rewrite wit_set. destruct (pair_eqb k (vi, vj)) eqn:E.
    + apply pair_eqb_eq in E. subst k. rewrite in_app_iff. intros [Hz|[<-|[]]]; auto.
      apply (Hw (vi, vj)). unfold wit. now rewrite Eg.
    + apply Hw.
  - eexists. split; [reflexivity|].
    assert (Hnin : ~ In (vi, vj) (keys_of T)) by now apply (get_None _ _ pair_eqb_eq).
    assert (Ek : keys_of (Dict.set pair_eqb (vi, vj) [v] T) = keys_of T ++ [(vi, vj)])
      by now apply (keys_set_absent _ _ pair_eqb_eq).
    split; [|split].
    + rewrite Ek. apply NoDup_app; auto.
      * repeat constructor. intros [].
      * intros k H1 [<-|[]]. contradiction.
    + intros k. rewrite Ek, in_app_iff. intros [H|[<-|[]]]; [now apply Hk|].
      exists i, j. auto.
    + intros k z. rewrite wit_set. destruct (pair_eqb k (vi, vj)).
      * intros [<-|[]]. assumption.
      * apply Hw.
Qed.

Lemma get_triples_inv : exists T, get_triples G R1 R2 = Ok T /\ triples_inv G T.
Proof.
  unfold get_triples. cbv zeta.
  apply (for_each_invariant (triples_inv G)).
  - intros T i Hi HT. apply in_seq in Hi.
    apply (for_each_invariant (triples_inv G)); [|assumption].
    intros T' j Hj HT'. apply in_seq in Hj.
    apply (for_each_invariant (triples_inv G)); [|assumption].
    intros T'' v Hv HT''.
    apply (record_triple_inv i j T'' v); try lia; assumption.
  - split; [constructor|]. split; [intros k []|]. intros k z [].
Qed.

Lemma triples_inv_canonical (T : triples) :
  NoDup (nodes G) -> triples_inv G T -> canonical T /\ witnesses_in T (nodes G).
Proof.
  intros NG [ND [Hk Hw]]. split; [split; [assumption|]|].
  - intros x y H1 H2.
    destruct (Hk _ H1) as [i [j [Hij [Hj E1]]]].
    destruct (Hk _ H2) as [i' [j' [Hij' [Hj' E2]]]].
    inversion E1. inversion E2. subst.
    pose proof (proj1 (NoDup_nth (nodes G) 0) NG) as NG'.
    assert (j = i') by (apply NG'; try lia; assumption).
    assert (i = j') by (apply NG'; try lia; assumption).
    exfalso. lia.
  - intros x y z _ _. apply Hw.
Qed.

End GetTriples.

(* ================================================================== *)
(** ** min_cut_edit on fewer than three vertices *)
(* ================================================================== *)

Lemma get_triples_two (a b : vertex) (xa xb : adjacency) (R1 R2 : bool) :
  get_triples [(a, xa); (b, xb)] R1 R2 = Ok [].
Proof.
  unfold get_triples. simpl. unfold record_triple.
  rewrite !Nat.eqb_refl. simpl. rewrite andb_false_r. reflexivity.
Qed.

(** C9, as amended. On a graph with fewer than three vertices,
    [min_cut_edit] raises exactly when the graph has one vertex (the base
    case [len(L) == 1] of BUILD_cograph reads [L[0]] in the node view);
    with no vertex or two vertices it returns a graph. *)
Theorem min_cut_edit_small (O : Oracles) (G : Graph) (half_cut R1 R2 : bool) :
  length (nodes G) < 3 ->
  if length (nodes G) =? 1
  then raises (min_cut_edit O G half_cut R1 R2)
  else returns (min_cut_edit O G half_cut R1 R2).
Proof.
  intros Hlen.
  destruct G as [|[a xa] [|[b xb] [|c G]]]; simpl in Hlen; try lia.
  - simpl. eexists. reflexivity.
  - simpl. unfold min_cut_edit. 
    change (get_triples [(a, xa)] R1 R2) with (Ok (@nil ((vertex * vertex) * list vertex))).
    unfold min_cut_split, BUILD_cograph. simpl. unfold has_node. simpl.
    destruct a; simpl; eexists; reflexivity.
  - simpl. unfold min_cut_edit. rewrite get_triples_two.
    unfold min_cut_split, BUILD_cograph. simpl.
    match goal with |- returns (if ?c then _ else _) => destruct c end;
      eexists; reflexivity.
Qed.

Lemma min_cut_edit_small_witness :
  raises (min_cut_edit (example_oracles no_shuffle) [(7, [])] false true true).
Proof.
  apply (min_cut_edit_small (example_oracles no_shuffle) [(7, [])] false true true).
  simpl. lia.
Defined.

(** C9, as stated, fails on the graph with the single edge 0-1: it has
    fewer than three vertices and [min_cut_edit] returns it. *)
Lemma min_cut_edit_two_vertices :
  length (nodes (path_graph 2 0)) < 3
  /\ min_cut_edit (example_oracles no_shuffle) (path_graph 2 0) false true true
     = Ok (path_graph 2 0).
Proof.
  split; [simpl; lia | reflexivity].
Qed.

(* ================================================================== *)
(** ** direct_graph_cut on a disconnected graph *)
(* ================================================================== *)

(** When the graph is not a cograph and has more than one component, the
    graph that is returned is the empty graph [Gnew]: the loop over the
    components assigns [G_new]. *)
Lemma direct_graph_cut_rec_disconnected (fuel : nat) (O : Oracles) (G : Graph)
  (half_cut R1 R2 init : bool) (M : Graph) :
  recognition O G = false ->
  1 < length (connected_components (copy G)) ->
  direct_graph_cut_rec fuel O G half_cut R1 R2 init = Ok M ->
  M = empty.
Proof.
  intros Hrec Hcomps. destruct fuel as [|fuel]; simpl; [discriminate|].
  rewrite Hrec. apply Nat.ltb_lt in Hcomps. rewrite Hcomps.
  destruct (if init then _ else _) as [G'| |]; simpl; try discriminate.
  destruct (for_each _ _ _); simpl; try discriminate.
  intros E. now inversion E.
Qed.

(** C3, on the code: the path 1-2-3-4 with the isolated vertex 5 is not a
    cograph and is disconnected, and [direct_graph_cut] returns the graph
    with no vertex, where the claim says the vertex set of the input and
    the union of the results on the components. *)
Theorem direct_graph_cut_loses_components :
  p4_free P4_and_vertex = false
  /\ connected_components P4_and_vertex = [[1; 2; 3; 4]; [5]]
  /\ direct_graph_cut (example_oracles no_shuffle) P4_and_vertex false true true true
     = Ok empty
  /\ nodes P4_and_vertex = [1; 2; 3; 4; 5].
Proof.
  repeat split.
Qed.

(* ================================================================== *)
(** ** Pruning a triple set *)
(* ================================================================== *)

(** What the loop over the cut of [min_cut_split] does to the triple set. *)

Lemma pruned_refl (R : triples) : pruned R R.
Proof. repeat split; auto using incl_refl. Qed.

Lemma pruned_trans (R1 R2 R3 : triples) : pruned R1 R2 -> pruned R2 R3 -> pruned R1 R3.
Proof.
  intros [A1 [B1 C1]] [A2 [B2 C2]]. repeat split.
  - eapply incl_tran; eassumption.
  - auto.
  - intros k. eapply incl_tran; [apply C1 | apply C2].
Qed.

Lemma pruned_canonical (R' R : triples) : pruned R' R -> canonical R -> canonical R'.
Proof.
  intros [A1 [B1 _]] [ND Ho]. split; [auto|].
  intros x y H1 H2. apply Ho; now apply A1.
Qed.

Lemma wit_key (R : triples) (k : vertex * vertex) :
  wit R k <> [] -> In k (keys_of R).
Proof.
  unfold wit. destruct (Dict.get pair_eqb k R) eqn:E; [|congruence].
  intros _. apply (get_In _ _ pair_eqb_eq) in E. apply (in_map fst) in E. exact E.
Qed.

Lemma wit_not_key (R : triples) (k : vertex * vertex) :
  ~ In k (keys_of R) -> wit R k = [].
Proof.
  intros H. destruct (wit R k) eqn:E; [reflexivity|].
  exfalso. apply H. apply wit_key. congruence.
Qed.

Lemma prune_pair_spec (CG : Graph) (R : triples) (k : vertex * vertex) (zs : list vertex) :
  NoDup (keys_of R) -> Dict.get pair_eqb k R = Some zs ->
  exists R', prune_pair CG R k = Ok R' /\ pruned R' R
             /\ wit R' k = filter (fun z => negb (has_node CG z)) zs
             /\ forall k', k' <> k -> wit R' k' = wit R k'.
Proof.
  intros ND E. unfold prune_pair. rewrite E.
  set (kept := filter (fun z => negb (has_node CG z)) zs).
  assert (Hk : In k (keys_of R)).
  { apply (get_In _ _ pair_eqb_eq) in E. apply (in_map fst) in E. exact E. }
  assert (Ek : keys_of (Dict.set pair_eqb k kept R) = keys_of R)
    by now apply (keys_set_present _ _ pair_eqb_eq).
  assert (Hsub : incl kept zs) by (intros z Hz; apply filter_In in Hz; tauto).
  destruct (length kept =? 0) eqn:El.
  - apply Nat.eqb_eq in El. eexists. split; [reflexivity|].
    assert (ND' : NoDup (keys_of (Dict.set pair_eqb k kept R))) by now rewrite Ek.
    split; [|split].
    + split; [|split].
      * rewrite <- Ek. apply (keys_remove_incl _ pair_eqb).
      * intros _. now apply (keys_remove_NoDup _ pair_eqb).
      * intros k'. unfold wit. destruct (pair_eqb k' k) eqn:Ekk.
        -- apply pair_eqb_eq in Ekk. subst k'.
           rewrite (get_remove_same _ _ pair_eqb_eq _ _ _ ND'). intros z [].
        -- apply pair_eqb_neq in Ekk.
           rewrite (get_remove_other _ _ pair_eqb_eq), (get_set_other _ _ pair_eqb_eq);
             auto using incl_refl.
    + unfold wit. rewrite (get_remove_same _ _ pair_eqb_eq _ _ _ ND').
      destruct kept; [reflexivity | discriminate].
    + intros k' N. unfold wit.
      now rewrite (get_remove_other _ _ pair_eqb_eq), (get_set_other _ _ pair_eqb_eq).
  - eexists. split; [reflexivity|]. split; [|split].
    + split; [|split].
      * rewrite Ek. apply incl_refl.
      * now rewrite Ek.
      * intros k'. unfold wit. destruct (pair_eqb k' k) eqn:Ekk.
        -- apply pair_eqb_eq in Ekk. subst k'.
           now rewrite (get_set_same _ _ pair_eqb_eq), E.
        -- apply pair_eqb_neq in Ekk.
           rewrite (get_set_other _ _ pair_eqb_eq); auto using incl_refl.
    + unfold wit. now rewrite (get_set_same _ _ pair_eqb_eq).
    + intros k' N. unfold wit. now rewrite (get_set_other _ _ pair_eqb_eq).
Qed.

Lemma prune_cut_edge_spec (CG : Graph) (R : triples) (x y : vertex) :
  canonical R -> wit R (x, y) <> [] \/ wit R (y, x) <> [] ->
  exists R', prune_cut_edge CG R (x, y) = Ok R' /\ pruned R' R
             /\ (forall z, In z (wit R' (x, y)) \/ In z (wit R' (y, x)) ->
                           has_node CG z = false)
             /\ forall k', k' <> (x, y) -> k' <> (y, x) -> wit R' k' = wit R k'.
Proof.
  intros [ND Ho] Hw. unfold prune_cut_edge.
  assert (Hfil : forall zs z, In z (filter (fun z => negb (has_node CG z)) zs) ->
                              has_node CG z = false).
  { intros zs z Hz. apply filter_In in Hz. now apply negb_true_iff. }
  destruct (Dict.mem pair_eqb (x, y) R) eqn:Em.
  - unfold Dict.mem in Em.
    destruct (Dict.get pair_eqb (x, y) R) as [zs|] eqn:E; [|discriminate].
    destruct (prune_pair_spec CG R (x, y) zs ND E) as [R' [H1 [H2 [H3 H4]]]].
    exists R'. split; [assumption|]. split; [assumption|]. split; [|auto].
    intros z [Hz|Hz].
    + rewrite H3 in Hz. now apply (Hfil zs).
    + destruct (pair_eqb (y, x) (x, y)) eqn:Es.
      * apply pair_eqb_eq in Es. rewrite Es, H3 in Hz. now apply (Hfil zs).
      * apply pair_eqb_neq in Es. rewrite (H4 _ Es) in Hz.
        assert (Hk : In (y, x) (keys_of R)) by (apply wit_key; intros C; now rewrite C in Hz).
        assert (Hk' : In (x, y) (keys_of R)).
        { apply (get_In _ _ pair_eqb_eq) in E. apply (in_map fst) in E. exact E. }
        exfalso. apply Es. now rewrite (Ho x y Hk' Hk).
  - assert (Hn : wit R (x, y) = []).
    { unfold wit. unfold Dict.mem in Em.
      destruct (Dict.get pair_eqb (x, y) R); [discriminate | reflexivity]. }
    destruct Hw as [Hw|Hw]; [congruence|].
    unfold wit in Hw. destruct (Dict.get pair_eqb (y, x) R) as [zs|] eqn:E; [|congruence].
    destruct (prune_pair_spec CG R (y, x) zs ND E) as [R' [H1 [H2 [H3 H4]]]].
    exists R'. split; [assumption|]. split; [assumption|]. split; [|auto].
    intros z [Hz|Hz].
    + destruct (pair_eqb (x, y) (y, x)) eqn:Es.
      * apply pair_eqb_eq in Es. rewrite Es, H3 in Hz. now apply (Hfil zs).
      * apply pair_eqb_neq in Es. rewrite (H4 _ Es), Hn in Hz. contradiction.
    + rewrite H3 in Hz. now apply (Hfil zs).
Qed.

Lemma prune_loop_spec (CG : Graph) (cut : list (vertex * vertex)) (R : triples) :
  canonical R -> NoDup cut ->
  (forall x y, In (x, y) cut -> In (y, x) cut -> x = y) ->
  (forall x y, In (x, y) cut -> wit R (x, y) <> [] \/ wit R (y, x) <> []) ->
  exists R', for_each cut (prune_cut_edge CG) R = Ok R' /\ pruned R' R
             /\ forall x y z, In (x, y) cut ->
                              In z (wit R' (x, y)) \/ In z (wit R' (y, x)) ->
                              has_node CG z = false.
Proof.
  revert R. induction cut as [|[x y] cut IH]; intros R Hc ND Ho Hw.
  - exists R. split; [reflexivity|]. split; [apply pruned_refl|]. intros x y z [].
  - inversion ND as [|? ? Hn ND']. subst.
    destruct (prune_cut_edge_spec CG R x y Hc) as [R1 [E1 [P1 [Z1 K1]]]].
    { apply Hw. now left. }
    assert (Hneq : forall x' y', In (x', y') cut -> (x', y') <> (x, y) /\ (x', y') <> (y, x)).
    { intros x' y' Hin. split; intros E; inversion E; subst.
      - contradiction.
      - assert (x = y) by (apply Ho; [now left | now right]). subst. contradiction. }
    destruct (IH R1) as [R' [E2 [P2 Z2]]].
    + now apply (pruned_canonical R1 R).
    + assumption.
    + intros x' y' H1 H2. apply Ho; now right.
    + intros x' y' Hin. destruct (Hneq x' y' Hin) as [N1 N2].
      assert (E1' : wit R1 (x', y') = wit R (x', y')) by (apply K1; assumption).
      assert (E2' : wit R1 (y', x') = wit R (y', x')).
      { apply K1; intros E; inversion E; subst; [now apply N2 | now apply N1]. }
      rewrite E1', E2'. apply Hw. now right.
    + exists R'. cbn [for_each]. rewrite E1. cbn [bind]. split; [assumption|].
      split; [now apply (pruned_trans R' R1 R)|].
      intros x' y' z [E|Hin] Hz.
      * inversion E. subst. apply Z1. destruct P2 as [_ [_ P2]].
        destruct Hz as [Hz|Hz]; [left | right]; now apply P2.
      * now apply (Z2 x' y' z).
Qed.

(* ================================================================== *)
(** ** Separation *)
(* ================================================================== *)

(** The invariant of [min_cut_split]: every set of three leaves or more
    splits in two parts with no triple across them. *)

Lemma separated_pruned (R' R : triples) (C : list vertex) :
  pruned R' R -> separated R C -> separated R' C.
Proof.
  intros [_ [_ P]] [A [B [H1 [H2 [H3 [H4 H5]]]]]].
  exists A, B. do 4 (split; [assumption|]).
  intros x y z Hx Hy Hz. destruct (H5 x y z Hx Hy Hz) as [N1 N2].
  split; intros Hw; apply P in Hw; contradiction.
Qed.

Lemma consistent_pruned (R' R : triples) (M : list vertex) :
  pruned R' R -> consistent_on R M -> consistent_on R' M.
Proof.
  intros P H C H1 H2 H3. apply (separated_pruned R' R); auto.
Qed.

Lemma consistent_incl (R : triples) (M M' : list vertex) :
  incl M' M -> consistent_on R M -> consistent_on R M'.
Proof.
  intros Hi H C H1 H2 H3. apply H; auto. eapply incl_tran; eassumption.
Qed.

Lemma consistent_small (R : triples) (M : list vertex) :
  length M < 3 -> consistent_on R M.
Proof.
  intros Hl C ND Hi H3. apply (NoDup_incl_length ND) in Hi. lia.
Qed.

Lemma bipartition_length (V V1 V2 : list vertex) :
  NoDup V -> bipartition V V1 V2 -> length V1 + length V2 = length V.
Proof.
  intros ND [_ [_ [N1 [N2 [Hc Hd]]]]]. rewrite <- length_app.
  apply Permutation_length. apply NoDup_Permutation; auto.
  - apply NoDup_app; auto.
  - intros x. rewrite in_app_iff. symmetry. apply Hc.
Qed.

Lemma bipartition_smaller (V V1 V2 : list vertex) :
  NoDup V -> bipartition V V1 V2 -> length V1 < length V /\ length V2 < length V.
Proof.
  intros ND H. pose proof (bipartition_length V V1 V2 ND H) as E.
  destruct H as [H1 [H2 _]].
  destruct V1; [congruence|]. destruct V2; [congruence|]. simpl in *. lia.
Qed.

Lemma forallb_false_ex {X : Type} (p : X -> bool) (l : list X) :
  forallb p l = false -> exists x, In x l /\ p x = false.
Proof.
  induction l as [|a l IH]; simpl; [discriminate|].
  destruct (p a) eqn:E; simpl.
  - intros H. destruct (IH H) as [x [H1 H2]]. exists x. split; [now right | assumption].
  - intros _. exists a. split; [now left | assumption].
Qed.

Lemma map_pair_eta (R : triples) : map (fun kv => (fst kv, snd kv)) R = R.
Proof.
  induction R as [|[k zs] R IH]; simpl; [reflexivity | now rewrite IH].
Qed.

Lemma wit_In_nonempty (R : triples) (k : vertex * vertex) (z : vertex) :
  In z (wit R k) -> wit R k <> [].
Proof. intros H E. now rewrite E in H. Qed.

(** Splitting a set along one component of the constraint graph. *)
Lemma separated_by_component (R' R : triples) (M K C : list vertex) (c0 c1 : vertex) :
  NoDup (keys_of R) -> pruned R' R ->
  closed (comp_graph R M) K ->
  incl C M -> In c0 C -> In c0 K -> In c1 C -> ~ In c1 K ->
  separated R' C.
Proof.
  intros ND [_ [_ P]] Hcl Hi H0 H0K H1 H1K.
  exists (filter (fun c => In_b c K) C), (filter (fun c => negb (In_b c K)) C).
  assert (Hcross : forall x y, In x K -> In x M -> In y M -> ~ In y K ->
                               wit R (x, y) = [] /\ wit R (y, x) = []).
  { intros x y HxK HxM HyM HyK.
    assert (Hne : has_edge (comp_graph R M) x y <> true).
    { intros He. apply HyK. now apply (Hcl x y). }
    rewrite (comp_graph_has_edge R M x y ND) in Hne.
    destruct (wit R (x, y)) eqn:E1, (wit R (y, x)) eqn:E2; split; auto;
      exfalso; apply Hne; repeat split; auto; try (left; congruence);
      right; congruence. }
  split; [|split; [|split; [|split]]].
  - intros E. assert (H : In c0 (filter (fun c => In_b c K) C)).
    { apply filter_In. split; [assumption | now apply In_b_true]. }
    now rewrite E in H.
  - intros E. assert (H : In c1 (filter (fun c => negb (In_b c K)) C)).
    { apply filter_In. split; [assumption|]. apply negb_true_iff. now apply In_b_false. }
    now rewrite E in H.
  - intros v. rewrite !filter_In. destruct (In_b v K); simpl; intuition congruence.
  - intros v Ha Hb. apply filter_In in Ha, Hb. destruct Ha as [_ Ha], Hb as [_ Hb].
    rewrite Ha in Hb. discriminate.
  - intros x y z Hx Hy Hz. apply filter_In in Hx, Hy.
    destruct Hx as [HxC HxK], Hy as [HyC HyK].
    apply In_b_true in HxK. apply negb_true_iff, In_b_false in HyK.
    destruct (Hcross x y HxK (Hi x HxC) (Hi y HyC) HyK) as [E1 E2].
    split; intros Hw; apply P in Hw; [rewrite E1 in Hw | rewrite E2 in Hw]; contradiction.
Qed.

Lemma for_each_components (body : triples -> list vertex -> outcome triples)
  (cs : list (list vertex)) :
  (forall R K, In K cs -> canonical R ->
               exists R', body R K = Ok R' /\ pruned R' R /\ consistent_on R' K) ->
  forall R0, canonical R0 ->
             exists R', for_each cs body R0 = Ok R' /\ pruned R' R0
                        /\ forall K, In K cs -> consistent_on R' K.
Proof.
  induction cs as [|K cs IH]; intros Hb R0 Hc.
  - exists R0. split; [reflexivity|]. split; [apply pruned_refl|]. intros K [].
  - destruct (Hb R0 K (or_introl eq_refl) Hc) as [R1 [E1 [P1 C1]]].
    destruct (IH (fun R K' H => Hb R K' (or_intror H)) R1) as [R' [E2 [P2 C2]]].
    { now apply (pruned_canonical R1 R0). }
    exists R'. cbn [for_each]. rewrite E1. cbn [bind].
    split; [assumption|]. split; [now apply (pruned_trans R' R1 R0)|].
    intros K' [<-|H]; [|now apply C2].
    now apply (consistent_pruned R' R1).
Qed.

Lemma min_cut_split_rec_S (fuel : nat) (O : Oracles) (R : triples) (L : list vertex)
  (half_cut init : bool) :
  min_cut_split_rec (S fuel) O R L half_cut init
  = if length L <? 3 then Ok R
    else
      let R := if init then map (fun kv => (fst kv, snd kv)) R else R in
      let CG := comp_graph R L in
      let comps := connected_components CG in
      if 1 <? length comps then
        for_each comps
          (fun R comp => min_cut_split_rec fuel O R comp half_cut false) R
      else
        ' (V1, V2) <- (if half_cut then Ok (kernighan_lin_bisection O CG)
                       else nx_stoer_wagner O CG) ;;
        let cut :=
          filter (fun e => (In_b (fst e) V1 && In_b (snd e) V2)
                           || (In_b (fst e) V2 && In_b (snd e) V1))
                 (edges CG) in
        R <- for_each cut (prune_cut_edge CG) R ;;
        R <- (if 2 <? length V1 then min_cut_split_rec fuel O R V1 half_cut false
              else Ok R) ;;
        R <- (if 2 <? length V2 then min_cut_split_rec fuel O R V2 half_cut false
              else Ok R) ;;
        Ok R.
Proof. reflexivity. Qed.

(* ================================================================== *)
(** ** min_cut_split *)
(* ================================================================== *)

(** [min_cut_split] returns a pruned triple set on which every set of three
    leaves or more can be separated. *)

(** Splitting a set along the two sides of a cut whose pairs were pruned. *)
Lemma separated_by_cut (R' R1 R : triples) (M V1 V2 C : list vertex) :
  canonical R -> NoDup M -> pruned R1 R -> pruned R' R1 ->
  bipartition M V1 V2 ->
  (forall x y z,
      In (x, y) (filter (fun e => (In_b (fst e) V1 && In_b (snd e) V2)
                                  || (In_b (fst e) V2 && In_b (snd e) V1))
                        (edges (comp_graph R M))) ->
      In z (wit R1 (x, y)) \/ In z (wit R1 (y, x)) ->
      has_node (comp_graph R M) z = false) ->
  incl C M -> ~ incl C V1 -> ~ incl C V2 ->
  separated R' C.
Proof.
  intros [ND Ho] NM [_ [_ P1]] [_ [_ P']] [_ [_ [_ [_ [Hcov Hdis]]]]] Hz Hi HnA HnB.
  pose proof (comp_graph_wf R M ND NM) as Hwf.
  exists (filter (fun c => In_b c V1) C), (filter (fun c => In_b c V2) C).
  assert (Hside : forall c, In c C -> In_b c V1 = negb (In_b c V2)).
  { intros c Hc. apply Hi, Hcov in Hc.
    destruct (In_b c V1) eqn:E1, (In_b c V2) eqn:E2; auto.
    - apply In_b_true in E1, E2. exfalso. now apply (Hdis c).
    - apply In_b_false in E1, E2. tauto. }
  split; [|split; [|split; [|split]]].
  - intros E. apply HnB. intros c Hc. apply In_b_true.
    destruct (In_b c V2) eqn:E2; [reflexivity|]. exfalso.
    assert (H : In c (filter (fun c => In_b c V1) C)).
    { apply filter_In. split; [assumption|]. rewrite (Hside c Hc), E2. reflexivity. }
    now rewrite E in H.
  - intros E. apply HnA. intros c Hc. apply In_b_true.
    destruct (In_b c V1) eqn:E1; [reflexivity|]. exfalso.
    assert (H : In c (filter (fun c => In_b c V2) C)).
    { apply filter_In. split; [assumption|].
      pose proof (Hside c Hc) as Hs. rewrite E1 in Hs.
      destruct (In_b c V2); [reflexivity | discriminate]. }
    now rewrite E in H.
  - intros v. rewrite !filter_In. split.
    + intros Hv. pose proof (Hside v Hv) as Hs.
      destruct (In_b v V1), (In_b v V2); simpl in Hs; try discriminate; tauto.
    + tauto.
  - intros v Ha Hb. apply filter_In in Ha, Hb.
    destruct Ha as [_ Ha], Hb as [_ Hb]. apply In_b_true in Ha, Hb. now apply (Hdis v).
  - intros x y z Hx Hy HzC. apply filter_In in Hx, Hy.
    destruct Hx as [HxC Hx1], Hy as [HyC Hy2].
    assert (HzM : has_node (comp_graph R M) z = true).
    { unfold has_node. rewrite (comp_graph_nodes R M NM). apply In_b_true. now apply Hi. }
    assert (Hgen : In z (wit R' (x, y)) \/ In z (wit R' (y, x)) -> False).
    { intros Hw.
      assert (Hw1 : In z (wit R1 (x, y)) \/ In z (wit R1 (y, x))).
      { destruct Hw as [Hw|Hw]; [left | right]; now apply P'. }
      assert (He : has_edge (comp_graph R M) x y = true).
      { apply (comp_graph_has_edge R M x y ND). split; [now apply Hi|].
        split; [now apply Hi|].
        destruct Hw1 as [Hw1|Hw1]; [left | right];
          apply (wit_In_nonempty R _ z); now apply P1. }
      destruct (edges_complete _ x y Hwf He) as [Hin|Hin].
      - rewrite (Hz x y z) in HzM; [discriminate | | assumption].
        apply filter_In. split; [assumption|]. simpl. now rewrite Hx1, Hy2.
      - rewrite (Hz y x z) in HzM; [discriminate | | tauto].
        apply filter_In. split; [assumption|]. simpl. rewrite Hx1, Hy2.
        apply orb_true_r. }
    tauto.
Qed.

Section MinCutSplit.
Variable O : Oracles.
Hypothesis HO : valid_oracles O.
Variable half_cut : bool.

Lemma cut_returns (g : Graph) :
  wf_graph g -> 2 <= length (nodes g) -> length (connected_components g) = 1 ->
  exists V1 V2,
    (if half_cut then Ok (kernighan_lin_bisection O g) else nx_stoer_wagner O g)
    = Ok (V1, V2)
    /\ bipartition (nodes g) V1 V2.
Proof.
  intros Hwf Hn Hc. destruct HO as [Hs Hk]. destruct half_cut.
  - specialize (Hk g Hwf Hn Hc). destruct (kernighan_lin_bisection O g) as [V1 V2].
    exists V1, V2. now split.
  - specialize (Hs g Hwf Hn Hc). unfold nx_stoer_wagner.
    assert (E1 : (length (nodes g) <? 2) = false) by (apply Nat.ltb_ge; lia).
    rewrite E1, Hc. simpl. destruct (stoer_wagner O g) as [V1 V2].
    exists V1, V2. now split.
Qed.

Lemma min_cut_split_rec_spec (fuel : nat) :
  forall (R : triples) (M : list vertex) (init : bool),
    canonical R -> NoDup M -> length M < fuel ->
    exists R', min_cut_split_rec fuel O R M half_cut init = Ok R'
               /\ pruned R' R /\ consistent_on R' M.
Proof.
  induction fuel as [|fuel IH]; intros R M init Hc NM Hlen; [lia|].
  rewrite min_cut_split_rec_S.
  destruct (length M <? 3) eqn:E3.
  - apply Nat.ltb_lt in E3. exists R. split; [reflexivity|].
    split; [apply pruned_refl | now apply consistent_small].
  - apply Nat.ltb_ge in E3.
    replace (if init then map (fun kv => (fst kv, snd kv)) R else R) with R
      by (destruct init; [now rewrite map_pair_eta | reflexivity]).
    cbv zeta.
    pose proof Hc as [ND Ho].
    pose proof (comp_graph_wf R M ND NM) as Hwf.
    pose proof (comp_graph_nodes R M NM) as Hnodes.
    set (CG := comp_graph R M) in *.
    destruct (1 <? length (connected_components CG)) eqn:Ec.
    + apply Nat.ltb_lt in Ec.
      destruct (for_each_components
                  (fun R comp => min_cut_split_rec fuel O R comp half_cut false)
                  (connected_components CG)) with (R0 := R)
        as [R' [E' [P' C']]]; [|assumption|].
      { intros R0 K HK HR0.
        destruct (component_facts CG Hwf K HK) as [NK _].
        pose proof (component_smaller CG Hwf K Ec HK) as HlK. rewrite Hnodes in HlK.
        apply IH; auto. lia. }
      exists R'. split; [assumption|]. split; [assumption|].
      intros C NC Hi H3.
      destruct C as [|c0 Ct]; [simpl in H3; lia|].
      set (C := c0 :: Ct) in *.
      assert (H0 : In c0 C) by now left.
      destruct (component_cover CG Hwf c0) as [K [HK H0K]].
      { rewrite Hnodes. now apply Hi. }
      destruct (forallb (fun c => In_b c K) C) eqn:Ef.
      * apply (C' K HK); auto. intros c Hcin.
        rewrite forallb_forall in Ef. apply In_b_true. now apply Ef.
      * apply forallb_false_ex in Ef. destruct Ef as [c1 [H1 H1K]].
        apply In_b_false in H1K.
        destruct (component_facts CG Hwf K HK) as [_ [_ [Hcl _]]].
        apply (separated_by_component R' R M K C c0 c1); auto.
    + apply Nat.ltb_ge in Ec.
      assert (Hone : length (connected_components CG) = 1).
      { destruct M as [|m M']; [simpl in E3; lia|].
        destruct (component_cover CG Hwf m) as [K [HK _]].
        { rewrite Hnodes. now left. }
        destruct (connected_components CG); [contradiction | simpl in *; lia]. }
      destruct (cut_returns CG Hwf) as [V1 [V2 [Ecut Hbi]]];
        [rewrite Hnodes; lia | assumption |].
      rewrite Ecut. cbn [bind]. rewrite Hnodes in Hbi.
      set (cut := filter _ (edges CG)).
      destruct (prune_loop_spec CG cut R Hc) as [R1 [E1 [P1 Z1]]].
      { apply NoDup_filter. now apply edges_NoDup. }
      { intros x y Hx Hy. unfold cut in Hx, Hy. apply filter_In in Hx, Hy.
        apply (edges_oriented CG x y Hwf); tauto. }
      { intros x y Hx. unfold cut in Hx. apply filter_In in Hx. destruct Hx as [Hx _].
        apply edges_has_edge in Hx; [|apply Hwf].
        apply (comp_graph_has_edge R M x y ND) in Hx. tauto. }
      rewrite E1. cbn [bind].
      destruct (bipartition_smaller M V1 V2 NM Hbi) as [Hl1 Hl2].
      pose proof Hbi as [_ [_ [N1 [N2 [Hcov _]]]]].
      assert (Hc1 : canonical R1) by now apply (pruned_canonical R1 R).
      assert (S1 : exists R2, (if 2 <? length V1
                               then min_cut_split_rec fuel O R1 V1 half_cut false
                               else Ok R1) = Ok R2
                              /\ pruned R2 R1 /\ consistent_on R2 V1).
      { destruct (2 <? length V1) eqn:E.
        - apply IH; auto. lia.
        - apply Nat.ltb_ge in E. exists R1. split; [reflexivity|].
          split; [apply pruned_refl | apply consistent_small; lia]. }
      destruct S1 as [R2 [E2 [P2 C2]]]. rewrite E2. cbn [bind].
      assert (Hc2 : canonical R2) by now apply (pruned_canonical R2 R1).
      assert (S2 : exists R3, (if 2 <? length V2
                               then min_cut_split_rec fuel O R2 V2 half_cut false
                               else Ok R2) = Ok R3
                              /\ pruned R3 R2 /\ consistent_on R3 V2).
      { destruct (2 <? length V2) eqn:E.
        - apply IH; auto. lia.
        - apply Nat.ltb_ge in E. exists R2. split; [reflexivity|].
          split; [apply pruned_refl | apply consistent_small; lia]. }
      destruct S2 as [R3 [E3' [P3 C3]]]. rewrite E3'. cbn [bind].
      exists R3. split; [reflexivity|].
      assert (P31 : pruned R3 R1) by now apply (pruned_trans R3 R2 R1).
      split; [now apply (pruned_trans R3 R1 R)|].
      intros C NC Hi H3.
      destruct (forallb (fun c => In_b c V1) C) eqn:EA.
      { apply (consistent_pruned R3 R2 V1 P3 C2); auto.
        intros c Hcin. rewrite forallb_forall in EA. apply In_b_true. now apply EA. }
      destruct (forallb (fun c => In_b c V2) C) eqn:EB.
      { apply C3; auto.
        intros c Hcin. rewrite forallb_forall in EB. apply In_b_true. now apply EB. }
      apply forallb_false_ex in EA, EB.
      destruct EA as [a [Ha HaV]], EB as [b [Hb HbV]].
      apply In_b_false in HaV, HbV.
      apply (separated_by_cut R3 R1 R M V1 V2 C); auto.
Qed.

End MinCutSplit.

(* ================================================================== *)
(** ** BUILD_cograph *)
(* ================================================================== *)

(** BUILD_cograph returns when every set of three leaves or more can be
    separated, and what it returns is a well-formed graph. *)

Lemma get_triple_subset (R : triples) (K : list vertex) (k : vertex * vertex) :
  Dict.get pair_eqb k (triple_subset R K)
  = if In_b (fst k) K && In_b (snd k) K
    then match Dict.get pair_eqb k R with
         | Some zs => Some (filter (fun z => In_b z K) zs)
         | None => None
         end
    else None.
Proof.
  unfold triple_subset. induction R as [|[k' zs] R IH]; simpl.
  - destruct (In_b (fst k) K && In_b (snd k) K); reflexivity.
  - destruct (pair_eqb k k') eqn:E.
    + apply pair_eqb_eq in E. subst k'.
      destruct (In_b (fst k) K && In_b (snd k) K) eqn:Ek; simpl.
      * now rewrite pair_eqb_refl.
      * apply IH.
    + destruct (In_b (fst k') K && In_b (snd k') K); simpl; [rewrite E|]; apply IH.
Qed.

Lemma wit_triple_subset (R : triples) (K : list vertex) (k : vertex * vertex) :
  wit (triple_subset R K) k
  = if In_b (fst k) K && In_b (snd k) K
    then filter (fun z => In_b z K) (wit R k) else [].
Proof.
  unfold wit. rewrite get_triple_subset.
  destruct (In_b (fst k) K && In_b (snd k) K); [|reflexivity].
  destruct (Dict.get pair_eqb k R); reflexivity.
Qed.

Lemma keys_triple_subset (R : triples) (K : list vertex) :
  keys_of (triple_subset R K)
  = filter (fun k => In_b (fst k) K && In_b (snd k) K) (keys_of R).
Proof.
  unfold keys_of, triple_subset. induction R as [|[k zs] R IH]; simpl; [reflexivity|].
  destruct (In_b (fst k) K && In_b (snd k) K); simpl; now rewrite IH.
Qed.

Lemma triple_subset_pruned (R : triples) (K : list vertex) : pruned (triple_subset R K) R.
Proof.
  split; [|split].
  - rewrite keys_triple_subset. intros k Hk. apply filter_In in Hk. tauto.
  - intros ND. rewrite keys_triple_subset. now apply NoDup_filter.
  - intros k z. rewrite wit_triple_subset.
    destruct (In_b (fst k) K && In_b (snd k) K); [|contradiction].
    intros Hz. apply filter_In in Hz. tauto.
Qed.

Lemma triple_subset_witnesses (R : triples) (K : list vertex) :
  witnesses_in (triple_subset R K) K.
Proof.
  intros x y z _ _. rewrite wit_triple_subset.
  destruct (In_b (fst (x, y)) K && In_b (snd (x, y)) K); [|contradiction].
  intros Hz. apply filter_In in Hz. now apply In_b_true.
Qed.

Lemma witnesses_pruned (R' R : triples) (L : list vertex) :
  pruned R' R -> witnesses_in R L -> witnesses_in R' L.
Proof.
  intros [_ [_ P]] H x y z Hx Hy Hz. apply (H x y z); auto. now apply P.
Qed.

Lemma for_each_returns {X S : Type} (xs : list X) (body : S -> X -> outcome S) :
  (forall s x, In x xs -> returns (body s x)) ->
  forall s, returns (for_each xs body s).
Proof.
  induction xs as [|x xs IH]; intros Hb s; simpl.
  - now exists s.
  - destruct (Hb s x (or_introl eq_refl)) as [s' E]. rewrite E. simpl.
    apply IH. intros s0 x0 H0. apply Hb. now right.
Qed.

Lemma BUILD_cograph_rec_S (fuel : nat) (R : triples) (L : leaves) (label : nat) :
  BUILD_cograph_rec (S fuel) R L label
  = let G := empty in
    if leaves_len L =? 1 then
      l0 <- leaves_getitem L 0 ;;
      n0 <- as_node l0 ;;
      Ok (add_node G n0)
    else if leaves_len L =? 2 then
      let G := add_nodes_from G (leaves_iter L) in
      if label =? 1 then
        l0 <- leaves_getitem L 0 ;;
        l1 <- leaves_getitem L 1 ;;
        n0 <- as_node l0 ;;
        n1 <- as_node l1 ;;
        Ok (add_edge G n0 n1 None)
      else Ok G
    else
      let CG := comp_graph R (leaves_iter L) in
      let comps := connected_components CG in
      if length comps =? 1 then Raise Inconsistent
      else
        for_each comps
          (fun G C =>
             if label =? 1 then
               H <- BUILD_cograph_rec fuel (triple_subset R C) (PyList C) 0 ;;
               Ok (join G H)
             else
               H <- BUILD_cograph_rec fuel (triple_subset R C) (PyList C) 1 ;;
               Ok (union G H))
          G.
Proof. reflexivity. Qed.

(** When the leaves can be separated, the constraint graph has more than
    one component. *)
Lemma separated_components (R : triples) (C : list vertex) :
  NoDup (keys_of R) -> NoDup C -> witnesses_in R C -> separated R C ->
  1 < length (connected_components (comp_graph R C)).
Proof.
  intros ND NC Hw [A [B [HA [HB [Hcov [Hdis Hsep]]]]]].
  pose proof (comp_graph_wf R C ND NC) as Hwf.
  apply (components_split (comp_graph R C) Hwf A B); auto.
  - intros v. rewrite (comp_graph_nodes R C NC). apply Hcov.
  - intros x y Hx Hy. destruct (has_edge (comp_graph R C) x y) eqn:E; [|reflexivity].
    exfalso. apply (comp_graph_has_edge R C x y ND) in E.
    destruct E as [HxC [HyC Hne]].
    assert (Hyx : forall z, In z (wit R (y, x)) -> In z C).
    { intros z Hz. now apply (Hw y x z). }
    assert (Hxy : forall z, In z (wit R (x, y)) -> In z C).
    { intros z Hz. now apply (Hw x y z). }
    destruct Hne as [Hne|Hne].
    + destruct (wit R (x, y)) as [|z zs] eqn:Ez; [congruence|].
      destruct (Hsep x y z Hx Hy) as [N _]; [apply Hxy; now left|].
      apply N. rewrite Ez. now left.
    + destruct (wit R (y, x)) as [|z zs] eqn:Ez; [congruence|].
      destruct (Hsep x y z Hx Hy) as [_ N]; [apply Hyx; now left|].
      apply N. rewrite Ez. now left.
Qed.

Lemma BUILD_cograph_rec_returns (fuel : nat) :
  forall (R : triples) (C : list vertex) (label : nat),
    NoDup (keys_of R) -> NoDup C -> length C < fuel ->
    consistent_on R C -> witnesses_in R C ->
    returns (BUILD_cograph_rec fuel R (PyList C) label).
Proof.
  induction fuel as [|fuel IH]; intros R C label ND NC Hlen Hcons Hw; [lia|].
  rewrite BUILD_cograph_rec_S. cbv zeta. unfold leaves_len, leaves_iter.
  destruct (length C =? 1) eqn:E1.
  { destruct C as [|v [|? ?]]; try discriminate. simpl. eexists. reflexivity. }
  destruct (length C =? 2) eqn:E2.
  { destruct C as [|a [|b [|? ?]]]; try discriminate. simpl.
    destruct (label =? 1); eexists; reflexivity. }
  apply Nat.eqb_neq in E1, E2.
  pose proof (comp_graph_wf R C ND NC) as Hwf.
  pose proof (comp_graph_nodes R C NC) as Hnodes.
  assert (Hbody : forall K, In K (connected_components (comp_graph R C)) ->
                            3 <= length C ->
                            forall l, returns (BUILD_cograph_rec fuel (triple_subset R K)
                                                                 (PyList K) l)).
  { intros K HK H3 l.
    assert (Hmany : 1 < length (connected_components (comp_graph R C))).
    { apply separated_components; auto. apply Hcons; auto using incl_refl. }
    destruct (component_facts _ Hwf K HK) as [NK [HiK _]].
    pose proof (component_smaller _ Hwf K Hmany HK) as HlK.
    rewrite Hnodes in HlK, HiK.
    apply IH; auto.
    - apply (triple_subset_pruned R K). assumption.
    - lia.
    - apply (consistent_pruned _ R K (triple_subset_pruned R K)).
      now apply (consistent_incl R C K).
    - apply triple_subset_witnesses. }
  destruct (length (connected_components (comp_graph R C)) =? 1) eqn:Ec.
  - exfalso. apply Nat.eqb_eq in Ec.
    destruct C as [|c0 C'].
    + destruct (connected_components (comp_graph R [])) as [|K cs] eqn:Ecs;
        [discriminate|].
      destruct (component_facts _ Hwf K) as [_ [HiK [_ HK]]]; [rewrite Ecs; now left|].
      rewrite Hnodes in HiK. destruct K as [|k K]; [congruence|].
      apply (HiK k). now left.
    + assert (H3 : 3 <= length (c0 :: C')).
      { destruct C' as [|? [|? ?]]; simpl in *; try congruence; lia. }
      assert (Hmany : 1 < length (connected_components (comp_graph R (c0 :: C')))).
      { apply separated_components; auto. apply Hcons; auto using incl_refl. }
      lia.
  - apply for_each_returns. intros G K HK.
    assert (H3 : 3 <= length C).
    { destruct C as [|? [|? [|? ?]]]; simpl in *; try congruence; try lia.
      exfalso. destruct (component_facts _ Hwf K HK) as [_ [HiK [_ HKn]]].
      rewrite Hnodes in HiK. destruct K as [|k K]; [congruence|].
      apply (HiK k). now left. }
    destruct (label =? 1).
    + destruct (Hbody K HK H3 0) as [H E]. rewrite E. simpl. eexists. reflexivity.
    + destruct (Hbody K HK H3 1) as [H E]. rewrite E. simpl. eexists. reflexivity.
Qed.

Lemma BUILD_cograph_rec_wf (fuel : nat) (R : triples) (L : leaves) (label : nat)
  (G : Graph) :
  BUILD_cograph_rec fuel R L label = Ok G -> wf_graph G.
Proof.
  destruct fuel as [|fuel]; [discriminate|].
  rewrite BUILD_cograph_rec_S. cbv zeta.
  destruct (leaves_len L =? 1).
  { destruct (leaves_getitem L 0) as [l0| |]; try discriminate. simpl.
    destruct (as_node l0) as [n0| |]; try discriminate. simpl.
    intros E. inversion E. apply wf_add_node, wf_empty. }
  destruct (leaves_len L =? 2).
  { destruct (label =? 1).
    - destruct (leaves_getitem L 0) as [l0| |]; try discriminate. simpl.
      destruct (leaves_getitem L 1) as [l1| |]; try discriminate. simpl.
      destruct (as_node l0) as [n0| |]; try discriminate. simpl.
      destruct (as_node l1) as [n1| |]; try discriminate. simpl.
      intros E. inversion E. apply wf_add_edge, wf_add_nodes_from, wf_empty.
    - intros E. inversion E. apply wf_add_nodes_from, wf_empty. }
  destruct (length _ =? 1); [discriminate|].
  apply for_each_wf; [|apply wf_empty].
  intros G0 C G'. destruct (label =? 1).
  - destruct (BUILD_cograph_rec fuel _ _ 0); try discriminate. simpl.
    intros E. inversion E. apply wf_join.
  - destruct (BUILD_cograph_rec fuel _ _ 1); try discriminate. simpl.
    intros E. inversion E. apply wf_union.
Qed.

Lemma min_cut_edit_wf (O : Oracles) (G : Graph) (half_cut R1 R2 : bool) (H : Graph) :
  min_cut_edit O G half_cut R1 R2 = Ok H -> wf_graph H.
Proof.
  unfold min_cut_edit.
  destruct (get_triples G R1 R2) as [R| |]; try discriminate. simpl.
  destruct (min_cut_split O R (nodes G) half_cut true) as [R'| |]; try discriminate.
  simpl. destruct (BUILD_cograph R' (NodeView G) 0) as [H0| |] eqn:E; try discriminate.
  simpl. apply BUILD_cograph_rec_wf in E.
  destruct (n_edits G H0 <? n_edits G (complement H0)); intros E'; inversion E'.
  - now subst.
  - apply wf_complement.
Qed.

(* ================================================================== *)
(** ** Consistency after min_cut_split *)
(* ================================================================== *)

(** C1, as amended. For every triple set [R] whose keys are unique, also
    up to the order of the pair, every duplicate-free [L] that contains
    the witnesses of its own pairs, and cut oracles that keep their
    contract: [min_cut_split(R, L)] returns, and BUILD_cograph on its
    result with the leaves [L] returns a graph; it never raises the
    inconsistency error, the constraint graph having more than one
    component at every level that BUILD reaches with three leaves or
    more. *)
Theorem min_cut_split_consistent (O : Oracles) (R : triples) (L : list vertex)
  (half_cut : bool) :
  valid_oracles O -> canonical R -> NoDup L -> witnesses_in R L ->
  exists R' G,
    min_cut_split O R L half_cut true = Ok R'
    /\ BUILD_cograph R' (PyList L) 0 = Ok G.
Proof.
  intros HO Hc NL Hw. unfold min_cut_split, BUILD_cograph.
  destruct (min_cut_split_rec_spec O HO half_cut (S (length L)) R L true Hc NL)
    as [R' [E [P Hcons]]]; [lia|].
  destruct (BUILD_cograph_rec_returns (S (length L)) R' L 0) as [G EG]; auto.
  - apply P. apply Hc.
  - now apply (witnesses_pruned R' R).
  - exists R', G. now split.
Qed.

Lemma bipartitions_spec (l : list vertex) :
  forall p, In p (bipartitions l) -> NoDup l ->
            NoDup (fst p) /\ NoDup (snd p)
            /\ (forall x, In x l <-> In x (fst p) \/ In x (snd p))
            /\ (forall x, In x (fst p) -> In x (snd p) -> False).
Proof.
  induction l as [|a l IH]; intros p Hp ND; simpl in Hp.
  - destruct Hp as [<-|[]]. simpl. repeat split; try constructor; tauto.
  - apply in_flat_map in Hp. destruct Hp as [q [Hq Hp]].
    inversion ND as [|? ? Ha ND']. subst.
    destruct (IH q Hq ND') as [N1 [N2 [Hcov Hdis]]].
    assert (Ha1 : ~ In a (fst q)) by (intros H; apply Ha, Hcov; now left).
    assert (Ha2 : ~ In a (snd q)) by (intros H; apply Ha, Hcov; now right).
    destruct Hp as [<-|[<-|[]]]; simpl.
    + split; [now constructor|]. split; [assumption|]. split.
      * intros x. rewrite Hcov. tauto.
      * intros x [<-|H1] H2; [contradiction | now apply (Hdis x)].
    + split; [assumption|]. split; [now constructor|]. split.
      * intros x. rewrite Hcov. tauto.
      * intros x H1 [<-|H2]; [contradiction | now apply (Hdis x)].
Qed.

Lemma fold_left_invariant {X Y : Type} (Q : X -> Prop) (f : X -> Y -> X) (l : list Y) :
  (forall b p, Q b -> In p l -> Q (f b p)) -> forall b, Q b -> Q (fold_left f l b).
Proof.
  induction l as [|p l IH]; intros Hf b Hb; simpl; [assumption|].
  apply IH.
  - intros b' p' Hb' Hp'. apply Hf; [assumption | now right].
  - apply Hf; [assumption | now left].
Qed.

(** The brute-force minimum cut keeps the contract of a cut oracle. *)
Lemma brute_min_cut_valid : valid_cut brute_min_cut.
Proof.
  intros g [ND _] Hlen _. unfold brute_min_cut.
  destruct (nodes g) as [|v rest] eqn:En; [simpl in Hlen; lia|].
  inversion ND as [|? ? Hv NDr]. subst.
  apply (fold_left_invariant
           (fun p => bipartition (v :: rest) (fst p) (snd p))).
  - intros b p Hb Hp. destruct (snd p) as [|s sp] eqn:Es; [assumption|].
    destruct (cut_weight g p <? cut_weight g b); [|assumption].
    apply in_map_iff in Hp. destruct Hp as [q [<- Hq]]. simpl in *.
    destruct (bipartitions_spec rest q Hq NDr) as [N1 [N2 [Hcov Hdis]]].
    unfold bipartition. simpl. rewrite Es.
    split; [discriminate|]. split; [discriminate|].
    split.
    { constructor; [|assumption]. intros H. apply Hv, Hcov. now left. }
    split; [now rewrite <- Es|]. split.
    + intros x. rewrite <- Es, Hcov. tauto.
    + intros x [<-|H1] H2.
      * apply Hv, Hcov. right. now rewrite Es.
      * apply (Hdis x H1). now rewrite Es.
  - unfold bipartition. simpl.
    split; [discriminate|]. split.
    { destruct rest; [simpl in Hlen; lia | discriminate]. }
    split; [repeat constructor; intros []|]. split; [assumption|]. split.
    + intros x. tauto.
    + intros x [<-|[]] H. contradiction.
Qed.

Lemma example_oracles_valid (sh : nat -> list (vertex * vertex) -> list (vertex * vertex)) :
  valid_oracles (example_oracles sh).
Proof. split; apply brute_min_cut_valid. Qed.

Lemma P4_triples_canonical : canonical P4_triples.
Proof.
  split.
  - unfold keys_of. simpl. repeat constructor; simpl; intuition congruence.
  - intros x y H1 H2. unfold keys_of in *. simpl in *.
    repeat match goal with H : _ \/ _ |- _ => destruct H end;
      try contradiction; congruence.
Qed.

Lemma P4_triples_witnesses : witnesses_in P4_triples [1; 2; 3; 4].
Proof.
  intros x y z Hx Hy Hz. simpl in Hx, Hy.
  repeat match goal with H : _ \/ _ |- _ => destruct H end;
    try contradiction; subst; unfold wit in Hz; simpl in Hz;
    repeat match goal with H : _ \/ _ |- _ => destruct H end;
    try contradiction; subst; simpl; tauto.
Qed.

Lemma min_cut_split_consistent_witness :
  exists R' G,
    min_cut_split (example_oracles no_shuffle) P4_triples [1; 2; 3; 4] false true = Ok R'
    /\ BUILD_cograph R' (PyList [1; 2; 3; 4]) 0 = Ok G.
Proof.
  apply (min_cut_split_consistent (example_oracles no_shuffle) P4_triples [1; 2; 3; 4] false
           (example_oracles_valid no_shuffle) P4_triples_canonical).
  - repeat constructor; simpl; intuition congruence.
  - exact P4_triples_witnesses.
Defined.

(** C1, as stated, fails on the triples 12|9 and 23|9 with the leaves 1, 2
    and 3: the witness 9 is not a leaf, the cut removes only witnesses
    that are vertices of the constraint graph, so [min_cut_split] returns
    the triple set unchanged and BUILD_cograph raises the inconsistency
    error on it. *)
Lemma min_cut_split_outside_witness :
  let R : triples := [((1, 2), [9]); ((2, 3), [9])] in
  exists R',
    min_cut_split (example_oracles no_shuffle) R [1; 2; 3] false true = Ok R'
    /\ BUILD_cograph R' (PyList [1; 2; 3]) 0 = Raise Inconsistent.
Proof.
  eexists. split; vm_compute; reflexivity.
Qed.

Lemma BUILD_cograph_node_view (fuel : nat) (R : triples) (G : Graph) (label : nat) :
  3 <= length (nodes G) ->
  BUILD_cograph_rec fuel R (NodeView G) label
  = BUILD_cograph_rec fuel R (PyList (nodes G)) label.
Proof.
  intros H3. destruct fuel as [|fuel]; [reflexivity|].
  rewrite !BUILD_cograph_rec_S. cbv zeta. unfold leaves_len, leaves_iter.
  destruct (length (nodes G) =? 1) eqn:E1; [apply Nat.eqb_eq in E1; lia|].
  destruct (length (nodes G) =? 2) eqn:E2; [apply Nat.eqb_eq in E2; lia|].
  reflexivity.
Qed.

(** On a graph with three vertices or more, the pipeline of [min_cut_edit]
    returns a graph: the inconsistency error of BUILD_cograph does not
    surface. *)
Lemma min_cut_edit_returns (O : Oracles) (G : Graph) (half_cut R1 R2 : bool) :
  valid_oracles O -> NoDup (nodes G) -> 3 <= length (nodes G) ->
  returns (min_cut_edit O G half_cut R1 R2).
Proof.
  intros HO NG H3. unfold min_cut_edit.
  destruct (get_triples_inv G R1 R2) as [T [ET HT]]. rewrite ET. cbn [bind].
  destruct (triples_inv_canonical G T NG HT) as [Hc Hw].
  unfold min_cut_split, BUILD_cograph, leaves_len, leaves_iter.
  destruct (min_cut_split_rec_spec O HO half_cut (S (length (nodes G))) T (nodes G)
              true Hc NG) as [R' [E1 [P Hcons]]]; [lia|].
  rewrite E1. cbn [bind]. rewrite (BUILD_cograph_node_view _ R' G 0 H3).
  destruct (BUILD_cograph_rec_returns (S (length (nodes G))) R' (nodes G) 0)
    as [H E2]; auto.
  { apply P. apply Hc. }
  { now apply (witnesses_pruned R' T). }
  rewrite E2. cbn [bind].
  destruct (n_edits G H <? n_edits G (complement H)); eexists; reflexivity.
Qed.

(* ================================================================== *)
(** ** The local search *)
(* ================================================================== *)

Lemma readd_edge_spec (O : Oracles) (T : Graph) (x y : vertex) (T' : Graph) :
  wf_graph T -> has_edge T x y = false ->
  readd_edge O T (x, y) = Ok T' ->
  wf_graph T'
  /\ (forall a b, has_edge T a b = true -> has_edge T' a b = true)
  /\ (forall a b, has_edge T' a b = true ->
                  has_edge T a b = true \/ (a, b) = (x, y) \/ (a, b) = (y, x)).
Proof.
  intros Hwf Hxy. unfold readd_edge.
  pose proof (wf_add_edge T x y None Hwf) as Hwf1.
  destruct (negb (recognition O (add_edge T x y None))).
  - destruct (remove_edge_spec (add_edge T x y None) x y Hwf1) as [g' [E [Hw He]]].
    { rewrite has_edge_add_edge, !Nat.eqb_refl. simpl. now rewrite orb_true_r. }
    rewrite E. intros E'. inversion E'. subst g'. split; [assumption|].
    assert (Hyx : has_edge T y x = false).
    { destruct (has_edge T y x) eqn:Eyx; [|reflexivity].
      destruct Hwf as [_ [_ [HsT _]]]. apply HsT in Eyx. congruence. }
    split.
    + intros a b Hab. rewrite He, has_edge_add_edge, Hab. simpl.
      apply negb_true_iff, orb_false_iff. split; apply andb_false_iff.
      * destruct (Nat.eqb a x) eqn:E1; [|now left].
        destruct (Nat.eqb b y) eqn:E2; [|now right].
        apply Nat.eqb_eq in E1, E2. subst. congruence.
      * destruct (Nat.eqb a y) eqn:E1; [|now left].
        destruct (Nat.eqb b x) eqn:E2; [|now right].
        apply Nat.eqb_eq in E1, E2. subst. congruence.
    + intros a b. rewrite He, has_edge_add_edge, andb_true_iff.
      intros [H1 H2]. left.
      destruct (has_edge T a b); [reflexivity|]. simpl in H1.
      rewrite H1 in H2. discriminate.
  - intros E. inversion E. subst T'. split; [assumption|]. split.
    + intros a b Hab. now rewrite has_edge_add_edge, Hab.
    + intros a b. rewrite has_edge_add_edge, !orb_true_iff, !andb_true_iff, !Nat.eqb_eq.
      intros [[H|[-> ->]]|[-> ->]]; auto.
Qed.

Lemma readd_loop_spec (O : Oracles) (G H : Graph) (es : list (vertex * vertex)) :
  (forall a b, has_edge G a b = true -> has_edge G b a = true) ->
  forall T T',
    wf_graph T ->
    (forall a b, has_edge H a b = true -> has_edge T a b = true) ->
    (forall a b, has_edge T a b = true -> has_edge H a b = true \/ has_edge G a b = true) ->
    NoDup es -> swap_free es ->
    (forall x y, In (x, y) es -> has_edge G x y = true /\ has_edge T x y = false) ->
    for_each es (readd_edge O) T = Ok T' ->
    wf_graph T'
    /\ (forall a b, has_edge H a b = true -> has_edge T' a b = true)
    /\ (forall a b, has_edge T' a b = true ->
                    has_edge H a b = true \/ has_edge G a b = true).
Proof.
  intros HG. induction es as [|[x y] es IH]; intros T T' Hwf I1 I2 ND Hsw Hes.
  - simpl. intros E. inversion E. subst. auto.
  - cbn [for_each]. destruct (readd_edge O T (x, y)) as [T1| |] eqn:E1;
      cbn [bind]; try discriminate.
    inversion ND as [|? ? Hn ND']. subst.
    destruct (Hes x y (or_introl eq_refl)) as [HGxy HTxy].
    destruct (readd_edge_spec O T x y T1 Hwf HTxy E1) as [Hwf1 [J1 J2]].
    apply IH; auto.
    + intros a b Hab. destruct (J2 a b Hab) as [H0|[H0|H0]]; auto;
        inversion H0; subst; auto.
    + intros x' y' H1 H2. apply Hsw; now right.
    + intros x' y' Hin. destruct (Hes x' y' (or_intror Hin)) as [HG' HT'].
      split; [assumption|].
      destruct (has_edge T1 x' y') eqn:E; [|reflexivity].
      destruct (J2 x' y' E) as [H0|[H0|H0]]; [congruence| |].
      * inversion H0. subst. contradiction.
      * inversion H0. subst.
        assert (x = y) by (apply Hsw; [now left | now right]). subst. contradiction.
Qed.

Lemma min_cut_trials_spec (O : Oracles) (G H : Graph) :
  wf_graph G -> wf_graph H -> permuting O ->
  forall its st st',
    Permutation (fst st)
                (filter (fun e => negb (has_edge H (fst e) (snd e))) (edges G)) ->
    (forall M, snd st = Some M -> n_edits G M <= n_edits G H) ->
    for_each its (min_cut_trial O G H (length (edges G))) st = Ok st' ->
    forall M, snd st' = Some M -> n_edits G M <= n_edits G H.
Proof.
  intros HG HH HO. induction its as [|i its IH]; intros st st' Hp Hst.
  - simpl. intros E. inversion E. now subst.
  - cbn [for_each]. unfold min_cut_trial at 1.
    set (cut0 := filter (fun e => negb (has_edge H (fst e) (snd e))) (edges G)) in *.
    assert (Hp' : Permutation (shuffle O i (fst st)) cut0).
    { eapply Permutation_trans; [apply HO | exact Hp]. }
    destruct (for_each (shuffle O i (fst st)) (readd_edge O) (copy H))
      as [G_tmp| |] eqn:E; cbn [bind]; try discriminate.
    assert (Hin : forall x y, In (x, y) (shuffle O i (fst st)) ->
                              In (x, y) (edges G) /\ has_edge H x y = false).
    { intros x y Hxy. apply (Permutation_in _ Hp') in Hxy. unfold cut0 in Hxy.
      apply filter_In in Hxy. simpl in Hxy. now rewrite negb_true_iff in Hxy. }
    assert (Hle : n_edits G G_tmp <= n_edits G H).
    { destruct (readd_loop_spec O G H (shuffle O i (fst st))) with (T := copy H)
        (T' := G_tmp) as [W [I1 I2]]; auto.
      - apply HG.
      - apply wf_copy.
      - intros a b. now rewrite has_edge_copy.
      - intros a b. rewrite has_edge_copy; auto.
      - apply (Permutation_NoDup (Permutation_sym Hp')).
        apply NoDup_filter. now apply edges_NoDup.
      - intros x y H1 H2. apply (edges_oriented G x y HG).
        + now apply Hin.
        + now apply Hin.
      - intros x y Hxy. destruct (Hin x y Hxy) as [H1 H2]. split.
        + apply edges_has_edge; [apply HG | assumption].
        + now rewrite has_edge_copy.
      - now apply n_edits_readded. }
    destruct (n_deletions G G_tmp <? length (edges G)); apply IH; simpl; auto.
    intros M EM. inversion EM. now subst.
Qed.

(** Whenever [minimal_min_cut_edit] returns, its result is not further
    from [G] than the candidate of [min_cut_edit]. *)
Lemma minimal_min_cut_edit_not_worse (O : Oracles) (G : Graph) (iterations : nat)
  (half_cut R1 R2 : bool) (H M : Graph) :
  wf_graph G -> permuting O ->
  min_cut_edit O G half_cut R1 R2 = Ok H ->
  minimal_min_cut_edit O G iterations half_cut R1 R2 = Ok M ->
  n_edits G M <= n_edits G H.
Proof.
  intros HG HO EH. unfold minimal_min_cut_edit. rewrite EH. cbn [bind].
  destruct (for_each (seq 0 iterations) _ _) as [st| |] eqn:E; cbn [bind];
    try discriminate.
  unfold read_local. destruct (snd st) as [M'|] eqn:ES; [|discriminate].
  intros EM. inversion EM. subst M'.
  apply (min_cut_trials_spec O G H HG (min_cut_edit_wf O G half_cut R1 R2 H EH) HO
           (seq 0 iterations)
           (filter (fun e => negb (has_edge H (fst e) (snd e))) (edges G), None) st);
    auto.
  simpl. discriminate.
Qed.

(** With no trial, [G_min] is never assigned. *)
Lemma minimal_min_cut_edit_no_trial (O : Oracles) (G : Graph) (half_cut R1 R2 : bool) :
  minimal_min_cut_edit O G 0 half_cut R1 R2
  = (H <- min_cut_edit O G half_cut R1 R2 ;; Raise UnboundLocalError).
Proof. reflexivity. Qed.

Lemma minimal_graph_cut_no_trial (O : Oracles) (G : Graph) (half_cut R1 R2 init : bool) :
  minimal_graph_cut O G 0 half_cut R1 R2 init
  = (G2 <- direct_graph_cut O G half_cut R1 R2 init ;; Raise UnboundLocalError).
Proof. reflexivity. Qed.

(** On every graph with three vertices or more, [minimal_min_cut_edit]
    with no trial raises UnboundLocalError. *)
Lemma minimal_min_cut_edit_zero_raises (O : Oracles) (G : Graph) (half_cut R1 R2 : bool) :
  valid_oracles O -> NoDup (nodes G) -> 3 <= length (nodes G) ->
  minimal_min_cut_edit O G 0 half_cut R1 R2 = Raise UnboundLocalError.
Proof.
  intros HO NG H3. rewrite minimal_min_cut_edit_no_trial.
  destruct (min_cut_edit_returns O G half_cut R1 R2 HO NG H3) as [H E].
  now rewrite E.
Qed.

(** [best_score] stays [math.inf], so that the graph of the last trial is
    what minimal_graph_cut returns, whatever the trials before it gave. *)
Lemma minimal_graph_cut_last_trial (O : Oracles) (G : Graph) (n : nat)
  (half_cut R1 R2 init : bool) :
  minimal_graph_cut O G (S n) half_cut R1 R2 init
  = (G2 <- direct_graph_cut O G half_cut R1 R2 init ;;
     st <- for_each (seq 0 n) (graph_cut_trial O G G2 None)
             (filter (fun e => negb (has_edge G2 (fst e) (snd e))) (edges G)
              ++ filter (fun e => negb (has_edge G (fst e) (snd e))) (edges G2),
              None) ;;
     for_each (shuffle O n (fst st)) (toggle_edge O) (copy G2)).
Proof.
  unfold minimal_graph_cut.
  destruct (direct_graph_cut O G half_cut R1 R2 init) as [G2| |];
    [|reflexivity|reflexivity].
  cbn [bind]. rewrite seq_S, for_each_app. cbn [Nat.add].
  destruct (for_each (seq 0 n) _ _) as [st| |]; [|reflexivity|reflexivity].
  cbn [bind for_each]. unfold graph_cut_trial. cbn [leb_score].
  destruct (for_each (shuffle O n (fst st)) _ _); reflexivity.
Qed.

(** C4, on the code: [minimal_min_cut_edit] raises UnboundLocalError, where
    the claim says that it returns for every number of trials and falls
    back on the candidate: on the path 1-2-3-4 with no trial, and on
    three vertices without an edge with one trial, which does not improve
    on the candidate that [min_cut_edit] returns. *)
Theorem minimal_min_cut_edit_unbound :
  returns (min_cut_edit (example_oracles no_shuffle) P4 false true true)
  /\ minimal_min_cut_edit (example_oracles no_shuffle) P4 0 false true true
     = Raise UnboundLocalError
  /\ min_cut_edit (example_oracles no_shuffle) three_vertices false true true
     = Ok three_vertices
  /\ minimal_min_cut_edit (example_oracles no_shuffle) three_vertices 1 false true true
     = Raise UnboundLocalError.
Proof.
  repeat split. eexists. vm_compute. reflexivity.
Qed.

(** C5, on the code: on the path 1-2-...-9 with two trials, the first
    trial, which is what a run of one trial returns, is 2 edits away from
    the input, and the run of two trials returns its second trial, 3 edits
    away, where the claim says the minimum over the trials; with no trial
    UnboundLocalError is raised. *)
Theorem minimal_graph_cut_not_best :
  let O := example_oracles rotate_later in
  (exists T1 T2,
      minimal_graph_cut O P9 1 false true true true = Ok T1
      /\ minimal_graph_cut O P9 2 false true true true = Ok T2
      /\ n_edits P9 T1 = 2 /\ n_edits P9 T2 = 3)
  /\ minimal_graph_cut O P9 0 false true true true = Raise UnboundLocalError.
Proof.
  split.
  - eexists. eexists. split; [vm_compute; reflexivity|].
    split; [vm_compute; reflexivity|]. split; vm_compute; reflexivity.
  - vm_compute. reflexivity.
Qed.

(** C6, on the code: on the path 1-2-3-4 [min_cut_edit] returns a graph,
    2 edits away from the input, and [minimal_min_cut_edit] with no trial
    raises UnboundLocalError, so that there is no result whose edit count
    could be compared. *)
Theorem minimal_min_cut_edit_no_result :
  (exists H, min_cut_edit (example_oracles no_shuffle) P4 false true true = Ok H
             /\ n_edits P4 H = 2)
  /\ ~ returns (minimal_min_cut_edit (example_oracles no_shuffle) P4 0 false true true).
Proof.
  split.
  - eexists. split; vm_compute; reflexivity.
  - intros [M E]. vm_compute in E. discriminate.
Qed.

(* ================================================================== *)
(** ** Further properties of is_triple *)
(* ================================================================== *)

Lemma existsb_pointwise {X : Type} (p q : X -> bool) (l : list X) :
  (forall x, In x l -> p x = q x) -> existsb p l = existsb q l.
Proof.
  induction l as [|a l IH]; intros H; simpl; [reflexivity|].
  rewrite (H a (or_introl eq_refl)), IH; [reflexivity|].
  intros x Hx. apply H. now right.
Qed.

(** X1. On an undirected graph, [is_triple] does not depend on the order
    of the pair: for vertices [x] and [y] of [G] and any [z],
    [is_triple G (x, y, z)] and [is_triple G (y, x, z)] give the same
    result, errors included, under every setting of R1 and R2. *)
Theorem is_triple_pair_sym (G : Graph) (x y z : vertex) (R1 R2 : bool) :
  undirected G -> has_node G x = true -> has_node G y = true ->
  is_triple G (x, y, z) R1 R2 = is_triple G (y, x, z) R1 R2.
Proof.
  intros U Hx Hy. unfold is_triple.
  rewrite (neighbors_node G x Hx), (neighbors_node G y Hy).
  rewrite (andb_comm (negb (has_edge G x z))), (andb_comm (has_edge G y z)).
  rewrite (U y x).
  assert (E1 : existsb (fun n => has_edge G y n && negb (has_edge G z n))
                       (map fst (adj G x))
               = existsb (fun n => has_edge G x n && negb (has_edge G z n))
                         (map fst (adj G y))).
  { apply eq_true_iff_eq. rewrite !existsb_neighbors. unfold edge.
    split; intros [n [H1 H2]]; apply andb_true_iff in H2; destruct H2 as [H2 H3];
      exists n; (split; [exact H2 | rewrite H1, H3; reflexivity]). }
  assert (E2 : forall l,
             existsb (fun n => negb (has_edge G x n) && negb (has_edge G y n)) l
             = existsb (fun n => negb (has_edge G y n) && negb (has_edge G x n)) l).
  { intros l. apply existsb_pointwise. intros n _. apply andb_comm. }
  simpl. rewrite E1.
  destruct (neighbors G z) as [ns| |]; simpl; rewrite ?E2; reflexivity.
Qed.

Lemma is_triple_pair_sym_witness :
  is_triple P4 (1, 2, 4) true true = is_triple P4 (2, 1, 4) true true.
Proof.
  apply (is_triple_pair_sym P4 1 2 4 true true P4_undirected); reflexivity.
Defined.

Lemma is_triple_mono (G : Graph) (t : vertex * vertex * vertex)
  (R1 R2 R1' R2' : bool) :
  (R1 = true -> R1' = true) -> (R2 = true -> R2' = true) ->
  is_triple G t R1 R2 = Ok true -> is_triple G t R1' R2' = Ok true.
Proof.
  destruct t as [[x y] z]. intros H1 H2. unfold is_triple.
  destruct (negb (has_edge G y z) && negb (has_edge G x z)).
  - destruct (has_edge G x y) eqn:Exy; simpl.
    + rewrite !andb_true_r, !andb_false_r.
      destruct R1; [rewrite H1; auto|]. destruct R1'; [reflexivity|]. discriminate.
    + rewrite !andb_false_r, !andb_true_r.
      destruct R2; [rewrite H2; auto|]. discriminate.
  - destruct (has_edge G x z && has_edge G y z); [|discriminate].
    destruct (has_edge G x y) eqn:Exy; simpl.
    + rewrite !andb_true_r, !andb_false_r.
      destruct R2; [rewrite H2; auto|]. discriminate.
    + rewrite !andb_false_r, !andb_true_r.
      destruct R1; [rewrite H1; auto|]. destruct R1'; [reflexivity|]. discriminate.
Qed.

(** X2. Switching a rule on never loses a triple: when [is_triple] returns
    [True] under [R1], [R2], it returns [True] under every setting that
    has on all the rules that were on. *)
Theorem is_triple_more_rules (G : Graph) (t : vertex * vertex * vertex)
  (R1 R2 R1' R2' : bool) :
  (R1 = true -> R1' = true) -> (R2 = true -> R2' = true) ->
  is_triple G t R1 R2 = Ok true -> is_triple G t R1' R2' = Ok true.
Proof. apply is_triple_mono. Qed.

Lemma is_triple_more_rules_witness : is_triple P4 (1, 2, 4) true true = Ok true.
Proof.
  apply (is_triple_more_rules P4 (1, 2, 4) true false true true);
    [reflexivity | discriminate | reflexivity].
Defined.

Lemma neighbors_missing (G : Graph) (x : vertex) :
  has_node G x = false -> neighbors G x = Raise NetworkXError /\ adj G x = [].
Proof.
  intros H. apply In_b_false in H. unfold neighbors, adj.
  assert (E : Dict.get Nat.eqb x G = None) by now apply (get_None _ _ Nat.eqb_eq).
  now rewrite E.
Qed.

(** X3. With R2 on, [is_triple] raises networkx's error when the first
    vertex of the pair is not in the graph and [y-z] is not an edge: the
    test reaches [G.neighbors(x)]. *)
Theorem is_triple_missing_vertex (G : Graph) (x y z : vertex) (R1 : bool) :
  has_node G x = false -> has_edge G y z = false ->
  is_triple G (x, y, z) R1 true = Raise NetworkXError.
Proof.
  intros Hx Hyz. destruct (neighbors_missing G x Hx) as [En Ea].
  unfold is_triple, has_edge. rewrite Ea. fold (has_edge G y z). rewrite Hyz. simpl.
  rewrite andb_false_r. simpl. now rewrite En.
Qed.

Lemma is_triple_missing_vertex_witness :
  is_triple P4 (9, 1, 3) true true = Raise NetworkXError.
Proof. apply (is_triple_missing_vertex P4 9 1 3 true); reflexivity. Defined.

(** X4. [is_triple] returns a boolean, and raises nothing, whenever [x]
    and [z] are vertices of the graph, and also on any three labels when
    R2 is off. *)
Theorem is_triple_total (G : Graph) (x y z : vertex) (R1 R2 : bool) :
  (has_node G x = true /\ has_node G z = true) \/ R2 = false ->
  returns (is_triple G (x, y, z) R1 R2).
Proof.
  intros [[Hx Hz] | ->].
  - now apply is_triple_returns.
  - unfold is_triple. rewrite !andb_false_l.
    repeat match goal with
           | |- context [if ?c then _ else _] => destruct c
           end; eexists; reflexivity.
Qed.

Lemma is_triple_total_witness : returns (is_triple P4 (7, 8, 9) true false).
Proof. apply (is_triple_total P4 7 8 9 true false). right. reflexivity. Defined.

(* ================================================================== *)
(** ** The triples that get_triples records *)
(* ================================================================== *)

Lemma for_each_prefix {X S : Type} (Q : list X -> S -> Prop)
  (body : S -> X -> outcome S) (xs : list X) :
  (forall done x s, Q done s -> In x xs ->
                    exists s', body s x = Ok s' /\ Q (done ++ [x]) s') ->
  forall s0, Q [] s0 -> exists s', for_each xs body s0 = Ok s' /\ Q xs s'.
Proof.
  intros Hstep.
  assert (G : forall rest done s,
             incl rest xs -> Q done s ->
             exists s', for_each rest body s = Ok s' /\ Q (done ++ rest) s').
  { induction rest as [|x rest IH]; intros done s Hi HQ.
    - exists s. rewrite app_nil_r. now split.
    - destruct (Hstep done x s HQ (Hi x (or_introl eq_refl))) as [s1 [E1 Q1]].
      destruct (IH (done ++ [x]) s1) as [s' [E' Q']]; [|assumption|].
      { intros y Hy. apply Hi. now right. }
      exists s'. cbn [for_each]. rewrite E1. cbn [bind].
      rewrite <- app_assoc in Q'. now split. }
  intros s0 H0. apply (G xs [] s0); [apply incl_refl | assumption].
Qed.

Section GetTriplesSpec.
Variable G : Graph.
Variables R1 R2 : bool.

Lemma record_triple_spec (vi vj : vertex) (T : triples) (v : vertex) :
  has_node G vi = true -> In v (nodes G) ->
  exists T', record_triple G R1 R2 vi vj T v = Ok T'
             /\ forall k z, In z (wit T' k)
                            <-> In z (wit T k)
                                \/ (k = (vi, vj) /\ z = v /\ recorded G R1 R2 vi vj z).
Proof.
  intros Hvi Hv. unfold record_triple, recorded.
  assert (Hvn : has_node G v = true) by now apply In_b_true.
  destruct (is_triple_returns G vi vj v R1 R2 Hvi Hvn) as [b Eb].
  destruct (Nat.eqb v vi) eqn:E1; cbn [negb andb].
  { apply Nat.eqb_eq in E1. exists T. split; [reflexivity|].
    intros k z. split; [tauto|]. intros [H|[_ [-> H]]]; [assumption|]. tauto. }
  destruct (Nat.eqb v vj) eqn:E2; cbn [negb andb].
  { apply Nat.eqb_eq in E2. exists T. split; [reflexivity|].
    intros k z. split; [tauto|]. intros [H|[_ [-> H]]]; [assumption|]. tauto. }
  apply Nat.eqb_neq in E1, E2. rewrite Eb. cbn [bind]. destruct b.
  2: { exists T. split; [reflexivity|].
       intros k z. split; [tauto|]. intros [H|[_ [-> [_ [_ [_ H]]]]]]; [assumption|].
       rewrite Eb in H. discriminate. }
  assert (Hw : forall zs, wit T (vi, vj) = zs ->
                          forall k z, In z (wit (Dict.set pair_eqb (vi, vj) (zs ++ [v]) T) k)
                                      <-> In z (wit T k)
                                          \/ (k = (vi, vj) /\ z = v
                                              /\ (In z (nodes G) /\ z <> vi /\ z <> vj
                                                  /\ is_triple G (vi, vj, z) R1 R2 = Ok true))).
  { intros zs Ez k z. rewrite wit_set. destruct (pair_eqb k (vi, vj)) eqn:Ek.
    - apply pair_eqb_eq in Ek. subst k. rewrite in_app_iff, Ez. simpl. split.
      + intros [H|[<-|[]]]; [now left|]. right. repeat split; auto.
      + intros [H|[_ [-> _]]]; auto.
    - apply pair_eqb_neq in Ek. split; [tauto|]. intros [H|[E _]]; [assumption|].
      contradiction. }
  destruct (Dict.get pair_eqb (vi, vj) T) as [zs|] eqn:Eg.
  - eexists. split; [reflexivity|]. apply Hw. unfold wit. now rewrite Eg.
  - eexists. split; [reflexivity|]. apply (Hw []). unfold wit. now rewrite Eg.
Qed.

Lemma record_loop_spec (vi vj : vertex) (T : triples) :
  has_node G vi = true ->
  exists T', for_each (nodes G) (record_triple G R1 R2 vi vj) T = Ok T'
             /\ forall k z, In z (wit T' k)
                            <-> In z (wit T k) \/ (k = (vi, vj) /\ recorded G R1 R2 vi vj z).
Proof.
  intros Hvi.
  destruct (for_each_prefix
              (fun done T' => forall k z,
                   In z (wit T' k)
                   <-> In z (wit T k) \/ (k = (vi, vj) /\ In z done /\ recorded G R1 R2 vi vj z))
              (record_triple G R1 R2 vi vj) (nodes G)) with (s0 := T) as [T' [E H]].
  - intros done v T1 H1 Hv.
    destruct (record_triple_spec vi vj T1 v Hvi Hv) as [T2 [E2 H2]].
    exists T2. split; [assumption|]. intros k z. rewrite H2, H1, in_app_iff. simpl.
    split.
    + intros [[H|H]|[Hk [-> Hr]]]; [now left | right; tauto | right; tauto].
    + intros [H|[Hk [[Hd|[<-|[]]] Hr]]]; [left; now left | left; right; tauto | right; tauto].
  - intros k z. split; [tauto|]. intros [H|[_ [[] _]]]. assumption.
  - exists T'. split; [assumption|]. intros k z. rewrite H. unfold recorded.
    split; intros [H0|H0]; auto; right; tauto.
Qed.

Lemma get_triples_spec_aux :
  exists T, get_triples G R1 R2 = Ok T
            /\ forall k z,
                In z (wit T k)
                <-> exists i j, i < j /\ j < length (nodes G)
                                /\ k = (nth i (nodes G) 0, nth j (nodes G) 0)
                                /\ recorded G R1 R2 (nth i (nodes G) 0) (nth j (nodes G) 0) z.
Proof.
  unfold get_triples. cbv zeta. set (V := nodes G).
  destruct (for_each_prefix
              (fun done T => forall k z,
                   In z (wit T k)
                   <-> exists i j, In i done /\ i < j /\ j < length V
                                   /\ k = (nth i V 0, nth j V 0)
                                   /\ recorded G R1 R2 (nth i V 0) (nth j V 0) z)
              (fun T i =>
                 for_each (seq (i + 1) (length V - (i + 1)))
                          (fun T j => for_each V (record_triple G R1 R2 (nth i V 0) (nth j V 0)) T)
                          T)
              (seq 0 (length V - 1))) with (s0 := @nil ((vertex * vertex) * list vertex))
    as [T [E H]].
  - intros done i T0 H0 Hi. apply in_seq in Hi.
    destruct (for_each_prefix
                (fun djs T => forall k z,
                     In z (wit T k)
                     <-> In z (wit T0 k)
                         \/ exists j, In j djs /\ k = (nth i V 0, nth j V 0)
                                      /\ recorded G R1 R2 (nth i V 0) (nth j V 0) z)
                (fun T j => for_each V (record_triple G R1 R2 (nth i V 0) (nth j V 0)) T)
                (seq (i + 1) (length V - (i + 1)))) with (s0 := T0) as [T1 [E1 H1]].
    + intros djs j T2 H2 Hj.
      destruct (record_loop_spec (nth i V 0) (nth j V 0) T2) as [T3 [E3 H3]].
      { apply In_b_true. apply nth_In. unfold V in *. lia. }
      exists T3. split; [assumption|]. intros k z. rewrite H3, H2. split.
      * intros [[H|[j' [Hj' Hr]]]|[Hk Hr]]; auto.
        -- right. exists j'. rewrite in_app_iff. tauto.
        -- right. exists j. rewrite in_app_iff. simpl. tauto.
      * intros [H|[j' [Hj' [Hk Hr]]]]; auto.
        apply in_app_iff in Hj'. destruct Hj' as [Hj'|[<-|[]]].
        -- left. right. exists j'. tauto.
        -- right. tauto.
    + intros k z. split; [tauto|]. intros [H|[j [[] _]]]. assumption.
    + exists T1. split; [assumption|]. intros k z. rewrite H1, H0. split.
      * intros [[i' [j' [Hi' Hr]]]|[j [Hj [Hk Hr]]]].
        -- exists i', j'. rewrite in_app_iff. tauto.
        -- apply in_seq in Hj. exists i, j. rewrite in_app_iff. simpl.
           split; [right; left; reflexivity|]. split; [lia|]. split; [lia|].
           split; assumption.
      * intros [i' [j' [Hi' [Hlt [Hlen [Hk Hr]]]]]].
        apply in_app_iff in Hi'. destruct Hi' as [Hi'|[<-|[]]].
        -- left. exists i', j'. tauto.
        -- right. exists j'. split; [|tauto]. apply in_seq. lia.
  - intros k z. split; [intros []|]. intros [i [j [[] _]]].
  - exists T. split; [assumption|]. intros k z. rewrite H. split.
    + intros [i [j [_ Hr]]]. exists i, j. tauto.
    + intros [i [j [Hlt [Hlen Hr]]]]. exists i, j. split; [|tauto].
      apply in_seq. lia.
Qed.

End GetTriplesSpec.

Lemma for_each_preserves {X S : Type} (P : S -> Prop) (xs : list X)
  (body : S -> X -> outcome S) :
  (forall s x s', In x xs -> P s -> body s x = Ok s' -> P s') ->
  forall s s', P s -> for_each xs body s = Ok s' -> P s'.
Proof.
  induction xs as [|x xs IH]; intros Hb s s' Hs E; cbn [for_each] in E.
  - inversion E. now subst.
  - destruct (body s x) as [s1| |] eqn:E1; cbn [bind] in E; try discriminate.
    apply (IH (fun s0 y s0' Hy => Hb s0 y s0' (or_intror Hy)) s1 s'); [|assumption].
    apply (Hb s x s1); auto. now left.
Qed.

Lemma record_triple_no_empty (G : Graph) (R1 R2 : bool) (vi vj : vertex)
  (T : triples) (v : vertex) (T' : triples) :
  no_empty_entry T -> record_triple G R1 R2 vi vj T v = Ok T' -> no_empty_entry T'.
Proof.
  intros HT. unfold record_triple.
  destruct (negb (Nat.eqb v vi) && negb (Nat.eqb v vj)).
  2: { intros E. inversion E. now subst. }
  destruct (is_triple G (vi, vj, v) R1 R2) as [b| |]; cbn [bind]; try discriminate.
  destruct b.
  2: { intros E. inversion E. now subst. }
  assert (Hset : forall zs, zs <> [] ->
                            (In (vi, vj) (keys_of T) \/ ~ In (vi, vj) (keys_of T)) ->
                            no_empty_entry (Dict.set pair_eqb (vi, vj) zs T)).
  { intros zs Hzs Hdec k Hk. rewrite wit_set. destruct (pair_eqb k (vi, vj)) eqn:Ek.
    - assumption.
    - apply pair_eqb_neq in Ek. apply HT. destruct Hdec as [Hin|Hnin].
      + unfold keys_of in *. now rewrite (keys_set_present _ _ pair_eqb_eq) in Hk.
      + unfold keys_of in *. rewrite (keys_set_absent _ _ pair_eqb_eq) in Hk by assumption.
        apply in_app_iff in Hk. destruct Hk as [Hk|[Hk|[]]]; [assumption|].
        now symmetry in Hk. }
  destruct (Dict.get pair_eqb (vi, vj) T) as [zs|] eqn:Eg; intros E; inversion E; subst.
  - apply Hset.
    + intros H. now apply app_eq_nil in H as [_ H].
    + left. apply (get_In _ _ pair_eqb_eq) in Eg. apply (in_map fst) in Eg. exact Eg.
  - apply Hset; [discriminate|]. right. now apply (get_None _ _ pair_eqb_eq).
Qed.

Lemma get_triples_no_empty (G : Graph) (R1 R2 : bool) (T : triples) :
  get_triples G R1 R2 = Ok T -> no_empty_entry T.
Proof.
  unfold get_triples. cbv zeta.
  apply (for_each_preserves no_empty_entry); [|intros k []].
  intros T0 i T1 _ H0. apply (for_each_preserves no_empty_entry); [|assumption].
  intros T2 j T3 _ H2. apply (for_each_preserves no_empty_entry); [|assumption].
  intros T4 v T5 _ H4. now apply record_triple_no_empty.
Qed.

(** X5. On a graph with distinct nodes, [get_triples] returns a dict that
    holds no pair in both orders and no key with an empty list: a pair is
    a key exactly when it has a witness. *)
Theorem get_triples_keys (G : Graph) (R1 R2 : bool) :
  NoDup (nodes G) ->
  exists T, get_triples G R1 R2 = Ok T
            /\ canonical T /\ forall k, In k (keys_of T) <-> wit T k <> [].
Proof.
  intros NG. destruct (get_triples_inv G R1 R2) as [T [E HT]].
  exists T. split; [assumption|].
  split; [now apply (triples_inv_canonical G)|].
  intros k. split; [now apply (get_triples_no_empty G R1 R2)|apply wit_key].
Qed.

Lemma get_triples_keys_witness :
  exists T, get_triples P4 true true = Ok T
            /\ canonical T /\ forall k, In k (keys_of T) <-> wit T k <> [].
Proof.
  apply (get_triples_keys P4 true true).
  vm_compute. repeat constructor; simpl; intuition discriminate.
Defined.

(** X6. [get_triples] returns on every graph, and [z] is listed under
    [(x, y)] exactly when [x] comes before [y] in [G.nodes], [z] is a
    vertex other than [x] and [y], and [is_triple G (x, y, z)] returns
    [True]. *)
Theorem get_triples_witnesses (G : Graph) (R1 R2 : bool) :
  exists T, get_triples G R1 R2 = Ok T
            /\ forall x y z,
                In z (wit T (x, y))
                <-> exists i j, i < j /\ j < length (nodes G)
                                /\ x = nth i (nodes G) 0 /\ y = nth j (nodes G) 0
                                /\ In z (nodes G) /\ z <> x /\ z <> y
                                /\ is_triple G (x, y, z) R1 R2 = Ok true.
Proof.
  destruct (get_triples_spec_aux G R1 R2) as [T [E H]]. exists T. split; [assumption|].
  intros x y z. rewrite H. unfold recorded. split.
  - intros [i [j [Hij [Hj [Ek Hr]]]]]. inversion Ek. subst. exists i, j. tauto.
  - intros [i [j [Hij [Hj [-> [-> Hr]]]]]]. exists i, j. tauto.
Qed.

(** X7. Switching a rule on only adds triples: every witness that
    [get_triples] lists under a pair with [R1], [R2] is listed under the
    same pair with every setting that has on all the rules that were
    on. *)
Theorem get_triples_more_rules (G : Graph) (R1 R2 R1' R2' : bool) :
  (R1 = true -> R1' = true) -> (R2 = true -> R2' = true) ->
  exists T T', get_triples G R1 R2 = Ok T /\ get_triples G R1' R2' = Ok T'
               /\ forall k z, In z (wit T k) -> In z (wit T' k).
Proof.
  intros H1 H2.
  destruct (get_triples_spec_aux G R1 R2) as [T [E HT]].
  destruct (get_triples_spec_aux G R1' R2') as [T' [E' HT']].
  exists T, T'. split; [assumption|]. split; [assumption|].
  intros k z. rewrite HT, HT'. intros [i [j [Hij [Hj [Ek [Hz [Nx [Ny Ht]]]]]]]].
  exists i, j. split; [assumption|]. split; [assumption|]. split; [assumption|].
  split; [assumption|]. split; [assumption|]. split; [assumption|].
  now apply (is_triple_mono G _ R1 R2 R1' R2' H1 H2).
Qed.

Lemma get_triples_more_rules_witness :
  exists T T', get_triples P4 true false = Ok T /\ get_triples P4 true true = Ok T'
               /\ forall k z, In z (wit T k) -> In z (wit T' k).
Proof.
  apply (get_triples_more_rules P4 true false true true); [reflexivity | discriminate].
Defined.

(* ================================================================== *)
(** ** Restricting and converting triple sets *)
(* ================================================================== *)

Lemma In_b_filter (z : vertex) (K L : list vertex) :
  In_b z (filter (fun v => In_b v L) K) = In_b z K && In_b z L.
Proof.
  apply eq_true_iff_eq. rewrite andb_true_iff, !In_b_true, filter_In, In_b_true.
  reflexivity.
Qed.

Lemma filter_filter {X : Type} (p q : X -> bool) (l : list X) :
  filter q (filter p l) = filter (fun x => p x && q x) l.
Proof.
  induction l as [|a l IH]; simpl; [reflexivity|].
  destruct (p a); simpl; [destruct (q a)|]; now rewrite IH.
Qed.

(** X8. Restricting a triple set to [K] and then to [L] is restricting it
    to the vertices of [K] that are in [L]; keys and witness lists come
    out the same, in the same order. *)
Theorem triple_subset_twice (R : triples) (K L : list vertex) :
  triple_subset (triple_subset R K) L
  = triple_subset R (filter (fun v => In_b v L) K).
Proof.
  unfold triple_subset.
  induction R as [|[[x y] zs] R IH]; simpl; [reflexivity|].
  rewrite !In_b_filter.
  destruct (In_b x K) eqn:Ex; destruct (In_b y K) eqn:Ey; simpl;
    try (rewrite IH; destruct (In_b x L), (In_b y L); reflexivity).
  destruct (In_b x L) eqn:Ex'; destruct (In_b y L) eqn:Ey'; simpl; rewrite IH;
    try reflexivity.
  f_equal. f_equal. rewrite filter_filter. apply filter_ext. intros z.
  now rewrite In_b_filter.
Qed.

Lemma set_absent_pair (k : vertex * vertex) (a : list vertex) (d : triples) :
  ~ In k (keys_of d) -> Dict.set pair_eqb k a d = d ++ [(k, a)].
Proof.
  induction d as [|[k' a'] d IH]; simpl; intros H; [reflexivity|].
  destruct (pair_eqb k k') eqn:E.
  - apply pair_eqb_eq in E. subst. exfalso. apply H. now left.
  - rewrite IH; [reflexivity|]. intros H'. apply H. now right.
Qed.

Lemma set_middle (k : vertex * vertex) (a b : list vertex) (d1 d2 : triples) :
  ~ In k (keys_of d1) ->
  Dict.set pair_eqb k b (d1 ++ (k, a) :: d2) = d1 ++ (k, b) :: d2.
Proof.
  induction d1 as [|[k' a'] d1 IH]; simpl; intros H.
  - now rewrite pair_eqb_refl.
  - destruct (pair_eqb k k') eqn:E.
    + apply pair_eqb_eq in E. subst. exfalso. apply H. now left.
    + rewrite IH; [reflexivity|]. intros H'. apply H. now right.
Qed.

Lemma get_middle (k : vertex * vertex) (a : list vertex) (d1 d2 : triples) :
  ~ In k (keys_of d1) -> Dict.get pair_eqb k (d1 ++ (k, a) :: d2) = Some a.
Proof.
  induction d1 as [|[k' a'] d1 IH]; simpl; intros H.
  - now rewrite pair_eqb_refl.
  - destruct (pair_eqb k k') eqn:E.
    + apply pair_eqb_eq in E. subst. exfalso. apply H. now left.
    + apply IH. intros H'. apply H. now right.
Qed.

Lemma keys_blank (R : triples) : keys_of (blank R) = keys_of R.
Proof. unfold keys_of, blank. rewrite map_map. reflexivity. Qed.

Lemma blank_app (R1 R2 : triples) : blank (R1 ++ R2) = blank R1 ++ blank R2.
Proof. apply map_app. Qed.

Lemma blank_row (k : vertex * vertex) (zs : list vertex) (D1 : triples) :
  ~ In k (keys_of D1) ->
  fold_left (fun D (t : vertex * vertex * vertex) => Dict.set pair_eqb (fst t) [] D)
            (map (fun z => (k, z)) zs) (D1 ++ [(k, [])])
  = D1 ++ [(k, [])].
Proof.
  intros H. induction zs as [|z zs IH]; simpl; [reflexivity|].
  rewrite (set_middle k [] [] D1 []) by assumption. exact IH.
Qed.

Lemma blank_all (R Rdone : triples) :
  NoDup (keys_of (Rdone ++ R)) -> Forall (fun kv => snd kv <> []) R ->
  fold_left (fun D (t : vertex * vertex * vertex) => Dict.set pair_eqb (fst t) [] D)
            (triple_dict_to_list R) (blank Rdone)
  = blank (Rdone ++ R).
Proof.
  revert Rdone. induction R as [|[k zs] R IH]; intros Rdone ND HF.
  - simpl. now rewrite app_nil_r.
  - inversion HF as [|kv R' Hne HF']. subst. simpl in Hne.
    unfold triple_dict_to_list. cbn [flat_map fst snd]. rewrite fold_left_app.
    assert (Hk : ~ In k (keys_of (blank Rdone))).
    { rewrite keys_blank. unfold keys_of in *. rewrite map_app in ND.
      simpl in ND. apply NoDup_remove_2 in ND. intros H. apply ND.
      apply in_app_iff. now left. }
    destruct zs as [|z zs]; [contradiction|]. cbn [map fold_left fst].
    rewrite (set_absent_pair k [] (blank Rdone) Hk).
    rewrite (blank_row k zs (blank Rdone) Hk).
    replace (blank Rdone ++ [(k, [])]) with (blank (Rdone ++ [(k, z :: zs)]))
      by (rewrite blank_app; reflexivity).
    fold (triple_dict_to_list R). rewrite IH.
    + now rewrite <- app_assoc.
    + now rewrite <- app_assoc.
    + assumption.
Qed.

Lemma append_row (k : vertex * vertex) (zs acc : list vertex) (D1 D2 : triples) :
  ~ In k (keys_of D1) ->
  for_each (map (fun z => (k, z)) zs) append_witness (D1 ++ (k, acc) :: D2)
  = Ok (D1 ++ (k, acc ++ zs) :: D2).
Proof.
  intros H. revert acc. induction zs as [|z zs IH]; intros acc.
  - simpl. now rewrite app_nil_r.
  - cbn [map for_each]. unfold append_witness at 1. cbn [fst snd].
    rewrite (get_middle k acc D1 D2 H), (set_middle k acc (acc ++ [z]) D1 D2 H).
    cbn [bind]. rewrite IH. now rewrite <- app_assoc.
Qed.

Lemma append_all (R Rdone : triples) :
  NoDup (keys_of (Rdone ++ R)) ->
  for_each (triple_dict_to_list R) append_witness (Rdone ++ blank R)
  = Ok (Rdone ++ R).
Proof.
  revert Rdone. induction R as [|[k zs] R IH]; intros Rdone ND.
  - reflexivity.
  - unfold triple_dict_to_list. cbn [flat_map fst snd]. rewrite for_each_app.
    assert (Hk : ~ In k (keys_of Rdone)).
    { unfold keys_of in *. rewrite map_app in ND.
      simpl in ND. apply NoDup_remove_2 in ND. intros H. apply ND.
      apply in_app_iff. now left. }
    cbn [blank map fst]. rewrite (append_row k zs [] Rdone _ Hk). cbn [bind app].
    fold (triple_dict_to_list R). fold (blank R).
    replace (Rdone ++ (k, zs) :: blank R) with ((Rdone ++ [(k, zs)]) ++ blank R)
      by (rewrite <- app_assoc; reflexivity).
    rewrite IH; rewrite <- app_assoc; [reflexivity | assumption].
Qed.






Lemma no_empty_Forall (R : triples) :
  NoDup (keys_of R) -> no_empty_entry R -> Forall (fun kv => snd kv <> []) R.
Proof.
  intros ND HR. apply Forall_forall. intros [k zs] Hin. simpl.
  assert (E : wit R k = zs).
  { unfold wit. now rewrite (In_get _ _ pair_eqb_eq _ k zs R ND Hin). }
  rewrite <- E. apply HR. apply (in_map fst) in Hin. exact Hin.
Qed.

(** X9. A triple dict, its keys distinct as in any Python dict, with no
    empty witness list survives the round trip through the list of its
    triples: [triple_list_to_dict] of [triple_dict_to_list R] returns [R],
    keys and witnesses in their order. *)
Theorem triple_dict_round_trip (R : triples) :
  NoDup (keys_of R) -> no_empty_entry R ->
  triple_list_to_dict (triple_dict_to_list R) = Ok R.
Proof.
  intros ND HR. unfold triple_list_to_dict. cbv zeta.
  change (@nil (vertex * vertex * list vertex)) with (blank []).
  rewrite (blank_all R []); [|assumption|now apply no_empty_Forall].
  apply (append_all R []). assumption.
Qed.

Lemma triple_dict_round_trip_witness :
  triple_list_to_dict (triple_dict_to_list P4_triples) = Ok P4_triples.
Proof.
  apply (triple_dict_round_trip P4_triples).
  - vm_compute. repeat constructor; simpl; intuition discriminate.
  - intros k Hk. vm_compute in Hk.
    repeat (destruct Hk as [<- | Hk]; [vm_compute; discriminate|]). destruct Hk.
Defined.

Lemma In_keys_dec (k : vertex * vertex) (D : triples) :
  In k (map fst D) \/ ~ In k (map fst D).
Proof.
  destruct (Dict.mem pair_eqb k D) eqn:E.
  - left. now apply (mem_keys _ _ pair_eqb_eq).
  - right. intros H. apply (mem_keys _ _ pair_eqb_eq) in H. congruence.
Qed.

Lemma blank_fold_spec (L : list (vertex * vertex * vertex)) (D : triples) :
  NoDup (keys_of D) -> Forall (fun kv => snd kv = []) D ->
  let D' := fold_left (fun D (t : vertex * vertex * vertex) =>
                         Dict.set pair_eqb (fst t) [] D) L D in
  NoDup (keys_of D') /\ Forall (fun kv => snd kv = []) D'
  /\ forall k, In k (keys_of D') <-> In k (keys_of D) \/ In k (map fst L).
Proof.
  revert D. induction L as [|t L IH]; intros D ND HF; cbn [fold_left map].
  - split; [assumption|]. split; [assumption|]. intros k. simpl. tauto.
  - assert (ND1 : NoDup (keys_of (Dict.set pair_eqb (fst t) [] D))).
    { unfold keys_of. destruct (In_keys_dec (fst t) D) as [Hin|Hnin].
      - now rewrite (keys_set_present _ _ pair_eqb_eq).
      - rewrite (keys_set_absent _ _ pair_eqb_eq) by assumption.
        apply NoDup_app; [assumption | repeat constructor; intros [] |].
        intros k H1 [<-|[]]. contradiction. }
    assert (HF1 : Forall (fun kv => snd kv = []) (Dict.set pair_eqb (fst t) [] D)).
    { clear -HF. induction D as [|[k' a'] D IHD]; simpl.
      - repeat constructor.
      - inversion HF. subst. destruct (pair_eqb (fst t) k'); constructor; auto. }
    destruct (IH _ ND1 HF1) as [A [B C]]. split; [exact A|]. split; [exact B|].
    intros k. rewrite C. unfold keys_of.
    destruct (In_keys_dec (fst t) D) as [Hin|Hnin].
    + rewrite (keys_set_present _ _ pair_eqb_eq) by assumption. simpl.
      split; [tauto|]. intros [H|[<-|H]]; auto.
    + rewrite (keys_set_absent _ _ pair_eqb_eq) by assumption.
      rewrite in_app_iff. simpl. tauto.
Qed.

Lemma Forall_blank_wit (D : triples) (k : vertex * vertex) :
  Forall (fun kv => snd kv = []) D -> wit D k = [].
Proof.
  intros HF. unfold wit. destruct (Dict.get pair_eqb k D) as [zs|] eqn:E; [|reflexivity].
  apply (get_In _ _ pair_eqb_eq) in E. rewrite Forall_forall in HF.
  apply (HF (k, zs) E).
Qed.

Lemma triple_list_to_dict_spec (L : list (vertex * vertex * vertex)) :
  exists D, triple_list_to_dict L = Ok D
            /\ NoDup (keys_of D)
            /\ (forall k, In k (keys_of D) <-> In k (map fst L))
            /\ forall k, wit D k = map snd (filter (fun t => pair_eqb k (fst t)) L).
Proof.
  unfold triple_list_to_dict. cbv zeta.
  destruct (blank_fold_spec L []) as [ND [HF HK]]; [constructor | constructor |].
  cbv zeta in ND, HF, HK.
  set (D0 := fold_left (fun D (t : vertex * vertex * vertex) =>
                          Dict.set pair_eqb (fst t) [] D) L []) in *.
  destruct (for_each_prefix
              (fun done D => keys_of D = keys_of D0
                             /\ forall k, wit D k
                                          = map snd (filter (fun t => pair_eqb k (fst t)) done))
              append_witness L) with (s0 := D0) as [D [E [HKD HW]]].
  - intros done [k z] D [EK HWD] Hin. unfold append_witness. cbn [fst snd].
    assert (Hk : In k (keys_of D)).
    { rewrite EK. apply HK. right. apply (in_map fst) in Hin. exact Hin. }
    destruct (Dict.get pair_eqb k D) as [zs|] eqn:Eg.
    2: { apply (get_None _ _ pair_eqb_eq) in Eg. contradiction. }
    eexists. split; [reflexivity|]. split.
    + unfold keys_of in *. now rewrite (keys_set_present _ _ pair_eqb_eq).
    + intros k'. rewrite wit_set, filter_app, map_app. cbn [filter fst].
      destruct (pair_eqb k' k) eqn:Ek.
      * apply pair_eqb_eq in Ek. subst k'. rewrite <- HWD. unfold wit. now rewrite Eg.
      * simpl. now rewrite app_nil_r, HWD.
  - split; [reflexivity|]. intros k. simpl. now apply Forall_blank_wit.
  - exists D. split; [assumption|]. split; [now rewrite HKD|]. split; [|assumption].
    intros k. rewrite HKD, HK. simpl. tauto.
Qed.

Lemma In_triple_dict_to_list (D : triples) (k : vertex * vertex) (z : vertex) :
  NoDup (keys_of D) ->
  In (k, z) (triple_dict_to_list D) <-> In z (wit D k).
Proof.
  intros ND. unfold triple_dict_to_list. rewrite in_flat_map. split.
  - intros [[k' zs] [Hin Hz]]. cbn [fst snd] in Hz. apply in_map_iff in Hz.
    destruct Hz as [z' [E Hz']]. inversion E. subst.
    unfold wit. now rewrite (In_get _ _ pair_eqb_eq _ k zs D ND Hin).
  - intros Hz. unfold wit in Hz. destruct (Dict.get pair_eqb k D) as [zs|] eqn:Eg; [|destruct Hz].
    apply (get_In _ _ pair_eqb_eq) in Eg. exists (k, zs). split; [assumption|].
    cbn [fst snd]. apply in_map_iff. exists z. now split.
Qed.

(** X10. [triple_list_to_dict] returns on every list of triples, its
    [D[x, y]] lookups never miss, and the list under [(x, y)] holds the
    [z] of the triples [(x, y, z)] of the input, in the order of the
    input and with their repetitions. *)
Theorem triple_list_to_dict_groups (L : list (vertex * vertex * vertex)) :
  exists D, triple_list_to_dict L = Ok D
            /\ forall x y, wit D (x, y)
                           = map snd (filter (fun t => pair_eqb (x, y) (fst t)) L).
Proof.
  destruct (triple_list_to_dict_spec L) as [D [E [_ [_ HW]]]].
  exists D. split; [assumption|]. intros x y. apply HW.
Qed.

(** X11. The other round trip: the triples of
    [triple_dict_to_list (triple_list_to_dict L)] are the triples of
    [L]. *)
Theorem triple_list_round_trip (L : list (vertex * vertex * vertex)) :
  exists D, triple_list_to_dict L = Ok D
            /\ forall t, In t (triple_dict_to_list D) <-> In t L.
Proof.
  destruct (triple_list_to_dict_spec L) as [D [E [ND [_ HW]]]].
  exists D. split; [assumption|]. intros [k z].
  rewrite (In_triple_dict_to_list D k z ND), HW, in_map_iff. split.
  - intros [[k' z'] [Ez Hin]]. apply filter_In in Hin. destruct Hin as [Hin Ek].
    cbn [fst snd] in *. apply pair_eqb_eq in Ek. now subst.
  - intros Hin. exists (k, z). split; [reflexivity|]. apply filter_In.
    split; [assumption|]. apply pair_eqb_refl.
Qed.

(* ================================================================== *)
(** ** Union, join, path graphs and the constraint graph *)
(* ================================================================== *)

Lemma nodes_copy (g : Graph) : wf_graph g -> nodes (copy g) = nodes g.
Proof.
  intros [ND [_ [_ Hcl]]]. unfold copy.
  assert (E0 : nodes (add_nodes_from empty (nodes g)) = nodes g).
  { rewrite add_nodes_from_app; [reflexivity | assumption | intros v _ []]. }
  apply (fold_left_invariant (fun h => nodes h = nodes g)); [|exact E0].
  intros h [n nbrs] Hh Hin. cbn [fst snd].
  apply (fold_left_invariant (fun h => nodes h = nodes g)); [|exact Hh].
  intros h' [m d] Hh' Hm. cbn [fst snd].
  assert (He : has_edge g n m = true).
  { apply has_edge_neighbors. rewrite (adj_In g n nbrs ND Hin).
    apply (in_map fst) in Hm. exact Hm. }
  destruct (Hcl n m He) as [Hn Hm'].
  rewrite nodes_add_edge_present;
    [exact Hh' | rewrite Hh'; assumption | rewrite Hh'; assumption].
Qed.

Lemma has_edge_add_edges_from (g : Graph) (es : list (vertex * vertex)) (a b : vertex) :
  has_edge (add_edges_from g es) a b = true
  <-> has_edge g a b = true \/ In (a, b) es \/ In (b, a) es.
Proof. apply (add_pairs_has_edge None). Qed.

Lemma nodes_add_edges_from (g : Graph) (es : list (vertex * vertex)) (v : vertex) :
  In v (nodes (add_edges_from g es))
  <-> In v (nodes g) \/ exists e, In e es /\ (v = fst e \/ v = snd e).
Proof.
  unfold add_edges_from. revert g. induction es as [|e es IH]; intros g; cbn [fold_left].
  - split; [tauto|]. intros [H|[e [[] _]]]. assumption.
  - rewrite IH, nodes_add_edge, !In_nodes_add_node. split.
    + intros [[[H|H]|H]|[e' [H1 H2]]]; auto.
      * right. exists e. split; [now left|]. now left.
      * right. exists e. split; [now left|]. now right.
      * right. exists e'. split; [now right|]. assumption.
    + intros [H|[e' [[<-|H1] H2]]]; auto.
      * left. tauto.
      * right. exists e'. now split.
Qed.

Lemma edges_iff (g : Graph) (a b : vertex) :
  wf_graph g -> In (a, b) (edges g) \/ In (b, a) (edges g) <-> has_edge g a b = true.
Proof.
  intros Hwf. split.
  - destruct Hwf as [ND [_ [Hsym _]]].
    intros [H|H]; [|apply Hsym]; now apply edges_has_edge.
  - now apply edges_complete.
Qed.

Lemma has_edge_union (G1 G2 : Graph) (a b : vertex) :
  wf_graph G1 -> wf_graph G2 ->
  has_edge (union G1 G2) a b = has_edge G1 a b || has_edge G2 a b.
Proof.
  intros W1 W2. apply eq_true_iff_eq. unfold union. cbv zeta.
  rewrite has_edge_add_edges_from, orb_true_iff.
  unfold has_edge at 1. rewrite add_nodes_from_adj. fold (has_edge (copy G1) a b).
  rewrite (has_edge_copy G1 a b W1), <- (edges_iff G2 a b W2). tauto.
Qed.

Lemma nodes_union (G1 G2 : Graph) (v : vertex) :
  wf_graph G1 -> wf_graph G2 ->
  In v (nodes (union G1 G2)) <-> In v (nodes G1) \/ In v (nodes G2).
Proof.
  intros W1 W2. unfold union. cbv zeta.
  rewrite nodes_add_edges_from, add_nodes_from_nodes, (nodes_copy G1 W1). split.
  - intros [H|[[x y] [He [-> | ->]]]]; [tauto| |]; right; cbn [fst snd];
      destruct W2 as [ND [_ [_ Hcl]]]; apply edges_has_edge in He; try assumption;
      now apply Hcl in He.
  - tauto.
Qed.

Lemma In_cross_pairs (G1 G2 : Graph) (a b : vertex) :
  In (a, b) (cross_pairs G1 G2) <-> In a (nodes G1) /\ In b (nodes G2).
Proof.
  unfold cross_pairs. rewrite in_flat_map. split.
  - intros [x [Hx H]]. apply in_map_iff in H. destruct H as [y [E Hy]].
    inversion E. subst. now split.
  - intros [Ha Hb]. exists a. split; [assumption|]. apply in_map_iff. now exists b.
Qed.

Lemma has_edge_join (G1 G2 : Graph) (a b : vertex) :
  wf_graph G1 -> wf_graph G2 ->
  has_edge (join G1 G2) a b
  = has_edge G1 a b || has_edge G2 a b
    || (has_node G1 a && has_node G2 b) || (has_node G1 b && has_node G2 a).
Proof.
  intros W1 W2. apply eq_true_iff_eq. unfold join. cbv zeta.
  fold (cross_pairs G1 G2).
  rewrite has_edge_add_edges_from, (has_edge_union G1 G2 a b W1 W2).
  rewrite !In_cross_pairs, !orb_true_iff, !andb_true_iff. unfold has_node.
  rewrite !In_b_true. tauto.
Qed.

Lemma nodes_join (G1 G2 : Graph) (v : vertex) :
  wf_graph G1 -> wf_graph G2 ->
  In v (nodes (join G1 G2)) <-> In v (nodes G1) \/ In v (nodes G2).
Proof.
  intros W1 W2. unfold join. cbv zeta. fold (cross_pairs G1 G2).
  rewrite nodes_add_edges_from, (nodes_union G1 G2 v W1 W2). split; [|tauto].
  intros [H|[[x y] [He Hv]]]; [assumption|]. apply In_cross_pairs in He.
  cbn [fst snd] in Hv. destruct Hv as [-> | ->]; tauto.
Qed.

Lemma wf_path_graph (n label_start : nat) : wf_graph (path_graph n label_start).
Proof.
  unfold path_graph. apply fold_left_wf; [|apply wf_empty].
  intros h x. apply wf_add_edge.
Qed.

(** X12. The union of two well-formed graphs is well formed, its vertices
    are those of either graph, and two vertices are adjacent in it exactly
    when they are adjacent in one of the two. *)
Theorem union_spec (G1 G2 : Graph) :
  wf_graph G1 -> wf_graph G2 ->
  wf_graph (union G1 G2)
  /\ (forall v, In v (nodes (union G1 G2)) <-> In v (nodes G1) \/ In v (nodes G2))
  /\ forall a b, has_edge (union G1 G2) a b = has_edge G1 a b || has_edge G2 a b.
Proof.
  intros W1 W2. split; [apply wf_union|]. split.
  - intros v. now apply nodes_union.
  - intros a b. now apply has_edge_union.
Qed.

Lemma union_spec_witness :
  wf_graph (union (path_graph 2 0) (path_graph 3 5))
  /\ (forall v, In v (nodes (union (path_graph 2 0) (path_graph 3 5)))
                <-> In v (nodes (path_graph 2 0)) \/ In v (nodes (path_graph 3 5)))
  /\ forall a b, has_edge (union (path_graph 2 0) (path_graph 3 5)) a b
                 = has_edge (path_graph 2 0) a b || has_edge (path_graph 3 5) a b.
Proof.
  apply (union_spec (path_graph 2 0) (path_graph 3 5)); apply wf_path_graph.
Defined.

(** X13. The join of two well-formed graphs is well formed, has the
    vertices of both, and two vertices are adjacent in it exactly when
    they are adjacent in one of the two or one is a vertex of the first
    graph and the other a vertex of the second; a vertex of both graphs
    gets a loop. *)
Theorem join_spec (G1 G2 : Graph) :
  wf_graph G1 -> wf_graph G2 ->
  wf_graph (join G1 G2)
  /\ (forall v, In v (nodes (join G1 G2)) <-> In v (nodes G1) \/ In v (nodes G2))
  /\ forall a b, has_edge (join G1 G2) a b
                 = has_edge G1 a b || has_edge G2 a b
                   || (has_node G1 a && has_node G2 b) || (has_node G1 b && has_node G2 a).
Proof.
  intros W1 W2. split; [apply wf_join|]. split.
  - intros v. now apply nodes_join.
  - intros a b. now apply has_edge_join.
Qed.

Lemma path_edges_spec (s m : nat) :
  let g := fold_left (fun (G : Graph) (i : nat) => add_edge G i (i + 1) None)
                     (seq s m) empty in
  nodes g = (if m =? 0 then [] else seq s (S m))
  /\ forall a b, has_edge g a b = true
                 <-> (s <= a /\ b = a + 1 /\ a < s + m) \/ (s <= b /\ a = b + 1 /\ b < s + m).
Proof.
  induction m as [|m IH]; cbv zeta.
  - split; [reflexivity|]. intros a b. cbn. split; [discriminate|]. lia.
  - rewrite seq_S, fold_left_app. cbn [fold_left]. cbv zeta in IH.
    destruct IH as [HN HE].
    match type of HN with nodes ?t = _ => remember t as g eqn:Eg; clear Eg end.
    split.
    + rewrite nodes_add_edge, !nodes_add_node. unfold has_node.
      rewrite !nodes_add_node. unfold has_node. rewrite HN.
      destruct m as [|m]; cbn [Nat.eqb].
      * cbn [In_b existsb]. rewrite Nat.add_0_r. cbn [app In_b existsb].
        replace (s + 1 =? s) with false by (symmetry; apply Nat.eqb_neq; lia).
        cbn. now rewrite Nat.add_1_r.
      * assert (E1 : In_b (s + S m) (seq s (S (S m))) = true).
        { apply In_b_true. apply in_seq. lia. }
        rewrite E1.
        assert (E2 : In_b (s + S m + 1) (seq s (S (S m))) = false).
        { apply In_b_false. rewrite in_seq. lia. }
        rewrite E2. rewrite (seq_S (S (S m))). f_equal. f_equal. lia.
    + intros a b. rewrite has_edge_add_edge, !orb_true_iff, !andb_true_iff, HE.
      rewrite !Nat.eqb_eq. lia.
Qed.

Lemma join_spec_witness :
  wf_graph (join (path_graph 2 0) (path_graph 3 5))
  /\ (forall v, In v (nodes (join (path_graph 2 0) (path_graph 3 5)))
                <-> In v (nodes (path_graph 2 0)) \/ In v (nodes (path_graph 3 5)))
  /\ forall a b, has_edge (join (path_graph 2 0) (path_graph 3 5)) a b
                 = has_edge (path_graph 2 0) a b || has_edge (path_graph 3 5) a b
                   || (has_node (path_graph 2 0) a && has_node (path_graph 3 5) b)
                   || (has_node (path_graph 2 0) b && has_node (path_graph 3 5) a).
Proof.
  apply (join_spec (path_graph 2 0) (path_graph 3 5)); apply wf_path_graph.
Defined.

(** X14. [path_graph n label_start] has the vertices [label_start], ...,
    [label_start + n - 1] in this order and an edge exactly between
    consecutive ones, when [n] is two or more; for [n] zero or one it is
    the graph with no vertex at all. *)
Theorem path_graph_spec (n label_start : nat) :
  nodes (path_graph n label_start) = (if n <=? 1 then [] else seq label_start n)
  /\ forall a b, has_edge (path_graph n label_start) a b = true
                 <-> (label_start <= a /\ b = a + 1 /\ b < label_start + n)
                     \/ (label_start <= b /\ a = b + 1 /\ a < label_start + n).
Proof.
  destruct (path_edges_spec label_start (n - 1)) as [HN HE]. cbv zeta in HN, HE.
  change (path_graph n label_start)
    with (fold_left (fun (G : Graph) (i : nat) => add_edge G i (i + 1) None)
                    (seq label_start (n - 1)) empty).
  split.
  - rewrite HN. destruct n as [|[|n]]; reflexivity.
  - intros a b. rewrite HE. lia.
Qed.

(** X15. The constraint graph of a triple dict on distinct leaves [V] is
    well formed, its nodes are [V] in their order, and two leaves are
    adjacent exactly when the pair, in one order or the other, has a
    witness in the dict, inside [V] or not. *)
Theorem comp_graph_spec (R : triples) (V : list vertex) :
  NoDup (keys_of R) -> NoDup V ->
  wf_graph (comp_graph R V)
  /\ nodes (comp_graph R V) = V
  /\ forall a b, has_edge (comp_graph R V) a b = true
                 <-> In a V /\ In b V /\ (wit R (a, b) <> [] \/ wit R (b, a) <> []).
Proof.
  intros NR NV. split; [now apply comp_graph_wf|]. split; [now apply comp_graph_nodes|].
  intros a b. now apply comp_graph_has_edge.
Qed.

Lemma comp_graph_spec_witness :
  wf_graph (comp_graph P4_triples [1; 2; 3; 4])
  /\ nodes (comp_graph P4_triples [1; 2; 3; 4]) = [1; 2; 3; 4]
  /\ forall a b, has_edge (comp_graph P4_triples [1; 2; 3; 4]) a b = true
                 <-> In a [1; 2; 3; 4] /\ In b [1; 2; 3; 4]
                     /\ (wit P4_triples (a, b) <> [] \/ wit P4_triples (b, a) <> []).
Proof.
  apply (comp_graph_spec P4_triples [1; 2; 3; 4]).
  - vm_compute. repeat constructor; simpl; intuition discriminate.
  - repeat constructor; simpl; intuition discriminate.
Defined.

(* ================================================================== *)
(** ** Cographs, and the graph that BUILD_cograph returns *)
(* ================================================================== *)

Lemma p4_free_iff (g : Graph) :
  p4_free g = true
  <-> forall a b c d, In a (nodes g) -> In b (nodes g) -> In c (nodes g) -> In d (nodes g) ->
                      ~ induced_P4 g a b c d.
Proof.
  unfold p4_free. rewrite negb_true_iff. split.
  - intros H a b c d Ha Hb Hc Hd [E1 [E2 [E3 [N1 [N2 [N3 [D1 [D2 D3]]]]]]]].
    assert (X : existsb (fun a => existsb (fun b => existsb (fun c => existsb (fun d =>
       has_edge g a b && has_edge g b c && has_edge g c d
       && negb (has_edge g a c) && negb (has_edge g a d) && negb (has_edge g b d)
       && negb (Nat.eqb a c) && negb (Nat.eqb a d) && negb (Nat.eqb b d))
       (nodes g)) (nodes g)) (nodes g)) (nodes g) = true).
    { apply existsb_exists. exists a. split; [assumption|].
      apply existsb_exists. exists b. split; [assumption|].
      apply existsb_exists. exists c. split; [assumption|].
      apply existsb_exists. exists d. split; [assumption|].
      rewrite E1, E2, E3, N1, N2, N3. simpl.
      apply Nat.eqb_neq in D1, D2, D3. now rewrite D1, D2, D3. }
    congruence.
  - intros H. apply not_true_is_false. intros X.
    apply existsb_exists in X. destruct X as [a [Ha X]].
    apply existsb_exists in X. destruct X as [b [Hb X]].
    apply existsb_exists in X. destruct X as [c [Hc X]].
    apply existsb_exists in X. destruct X as [d [Hd X]].
    apply (H a b c d Ha Hb Hc Hd).
    repeat (apply andb_true_iff in X; destruct X as [X ?]).
    repeat match goal with
           | H : negb _ = true |- _ => apply negb_true_iff in H
           end.
    repeat match goal with
           | H : Nat.eqb _ _ = false |- _ => apply Nat.eqb_neq in H
           end.
    unfold induced_P4. tauto.
Qed.

Lemma p4_free_wf (g : Graph) :
  wf_graph g -> (p4_free g = true <-> forall a b c d, ~ induced_P4 g a b c d).
Proof.
  intros [_ [_ [_ Hcl]]]. rewrite p4_free_iff. split.
  - intros H a b c d P. pose proof P as [E1 [E2 [E3 _]]].
    apply (H a b c d); try assumption.
    + now apply (Hcl a b).
    + now apply (Hcl a b).
    + now apply (Hcl c d).
    + now apply (Hcl c d).
  - intros H a b c d _ _ _ _. apply H.
Qed.

Lemma induced_P4_distinct (g : Graph) (a b c d : vertex) :
  induced_P4 g a b c d -> NoDup [a; b; c; d].
Proof.
  intros [E1 [E2 [E3 [N1 [N2 [N3 [D1 [D2 D3]]]]]]]].
  assert (a <> b) by (intros ->; congruence).
  assert (b <> c) by (intros ->; congruence).
  assert (c <> d) by (intros ->; congruence).
  repeat constructor; simpl; intuition congruence.
Qed.

Lemma p4_free_small (g : Graph) :
  wf_graph g -> length (nodes g) < 4 -> p4_free g = true.
Proof.
  intros Hwf Hlen. apply (p4_free_wf g Hwf). intros a b c d P.
  pose proof (induced_P4_distinct g a b c d P) as ND.
  destruct Hwf as [_ [_ [_ Hcl]]]. destruct P as [E1 [E2 [E3 _]]].
  assert (Hi : incl [a; b; c; d] (nodes g)).
  { intros v [<-|[<-|[<-|[<-|[]]]]].
    - now apply (Hcl a b).
    - now apply (Hcl a b).
    - now apply (Hcl c d).
    - now apply (Hcl c d). }
  apply (NoDup_incl_length ND) in Hi. simpl in Hi. lia.
Qed.

Lemma p4_free_union (G1 G2 : Graph) :
  wf_graph G1 -> wf_graph G2 -> disjoint (nodes G1) (nodes G2) ->
  p4_free G1 = true -> p4_free G2 = true -> p4_free (union G1 G2) = true.
Proof.
  intros W1 W2 Hd P1 P2. apply (p4_free_wf _ (wf_union G1 G2)).
  rewrite (p4_free_wf G1 W1) in P1. rewrite (p4_free_wf G2 W2) in P2.
  intros a b c d [E1 [E2 [E3 [N1 [N2 [N3 [D1 [D2 D3]]]]]]]].
  rewrite (has_edge_union G1 G2) in E1, E2, E3, N1, N2, N3 by assumption.
  apply orb_false_iff in N1, N2, N3. apply orb_true_iff in E1, E2, E3.
  destruct W1 as [_ [_ [_ C1]]]. destruct W2 as [_ [_ [_ C2]]].
  destruct E1 as [E1|E1].
  - assert (F2 : has_edge G1 b c = true).
    { destruct E2 as [E2|E2]; [assumption|]. exfalso.
      apply (Hd b); [now apply (C1 a b) | now apply (C2 b c)]. }
    assert (F3 : has_edge G1 c d = true).
    { destruct E3 as [E3|E3]; [assumption|]. exfalso.
      apply (Hd c); [now apply (C1 b c) | now apply (C2 c d)]. }
    apply (P1 a b c d). unfold induced_P4. tauto.
  - assert (F2 : has_edge G2 b c = true).
    { destruct E2 as [E2|E2]; [|assumption]. exfalso.
      apply (Hd b); [now apply (C1 b c) | now apply (C2 a b)]. }
    assert (F3 : has_edge G2 c d = true).
    { destruct E3 as [E3|E3]; [|assumption]. exfalso.
      apply (Hd c); [now apply (C1 c d) | now apply (C2 b c)]. }
    apply (P2 a b c d). unfold induced_P4. tauto.
Qed.

Lemma join_same_side (G1 G2 : Graph) (a b : vertex) :
  wf_graph G1 -> wf_graph G2 ->
  has_edge (join G1 G2) a b = false ->
  In a (nodes G1) \/ In a (nodes G2) -> In b (nodes G1) \/ In b (nodes G2) ->
  (In a (nodes G1) /\ In b (nodes G1)) \/ (In a (nodes G2) /\ In b (nodes G2)).
Proof.
  intros W1 W2 N Ha Hb. rewrite (has_edge_join G1 G2 a b W1 W2) in N.
  repeat (apply orb_false_iff in N; destruct N as [N ?]).
  unfold has_node in *.
  destruct Ha as [Ha|Ha]; destruct Hb as [Hb|Hb]; auto; exfalso;
    apply In_b_true in Ha, Hb; rewrite Ha, Hb in *; discriminate.
Qed.

Lemma p4_free_join (G1 G2 : Graph) :
  wf_graph G1 -> wf_graph G2 -> disjoint (nodes G1) (nodes G2) ->
  p4_free G1 = true -> p4_free G2 = true -> p4_free (join G1 G2) = true.
Proof.
  intros W1 W2 Hd P1 P2. apply (p4_free_wf _ (wf_join G1 G2)).
  rewrite (p4_free_wf G1 W1) in P1. rewrite (p4_free_wf G2 W2) in P2.
  intros a b c d P. pose proof P as [E1 [E2 [E3 [N1 [N2 [N3 [D1 [D2 D3]]]]]]]].
  pose proof (wf_join G1 G2) as [_ [_ [_ CJ]]].
  assert (Ha : In a (nodes G1) \/ In a (nodes G2))
    by (apply (nodes_join G1 G2 a W1 W2); now apply (CJ a b)).
  assert (Hb : In b (nodes G1) \/ In b (nodes G2))
    by (apply (nodes_join G1 G2 b W1 W2); now apply (CJ a b)).
  assert (Hc : In c (nodes G1) \/ In c (nodes G2))
    by (apply (nodes_join G1 G2 c W1 W2); now apply (CJ c d)).
  assert (Hdd : In d (nodes G1) \/ In d (nodes G2))
    by (apply (nodes_join G1 G2 d W1 W2); now apply (CJ c d)).
  pose proof (join_same_side G1 G2 a c W1 W2 N1 Ha Hc) as S1.
  pose proof (join_same_side G1 G2 a d W1 W2 N2 Ha Hdd) as S2.
  pose proof (join_same_side G1 G2 b d W1 W2 N3 Hb Hdd) as S3.
  rewrite (has_edge_join G1 G2) in E1, E2, E3, N1, N2, N3 by assumption.
  repeat match goal with
         | H : _ || _ = false |- _ => apply orb_false_iff in H; destruct H as [H ?]
         end.
  assert (Hno : forall u v, In u (nodes G1) -> In v (nodes G1) ->
                            has_node G1 u && has_node G2 v = false).
  { intros u v Hu Hv. apply andb_false_iff. right. apply In_b_false.
    intros Hv'. now apply (Hd v). }
  assert (Hno' : forall u v, In u (nodes G2) -> In v (nodes G2) ->
                             has_node G1 u && has_node G2 v = false).
  { intros u v Hu Hv. apply andb_false_iff. left. apply In_b_false.
    intros Hu'. now apply (Hd u). }
  destruct W1 as [_ [_ [_ C1]]]. destruct W2 as [_ [_ [_ C2]]].
  assert (Hside : (In a (nodes G1) /\ In b (nodes G1) /\ In c (nodes G1) /\ In d (nodes G1))
                  \/ (In a (nodes G2) /\ In b (nodes G2) /\ In c (nodes G2) /\ In d (nodes G2))).
  { destruct S1 as [[A C]|[A C]]; destruct S2 as [[A' D]|[A' D]];
      try (exfalso; now apply (Hd a));
      destruct S3 as [[B D']|[B D']]; try (exfalso; now apply (Hd d)); tauto. }
  destruct Hside as [[A [B [C D]]]|[A [B [C D]]]].
  - apply (P1 a b c d). unfold induced_P4.
    rewrite (Hno a b), (Hno b a) in E1 by assumption.
    rewrite (Hno b c), (Hno c b) in E2 by assumption.
    rewrite (Hno c d), (Hno d c) in E3 by assumption.
    rewrite !orb_false_r in E1, E2, E3.
    assert (X : forall u v, In u (nodes G1) -> has_edge G1 u v || has_edge G2 u v = true ->
                            has_edge G1 u v = true).
    { intros u v Hu H'. apply orb_true_iff in H'. destruct H' as [H'|H']; [assumption|].
      exfalso. apply (Hd u Hu). now apply (C2 u v). }
    repeat split; auto.
  - apply (P2 a b c d). unfold induced_P4.
    rewrite (Hno' a b), (Hno' b a) in E1 by assumption.
    rewrite (Hno' b c), (Hno' c b) in E2 by assumption.
    rewrite (Hno' c d), (Hno' d c) in E3 by assumption.
    rewrite !orb_false_r in E1, E2, E3.
    assert (X : forall u v, In u (nodes G2) -> has_edge G1 u v || has_edge G2 u v = true ->
                            has_edge G2 u v = true).
    { intros u v Hu H'. apply orb_true_iff in H'. destruct H' as [H'|H']; [|assumption].
      exfalso. apply (Hd u); [|assumption]. now apply (C1 u v). }
    repeat split; auto.
Qed.

Lemma for_each_prefix_partial {X S : Type} (Q : list X -> S -> Prop)
  (body : S -> X -> outcome S) (xs : list X) :
  (forall done x rest s s', xs = done ++ x :: rest -> Q done s -> body s x = Ok s' ->
                            Q (done ++ [x]) s') ->
  forall s0 s', Q [] s0 -> for_each xs body s0 = Ok s' -> Q xs s'.
Proof.
  intros Hstep.
  assert (G : forall rest done s s',
             xs = done ++ rest -> Q done s -> for_each rest body s = Ok s' -> Q xs s').
  { induction rest as [|x rest IH]; intros done s s' E HQ Hf; cbn [for_each] in Hf.
    - inversion Hf. subst. now rewrite app_nil_r.
    - destruct (body s x) as [s1| |] eqn:E1; cbn [bind] in Hf; try discriminate.
      apply (IH (done ++ [x]) s1 s'); [|apply (Hstep done x rest s s1)|]; auto.
      rewrite <- app_assoc. exact E. }
  intros s0 s' H0 Hf. apply (G xs [] s0 s'); auto.
Qed.

Lemma NoDup_app_disj {X : Type} (l1 l2 : list X) (a : X) :
  NoDup (l1 ++ l2) -> In a l1 -> In a l2 -> False.
Proof.
  intros ND H1 H2. apply in_split in H2. destruct H2 as [p [q ->]].
  rewrite app_assoc in ND. apply NoDup_remove_2 in ND. apply ND.
  rewrite !in_app_iff. now left; left.
Qed.

Lemma BUILD_cograph_rec_cograph (fuel : nat) :
  forall (R : triples) (C : list vertex) (label : nat) (G : Graph),
    NoDup (keys_of R) -> NoDup C ->
    BUILD_cograph_rec fuel R (PyList C) label = Ok G ->
    (forall v, In v (nodes G) <-> In v C) /\ p4_free G = true.
Proof.
  induction fuel as [|fuel IH]; intros R C label G ND NC; [discriminate|].
  rewrite BUILD_cograph_rec_S. cbv zeta. unfold leaves_len, leaves_iter.
  destruct (length C =? 1) eqn:E1.
  { destruct C as [|c [|? ?]]; try discriminate.
    cbn [leaves_getitem nth_error bind as_node]. intros E. inversion E. subst.
    split; [intros v; simpl; intuition congruence|].
    apply p4_free_small; [apply wf_add_node, wf_empty | simpl; lia]. }
  destruct (length C =? 2) eqn:E2.
  { destruct C as [|a [|b [|? ?]]]; try discriminate.
    assert (Hn : nodes (add_nodes_from empty [a; b]) = [a; b]).
    { rewrite add_nodes_from_app; [reflexivity | assumption | intros v _ []]. }
    destruct (label =? 1).
    - cbn [leaves_getitem nth_error bind as_node]. intros E. injection E as E. subst G.
      change (add_node (add_node empty a) b) with (add_nodes_from empty [a; b]).
      assert (Hn' : nodes (add_edge (add_nodes_from empty [a; b]) a b None) = [a; b]).
      { rewrite nodes_add_edge_present; rewrite ?Hn; simpl; auto. }
      split; [intros v; now rewrite Hn'|].
      apply p4_free_small; [apply wf_add_edge, wf_add_nodes_from, wf_empty|].
      rewrite Hn'. simpl. lia.
    - intros E. injection E as E. subst G.
      change (add_node (add_node empty a) b) with (add_nodes_from empty [a; b]).
      split; [intros v; now rewrite Hn|].
      apply p4_free_small; [apply wf_add_nodes_from, wf_empty|]. rewrite Hn. simpl. lia. }
  pose proof (comp_graph_wf R C ND NC) as Hwf.
  pose proof (comp_graph_nodes R C NC) as Hnodes.
  destruct (length (connected_components (comp_graph R C)) =? 1); [discriminate|].
  intros Hf.
  pose proof (connected_components_spec _ Hwf) as [NDc [Hall _]]. cbv zeta in NDc, Hall.
  assert (HQ : wf_graph G
               /\ (forall v, In v (nodes G)
                             <-> In v (concat (connected_components (comp_graph R C))))
               /\ p4_free G = true).
  { revert Hf.
    apply (for_each_prefix_partial
             (fun done G => wf_graph G
                            /\ (forall v, In v (nodes G) <-> In v (concat done))
                            /\ p4_free G = true)).
    - intros done K rest G0 G1 Exs [W0 [N0 P0]] Hb.
      assert (HK : In K (connected_components (comp_graph R C))).
      { rewrite Exs. apply in_app_iff. right. now left. }
      destruct (component_facts _ Hwf K HK) as [NK _].
      assert (Hdis : disjoint (concat done) K).
      { rewrite Exs, concat_app in NDc. cbn [concat] in NDc.
        intros v H1 H2. apply (NoDup_app_disj _ _ v NDc H1).
        apply in_app_iff. now left. }
      assert (NDK : NoDup (keys_of (triple_subset R K)))
        by (apply (triple_subset_pruned R K); assumption).
      assert (Hfin : forall H, (forall v, In v (nodes H) <-> In v K) ->
                               forall v, In v (nodes G0) \/ In v (nodes H)
                                         <-> In v (concat (done ++ [K]))).
      { intros H HN v. rewrite concat_app, in_app_iff, N0, HN. cbn [concat].
        now rewrite app_nil_r. }
      destruct (label =? 1).
      + destruct (BUILD_cograph_rec fuel (triple_subset R K) (PyList K) 0)
          as [H| |] eqn:EH; cbn [bind] in Hb; try discriminate.
        inversion Hb. subst G1.
        pose proof (BUILD_cograph_rec_wf _ _ _ _ _ EH) as WH.
        destruct (IH _ _ _ _ NDK NK EH) as [HN HP].
        split; [apply wf_join|]. split.
        * intros v. rewrite (nodes_join G0 H v W0 WH). now apply Hfin.
        * apply p4_free_join; auto. intros v H1 H2. apply (Hdis v); [now apply N0|now apply HN].
      + destruct (BUILD_cograph_rec fuel (triple_subset R K) (PyList K) 1)
          as [H| |] eqn:EH; cbn [bind] in Hb; try discriminate.
        inversion Hb. subst G1.
        pose proof (BUILD_cograph_rec_wf _ _ _ _ _ EH) as WH.
        destruct (IH _ _ _ _ NDK NK EH) as [HN HP].
        split; [apply wf_union|]. split.
        * intros v. rewrite (nodes_union G0 H v W0 WH). now apply Hfin.
        * apply p4_free_union; auto. intros v H1 H2. apply (Hdis v); [now apply N0|now apply HN].
    - split; [apply wf_empty|]. split; [intros v; simpl; tauto | reflexivity]. }
  destruct HQ as [_ [HN HP]]. split; [|assumption].
  intros v. rewrite HN, <- Hall, Hnodes. tauto.
Qed.

(** X16. On a consistent triple set whose witnesses are among the
    distinct leaves [C], [BUILD_cograph] returns a cograph on [C]: a
    well-formed graph with exactly the vertices of [C] and no induced path
    on four vertices, for either label of the root. *)
Theorem BUILD_cograph_cograph (R : triples) (C : list vertex) (label : nat) :
  NoDup (keys_of R) -> NoDup C -> consistent_on R C -> witnesses_in R C ->
  exists G, BUILD_cograph R (PyList C) label = Ok G
            /\ wf_graph G
            /\ (forall v, In v (nodes G) <-> In v C)
            /\ p4_free G = true.
Proof.
  intros ND NC Hc Hw.
  destruct (BUILD_cograph_rec_returns (S (length C)) R C label) as [G E]; auto.
  exists G. split; [exact E|]. split; [now apply BUILD_cograph_rec_wf in E|].
  now apply (BUILD_cograph_rec_cograph (S (length C)) R C label G).
Qed.

Lemma example_consistent : consistent_on [((1, 2), [3])] [1; 2; 3].
Proof.
  intros C NC Hi H3. exists [1; 2], [3].
  assert (Hall : incl [1; 2; 3] C).
  { apply NoDup_length_incl; [assumption | exact H3 | assumption]. }
  split; [discriminate|]. split; [discriminate|]. split; [|split].
  - intros v. split.
    + intros Hv. apply Hi in Hv. simpl in *. tauto.
    + intros Hv. apply Hall. simpl in *. tauto.
  - intros v [<-|[<-|[]]] [E|[]]; discriminate.
  - intros x y z Hx [<-|[]] _.
    destruct Hx as [<-|[<-|[]]]; split; intros H; exact H.
Qed.

Lemma example_witnesses_in : witnesses_in [((1, 2), [3])] [1; 2; 3].
Proof.
  intros x y z Hx Hy. simpl in Hx, Hy.
  destruct Hx as [<-|[<-|[<-|[]]]]; destruct Hy as [<-|[<-|[<-|[]]]];
    unfold wit; simpl; tauto.
Qed.

Lemma BUILD_cograph_cograph_witness :
  exists G, BUILD_cograph [((1, 2), [3])] (PyList [1; 2; 3]) 0 = Ok G
            /\ wf_graph G
            /\ (forall v, In v (nodes G) <-> In v [1; 2; 3])
            /\ p4_free G = true.
Proof.
  apply (BUILD_cograph_cograph [((1, 2), [3])] [1; 2; 3] 0).
  - repeat constructor; simpl; intuition discriminate.
  - repeat constructor; simpl; intuition discriminate.
  - exact example_consistent.
  - exact example_witnesses_in.
Defined.

(* ================================================================== *)
(** ** The complement, and the graph that min_cut_edit returns *)
(* ================================================================== *)

Lemma In_complement_pairs (g : Graph) (a b : vertex) :
  NoDup (nodes g) ->
  In (a, b) (complement_pairs g)
  <-> In a (nodes g) /\ In b (nodes g) /\ a <> b /\ has_edge g a b = false.
Proof.
  intros ND. unfold complement_pairs. rewrite in_flat_map. split.
  - intros [[n nbrs] [Hin H]]. cbn [fst snd] in H. apply in_map_iff in H.
    destruct H as [m [E Hm]]. inversion E. subst n m. apply filter_In in Hm.
    destruct Hm as [Hb Hc]. apply andb_true_iff in Hc. destruct Hc as [Hc1 Hc2].
    apply negb_true_iff in Hc1, Hc2. apply Nat.eqb_neq in Hc2.
    split; [apply (in_map fst) in Hin; exact Hin|]. split; [assumption|].
    split; [assumption|]. unfold has_edge. now rewrite (adj_In g a nbrs ND Hin).
  - intros [Ha [Hb [Hab He]]]. unfold nodes in Ha. apply in_map_iff in Ha.
    destruct Ha as [[n nbrs] [En Hin]]. cbn [fst] in En. subst n.
    exists (a, nbrs). split; [assumption|]. cbn [fst snd]. apply in_map_iff.
    exists b. split; [reflexivity|]. apply filter_In. split; [assumption|].
    unfold has_edge in He. rewrite (adj_In g a nbrs ND Hin) in He. rewrite He.
    apply Nat.eqb_neq in Hab. now rewrite Hab.
Qed.

Lemma has_edge_complement (g : Graph) (a b : vertex) :
  wf_graph g ->
  has_edge (complement g) a b = true
  <-> In a (nodes g) /\ In b (nodes g) /\ a <> b /\ has_edge g a b = false.
Proof.
  intros [ND [_ [Hsym _]]]. unfold complement. fold (complement_pairs g).
  rewrite has_edge_add_edges_from, has_edge_empty_nodes, !In_complement_pairs by assumption.
  split.
  - intros [H|[H|[Hb [Ha [Hab He]]]]]; [discriminate|assumption|].
    repeat split; auto. apply not_true_is_false. intros H. apply Hsym in H. congruence.
  - intros H. right. now left.
Qed.

Lemma nodes_complement (g : Graph) : NoDup (nodes g) -> nodes (complement g) = nodes g.
Proof.
  intros ND. unfold complement. fold (complement_pairs g).
  assert (E0 : nodes (add_nodes_from empty (nodes g)) = nodes g).
  { rewrite add_nodes_from_app; [reflexivity | assumption | intros v _ []]. }
  unfold add_edges_from. fold (add_pairs None (add_nodes_from empty (nodes g))
                                         (complement_pairs g)).
  rewrite add_pairs_nodes; [exact E0|]. intros [a b] H.
  apply (In_complement_pairs g a b ND) in H. rewrite E0. cbn [fst snd]. tauto.
Qed.

Lemma p4_free_complement (g : Graph) :
  wf_graph g -> p4_free g = true -> p4_free (complement g) = true.
Proof.
  intros Hwf P. apply (p4_free_wf _ (wf_complement g)).
  rewrite (p4_free_wf g Hwf) in P.
  intros a b c d Q. pose proof (induced_P4_distinct _ a b c d Q) as NDq.
  destruct Q as [E1 [E2 [E3 [N1 [N2 [N3 [D1 [D2 D3]]]]]]]].
  apply (has_edge_complement g _ _ Hwf) in E1, E2, E3.
  destruct E1 as [Ha [Hb [Dab Fab]]]. destruct E2 as [_ [Hc [Dbc Fbc]]].
  destruct E3 as [_ [Hd [Dcd Fcd]]].
  assert (X : forall u v, In u (nodes g) -> In v (nodes g) -> u <> v ->
                          has_edge (complement g) u v = false -> has_edge g u v = true).
  { intros u v Hu Hv Huv H. destruct (has_edge g u v) eqn:E; [reflexivity|].
    exfalso. assert (has_edge (complement g) u v = true); [|congruence].
    apply (has_edge_complement g u v Hwf). tauto. }
  pose proof (X a c Ha Hc D1 N1) as Tac.
  pose proof (X a d Ha Hd D2 N2) as Tad.
  pose proof (X b d Hb Hd D3 N3) as Tbd.
  destruct Hwf as [_ [_ [Hsym _]]].
  assert (Fba : has_edge g b a = false).
  { apply not_true_is_false. intros H. apply Hsym in H. congruence. }
  assert (Fdc : has_edge g d c = false).
  { apply not_true_is_false. intros H. apply Hsym in H. congruence. }
  apply (P b d a c). unfold induced_P4. repeat split; auto.
Qed.

Lemma min_cut_edit_returns_cograph (O : Oracles) (G : Graph) (half_cut R1 R2 : bool) :
  valid_oracles O -> NoDup (nodes G) -> 3 <= length (nodes G) ->
  exists H, min_cut_edit O G half_cut R1 R2 = Ok H
            /\ wf_graph H
            /\ (forall v, In v (nodes H) <-> In v (nodes G))
            /\ p4_free H = true.
Proof.
  intros HO NG H3. unfold min_cut_edit.
  destruct (get_triples_inv G R1 R2) as [T [ET HT]]. rewrite ET. cbn [bind].
  destruct (triples_inv_canonical G T NG HT) as [Hc Hw].
  unfold min_cut_split, BUILD_cograph, leaves_len, leaves_iter.
  destruct (min_cut_split_rec_spec O HO half_cut (S (length (nodes G))) T (nodes G)
              true Hc NG) as [R' [E1 [P Hcons]]]; [lia|].
  rewrite E1. cbn [bind]. rewrite (BUILD_cograph_node_view _ R' G 0 H3).
  assert (ND' : NoDup (keys_of R')) by (apply P; apply Hc).
  destruct (BUILD_cograph_rec_returns (S (length (nodes G))) R' (nodes G) 0)
    as [H E2]; auto.
  { now apply (witnesses_pruned R' T). }
  rewrite E2. cbn [bind].
  pose proof (BUILD_cograph_rec_wf _ _ _ _ _ E2) as WH.
  destruct (BUILD_cograph_rec_cograph _ _ _ _ _ ND' NG E2) as [HN HP].
  destruct (n_edits G H <? n_edits G (complement H)).
  - exists H. split; [reflexivity|]. split; [assumption|]. split; assumption.
  - exists (complement H). split; [reflexivity|]. split; [apply wf_complement|].
    split.
    + intros v. rewrite nodes_complement; [apply HN | apply WH].
    + now apply p4_free_complement.
Qed.

(** X17. With cut oracles that keep their contract, [min_cut_edit] returns
    a cograph on the vertices of [G] for every graph [G] with three or
    more distinct vertices: a well-formed graph with the same vertex set
    and no induced path on four vertices, whichever of the candidate and
    its complement is chosen. *)
Theorem min_cut_edit_cograph (O : Oracles) (G : Graph) (half_cut R1 R2 : bool) :
  valid_oracles O -> NoDup (nodes G) -> 3 <= length (nodes G) ->
  exists H, min_cut_edit O G half_cut R1 R2 = Ok H
            /\ wf_graph H
            /\ (forall v, In v (nodes H) <-> In v (nodes G))
            /\ p4_free H = true.
Proof. apply min_cut_edit_returns_cograph. Qed.

Lemma min_cut_edit_cograph_witness :
  exists H, min_cut_edit (example_oracles no_shuffle) P4 false true true = Ok H
            /\ wf_graph H
            /\ (forall v, In v (nodes H) <-> In v (nodes P4))
            /\ p4_free H = true.
Proof.
  apply (min_cut_edit_cograph (example_oracles no_shuffle) P4 false true true).
  - apply example_oracles_valid.
  - exact (proj1 (wf_path_graph 4 1)).
  - simpl. lia.
Defined.

(* ================================================================== *)
(** ** Edit counts, min_cut_split and the toggle of an edge *)
(* ================================================================== *)

Lemma filter_nil_iff {X : Type} (p : X -> bool) (l : list X) :
  length (filter p l) = 0 <-> forall x, In x l -> p x = false.
Proof.
  induction l as [|a l IH]; simpl.
  - split; [intros _ x [] | reflexivity].
  - destruct (p a) eqn:E; simpl.
    + split; [discriminate|]. intros H. specialize (H a (or_introl eq_refl)). congruence.
    + rewrite IH. split.
      * intros H x [<-|Hx]; auto.
      * intros H x Hx. apply H. now right.
Qed.

Lemma n_deletions_zero (G H : Graph) :
  wf_graph G -> wf_graph H ->
  n_deletions G H = 0 <-> forall a b, has_edge G a b = true -> has_edge H a b = true.
Proof.
  intros WG WH. unfold n_deletions. rewrite filter_nil_iff. split.
  - intros HF a b E. destruct (edges_complete G a b WG E) as [Hin|Hin].
    + specialize (HF _ Hin). cbn [fst snd] in HF. now apply negb_false_iff in HF.
    + specialize (HF _ Hin). cbn [fst snd] in HF. apply negb_false_iff in HF.
      destruct WH as [_ [_ [Hsym _]]]. now apply Hsym.
  - intros HF [a b] Hin. cbn [fst snd]. apply negb_false_iff. apply HF.
    destruct WG as [ND _]. now apply edges_has_edge.
Qed.

(** X18. Between well-formed graphs, [n_edits] is zero exactly when the
    two graphs have the same edges; the vertex sets do not count. *)
Theorem n_edits_zero (G H : Graph) :
  wf_graph G -> wf_graph H ->
  n_edits G H = 0 <-> forall a b, has_edge G a b = has_edge H a b.
Proof.
  intros WG WH. rewrite n_edits_deletions.
  pose proof (n_deletions_zero G H WG WH) as D1.
  pose proof (n_deletions_zero H G WH WG) as D2. split.
  - intros E. assert (E1 : n_deletions G H = 0) by lia.
    assert (E2 : n_deletions H G = 0) by lia.
    pose proof (proj1 D1 E1) as F1. pose proof (proj1 D2 E2) as F2.
    intros a b. apply eq_true_iff_eq. split; auto.
  - intros E. assert (E1 : n_deletions G H = 0).
    { apply D1. intros a b. now rewrite E. }
    assert (E2 : n_deletions H G = 0).
    { apply D2. intros a b. now rewrite E. }
    lia.
Qed.

Lemma In_pair_In (e : vertex * vertex) (l : list (vertex * vertex)) :
  In_pair e l = true <-> In e l.
Proof.
  unfold In_pair. rewrite existsb_exists. split.
  - intros [x [Hx E]]. apply pair_eqb_eq in E. now subst.
  - intros H. exists e. split; [assumption | apply pair_eqb_refl].
Qed.

Lemma pair_set_In (e : vertex * vertex) (E : list (vertex * vertex)) :
  In e (pair_set E) <-> In e E.
Proof.
  induction E as [|a E IH]; simpl; [tauto|].
  destruct (In_pair a E) eqn:Ea.
  - rewrite IH. apply In_pair_In in Ea. split; [tauto|]. intros [<-|H]; auto.
  - simpl. rewrite IH. tauto.
Qed.

Lemma n_edits_zero_witness :
  n_edits P4 (copy P4) = 0 <-> forall a b, has_edge P4 a b = has_edge (copy P4) a b.
Proof. apply (n_edits_zero P4 (copy P4)); [apply (wf_path_graph 4 1) | apply wf_copy]. Defined.

(** X19. [n_sub_edits] is zero exactly when the two edge lists hold the
    same tuples: it compares the tuples as they are written, so an edge
    listed as [(x, y)] on one side and [(y, x)] on the other counts. *)
Theorem n_sub_edits_zero (E E_edited : list (vertex * vertex)) :
  n_sub_edits E E_edited = 0 <-> forall e, In e E <-> In e E_edited.
Proof.
  unfold n_sub_edits. cbv zeta. split.
  - intros H.
    assert (H1 : length (filter (fun e => negb (In_pair e E)) (pair_set E_edited)) = 0)
      by lia.
    assert (H2 : length (filter (fun e => negb (In_pair e E_edited)) (pair_set E)) = 0)
      by lia.
    rewrite filter_nil_iff in H1, H2. intros e. split; intros He.
    + apply In_pair_In. apply negb_false_iff. apply H2. now apply pair_set_In.
    + apply In_pair_In. apply negb_false_iff. apply H1. now apply pair_set_In.
  - intros H.
    assert (H1 : length (filter (fun e => negb (In_pair e E)) (pair_set E_edited)) = 0).
    { apply filter_nil_iff. intros e He. apply negb_false_iff, In_pair_In, H.
      now apply pair_set_In. }
    assert (H2 : length (filter (fun e => negb (In_pair e E_edited)) (pair_set E)) = 0).
    { apply filter_nil_iff. intros e He. apply negb_false_iff, In_pair_In, H.
      now apply pair_set_In. }
    lia.
Qed.

(** X20. With cut oracles that keep their contract, [min_cut_split] on a
    canonical triple dict and distinct leaves returns a dict that is
    consistent on the leaves and has nothing new: its keys are keys of the
    input, every witness of a pair is a witness of the pair in the input,
    and it is canonical again; with [init] on or off. *)
Theorem min_cut_split_prunes (O : Oracles) (R : triples) (L : list vertex)
  (half_cut init : bool) :
  valid_oracles O -> canonical R -> NoDup L ->
  exists R', min_cut_split O R L half_cut init = Ok R'
             /\ pruned R' R /\ canonical R' /\ consistent_on R' L.
Proof.
  intros HO Hc NL. unfold min_cut_split.
  destruct (min_cut_split_rec_spec O HO half_cut (S (length L)) R L init Hc NL)
    as [R' [E [P C]]]; [lia|].
  exists R'. split; [assumption|]. split; [assumption|]. split; [|assumption].
  now apply (pruned_canonical R' R).
Qed.

Lemma p4_free_ext (g g' : Graph) :
  wf_graph g -> wf_graph g' -> (forall a b, has_edge g' a b = has_edge g a b) ->
  p4_free g' = p4_free g.
Proof.
  intros W W' E. apply eq_true_iff_eq. rewrite (p4_free_wf g W), (p4_free_wf g' W').
  unfold induced_P4. split; intros H a b c d.
  - rewrite <- !E. apply H.
  - rewrite !E. apply H.
Qed.

Lemma toggle_edge_returns (O : Oracles) (T : Graph) (x y : vertex) :
  wf_graph T ->
  exists T', toggle_edge O T (x, y) = Ok T' /\ wf_graph T'
             /\ (forall a b, (a, b) <> (x, y) -> (a, b) <> (y, x) ->
                             has_edge T' a b = has_edge T a b)
             /\ ((forall a b, has_edge T' a b = has_edge T a b)
                 \/ recognition O T' = true).
Proof.
  intros WT. unfold toggle_edge.
  set (pat := fun a b => (Nat.eqb a x && Nat.eqb b y) || (Nat.eqb a y && Nat.eqb b x)).
  assert (Hother : forall a b, (a, b) <> (x, y) -> (a, b) <> (y, x) -> pat a b = false).
  { intros a b N1 N2. apply orb_false_iff. split; apply andb_false_iff.
    - destruct (Nat.eqb a x) eqn:E1; [|now left]. right. apply Nat.eqb_eq in E1.
      apply Nat.eqb_neq. intros ->. now subst.
    - destruct (Nat.eqb a y) eqn:E1; [|now left]. right. apply Nat.eqb_eq in E1.
      apply Nat.eqb_neq. intros ->. now subst. }
  assert (Hpat : forall a b, pat a b = true -> has_edge T a b = has_edge T x y).
  { intros a b Hp. apply orb_true_iff in Hp.
    destruct Hp as [Hp|Hp]; apply andb_true_iff in Hp; destruct Hp as [Ha Hb];
      apply Nat.eqb_eq in Ha, Hb; subst; [reflexivity|].
    destruct WT as [_ [_ [Hs _]]]. apply eq_true_iff_eq. split; apply Hs. }
  assert (Hadd : forall g a b, has_edge (add_edge g x y None) a b = has_edge g a b || pat a b).
  { intros g a b. rewrite has_edge_add_edge. unfold pat. now rewrite orb_assoc. }
  destruct (has_edge T x y) eqn:Exy.
  - destruct (remove_edge_spec T x y WT Exy) as [T1 [E1 [W1 H1]]]. rewrite E1. cbn [bind].
    fold pat in H1. destruct (negb (recognition O T1)) eqn:Er.
    + eexists. split; [reflexivity|]. split; [now apply wf_add_edge|].
      assert (Hsame : forall a b, has_edge (add_edge T1 x y None) a b = has_edge T a b).
      { intros a b. rewrite Hadd, (H1 a b).
        change ((a =? x) && (b =? y) || (a =? y) && (b =? x)) with (pat a b).
        destruct (pat a b) eqn:Ep.
        - rewrite (Hpat a b Ep). reflexivity.
        - destruct (has_edge T a b); reflexivity. }
      split; [intros a b _ _; apply Hsame | left; exact Hsame].
    + exists T1. split; [reflexivity|]. split; [assumption|]. split.
      * intros a b N1 N2. rewrite (H1 a b).
        change ((a =? x) && (b =? y) || (a =? y) && (b =? x)) with (pat a b).
        rewrite (Hother a b N1 N2).
        destruct (has_edge T a b); reflexivity.
      * right. now apply negb_false_iff in Er.
  - assert (W1 : wf_graph (add_edge T x y None)) by now apply wf_add_edge.
    assert (Eadd : has_edge (add_edge T x y None) x y = true).
    { rewrite has_edge_add_edge, !Nat.eqb_refl. simpl. now rewrite orb_true_r. }
    destruct (negb (recognition O (add_edge T x y None))) eqn:Er.
    + destruct (remove_edge_spec _ x y W1 Eadd) as [T2 [E2 [W2 H2]]]. fold pat in H2.
      exists T2. split; [assumption|]. split; [assumption|].
      assert (Hsame : forall a b, has_edge T2 a b = has_edge T a b).
      { intros a b. rewrite (H2 a b), Hadd.
        change ((a =? x) && (b =? y) || (a =? y) && (b =? x)) with (pat a b).
        destruct (pat a b) eqn:Ep.
        - rewrite (Hpat a b Ep). reflexivity.
        - destruct (has_edge T a b); reflexivity. }
      split; [intros a b _ _; apply Hsame | left; exact Hsame].
    + eexists. split; [reflexivity|]. split; [assumption|]. split.
      * intros a b N1 N2. rewrite Hadd, (Hother a b N1 N2). apply orb_false_r.
      * right. now apply negb_false_iff in Er.
Qed.

Lemma min_cut_split_prunes_witness :
  exists R', min_cut_split (example_oracles no_shuffle) P4_triples [1; 2; 3; 4] false true
             = Ok R'
             /\ pruned R' P4_triples /\ canonical R' /\ consistent_on R' [1; 2; 3; 4].
Proof.
  apply (min_cut_split_prunes (example_oracles no_shuffle) P4_triples [1; 2; 3; 4] false true).
  - apply example_oracles_valid.
  - exact P4_triples_canonical.
  - repeat constructor; simpl; intuition discriminate.
Defined.

(** X21. One step of the local search of [minimal_graph_cut] on a
    well-formed graph raises nothing (the edge it removes is there),
    returns a well-formed graph, touches no edge but [x-y], and keeps the
    change only when the recogniser accepts the changed graph: the graph
    it returns either has the edges it started with or is accepted. *)
Theorem toggle_edge_spec (O : Oracles) (T : Graph) (x y : vertex) :
  wf_graph T ->
  exists T', toggle_edge O T (x, y) = Ok T' /\ wf_graph T'
             /\ (forall a b, (a, b) <> (x, y) -> (a, b) <> (y, x) ->
                             has_edge T' a b = has_edge T a b)
             /\ ((forall a b, has_edge T' a b = has_edge T a b)
                 \/ recognition O T' = true).
Proof. apply toggle_edge_returns. Qed.

Lemma toggle_edge_spec_witness :
  exists T', toggle_edge (example_oracles no_shuffle) P4 (1, 3) = Ok T' /\ wf_graph T'
             /\ (forall a b, (a, b) <> (1, 3) -> (a, b) <> (3, 1) ->
                             has_edge T' a b = has_edge P4 a b)
             /\ ((forall a b, has_edge T' a b = has_edge P4 a b)
                 \/ recognition (example_oracles no_shuffle) T' = true).
Proof.
  apply (toggle_edge_spec (example_oracles no_shuffle) P4 1 3).
  apply (wf_path_graph 4 1).
Defined.

(* ================================================================== *)
(** ** The graph that direct_graph_cut returns *)
(* ================================================================== *)

Lemma nodes_skeleton (g : Graph) : nodes g = map fst (skeleton g).
Proof. unfold nodes, skeleton. now rewrite map_map. Qed.

Lemma adj_skeleton (g : Graph) (a : vertex) :
  map fst (adj g a)
  = match Dict.get Nat.eqb a (skeleton g) with Some l => l | None => [] end.
Proof.
  unfold adj. induction g as [|[n nbrs] g IH]; [reflexivity|].
  cbn [skeleton map fst snd Dict.get]. destruct (Nat.eqb a n); [reflexivity|]. exact IH.
Qed.

Section Skeleton.
Variables g g' : Graph.
Hypothesis Hsk : skeleton g' = skeleton g.

Lemma skeleton_nodes : nodes g' = nodes g.
Proof. now rewrite !nodes_skeleton, Hsk. Qed.

Lemma skeleton_adj (a : vertex) : map fst (adj g' a) = map fst (adj g a).
Proof. now rewrite !adj_skeleton, Hsk. Qed.

Lemma skeleton_has_edge (a b : vertex) : has_edge g' a b = has_edge g a b.
Proof. unfold has_edge. now rewrite !dict_mem_keys, skeleton_adj. Qed.

Lemma skeleton_wf : wf_graph g -> wf_graph g'.
Proof.
  intros [ND [AN [Hs Hc]]]. split; [now rewrite skeleton_nodes|]. split; [|split].
  - intros a. rewrite skeleton_adj. apply AN.
  - intros a b. rewrite !skeleton_has_edge. apply Hs.
  - intros a b. rewrite skeleton_has_edge, skeleton_nodes. apply Hc.
Qed.




End Skeleton.

Lemma edges_from_skeleton (g g' : Graph) (seen : list vertex) :
  skeleton g' = skeleton g -> edges_from seen g' = edges_from seen g.
Proof.
  revert g' seen. induction g as [|[n nbrs] g IH]; intros [|[n' nbrs'] g'] seen E;
    try discriminate; [reflexivity|].
  cbn [skeleton map fst snd] in E. injection E as En Ea Eg. subst n'.
  cbn [edges_from]. rewrite (IH g' (n :: seen) Eg). f_equal.
  assert (X : forall l : adjacency,
             map (fun md => (n, fst md)) (filter (fun md => negb (In_b (fst md) seen)) l)
             = map (fun m => (n, m)) (filter (fun m => negb (In_b m seen)) (map fst l))).
  { induction l as [|[m d] l IHl]; [reflexivity|]. cbn [filter map fst].
    destruct (negb (In_b m seen)); cbn [map fst]; now rewrite IHl. }
  now rewrite !X, Ea.
Qed.

Lemma skeleton_edges (g g' : Graph) : skeleton g' = skeleton g -> edges g' = edges g.
Proof. apply edges_from_skeleton. Qed.

Lemma skeleton_set (g : Graph) (u : vertex) (x : adjacency) :
  In u (nodes g) -> map fst x = map fst (adj g u) ->
  skeleton (Dict.set Nat.eqb u x g) = skeleton g.
Proof.
  unfold adj. induction g as [|[n a] g IH]; intros Hin Hx; [destruct Hin|].
  cbn [Dict.set Dict.get] in *. destruct (Nat.eqb u n) eqn:E.
  - cbn [skeleton map fst snd]. now rewrite Hx.
  - cbn [skeleton map fst snd]. f_equal. apply IH; [|assumption].
    destruct Hin as [Hin|Hin]; [|assumption]. cbn [fst] in Hin. subst n.
    now rewrite Nat.eqb_refl in E.
Qed.

Lemma set_weight_skeleton (g : Graph) (u v : vertex) (w : nat) :
  wf_graph g -> has_edge g u v = true ->
  exists g', set_weight g u v w = Ok g' /\ skeleton g' = skeleton g.
Proof.
  intros [ND [AN [Hs Hc]]] He. unfold set_weight. rewrite He.
  eexists. split; [reflexivity|].
  destruct (Hc u v He) as [Hu Hv].
  assert (K1 : map fst (Dict.set Nat.eqb v (Some w) (adj g u)) = map fst (adj g u)).
  { apply (keys_set_present _ _ Nat.eqb_eq). now apply has_edge_neighbors. }
  pose proof (skeleton_set g u _ Hu K1) as S1.
  etransitivity; [|exact S1]. apply skeleton_set.
  - rewrite (skeleton_nodes _ _ S1). exact Hv.
  - rewrite (keys_set_present _ _ Nat.eqb_eq); [reflexivity|].
    rewrite (skeleton_adj _ _ S1). apply has_edge_neighbors. now apply Hs.
Qed.








Lemma filter_length_lt {X : Type} (p : X -> bool) (l : list X) (x : X) :
  In x l -> p x = false -> length (filter p l) < length l.
Proof.
  assert (Hle : forall l', length (filter p l') <= length l').
  { induction l' as [|a l' IH']; [apply Nat.le_refl|]. cbn [filter length].
    destruct (p a); cbn [length]; lia. }
  induction l as [|a l IH]; intros Hin Hp; [destruct Hin|]. cbn [filter length].
  destruct Hin as [->|Hin].
  - rewrite Hp. specialize (Hle l). lia.
  - specialize (IH Hin Hp). destruct (p a); cbn [length]; lia.
Qed.

Section DirectGraphCut.
Variable O : Oracles.
Hypothesis HO : valid_oracles O.
Hypothesis HR : recognises_cographs O.
Variables half_cut R1 R2 : bool.


End DirectGraphCut.


Lemma recognises_example (sh : nat -> list (vertex * vertex) -> list (vertex * vertex)) :
  recognises_cographs (example_oracles sh).
Proof. intros g. reflexivity. Qed.


(* ================================================================== *)
(** ** The weights of direct_graph_cut *)
(* ================================================================== *)

Lemma touches_iff (x y a b : vertex) :
  touches x y a b = true <-> (a, b) = (x, y) \/ (b, a) = (x, y).
Proof.
  unfold touches. rewrite orb_true_iff, !andb_true_iff, !Nat.eqb_eq. split.
  - intros [[-> ->]|[-> ->]]; auto.
  - intros [E|E]; inversion E; auto.
Qed.

Lemma touches_sym (x y a b : vertex) : touches x y a b = touches x y b a.
Proof. apply eq_true_iff_eq. rewrite !touches_iff. tauto. Qed.

Lemma set_weight_data (g : Graph) (u v : vertex) (w : nat) (g' : Graph) :
  set_weight g u v w = Ok g' ->
  forall a b, edge_data g' a b
              = if touches u v a b then Some (Some w) else edge_data g a b.
Proof.
  unfold set_weight. destruct (has_edge g u v); [|discriminate].
  intros E. injection E as E. subst g'. intros a b. unfold edge_data, touches.
  rewrite !adj_set.
  destruct (Nat.eqb a v) eqn:Eav.
  - rewrite get_set_vertex. destruct (Nat.eqb b u) eqn:Ebu.
    + now rewrite andb_true_r, orb_true_r.
    + rewrite andb_false_r, orb_false_r. apply Nat.eqb_eq in Eav. subst a.
      destruct (Nat.eqb v u) eqn:Evu; [|reflexivity].
      apply Nat.eqb_eq in Evu. subst v. rewrite Ebu. cbn [andb].
      now rewrite get_set_vertex, Ebu.
  - cbn [andb]. rewrite orb_false_r. destruct (Nat.eqb a u) eqn:Eau.
    + rewrite get_set_vertex. apply Nat.eqb_eq in Eau. subst a.
      destruct (Nat.eqb b v); reflexivity.
    + reflexivity.
Qed.

Lemma mem_app_fresh (k k' : vertex * vertex) (zs : list vertex) (d : triples) :
  Dict.mem pair_eqb k (d ++ [(k', zs)]) = Dict.mem pair_eqb k d || pair_eqb k k'.
Proof.
  unfold Dict.mem. induction d as [|[k0 a0] d IH]; cbn [app Dict.get].
  - destruct (pair_eqb k k'); reflexivity.
  - destruct (pair_eqb k k0); [reflexivity|]. exact IH.
Qed.

Lemma wit_app_fresh (k k' : vertex * vertex) (zs : list vertex) (d : triples) :
  wit (d ++ [(k', zs)]) k
  = if Dict.mem pair_eqb k d then wit d k else if pair_eqb k k' then zs else [].
Proof.
  unfold wit, Dict.mem. induction d as [|[k0 a0] d IH]; cbn [app Dict.get].
  - destruct (pair_eqb k k'); reflexivity.
  - destruct (pair_eqb k k0); [reflexivity|]. exact IH.
Qed.

Lemma witness_count_app (done : triples) (x y : vertex) (zs : list vertex) (a b : vertex) :
  ~ In (x, y) (keys_of done) -> ~ In (y, x) (keys_of done) ->
  witness_count (done ++ [((x, y), zs)]) a b
  = if touches x y a b then Some (length zs) else witness_count done a b.
Proof.
  intros N1 N2. unfold witness_count. rewrite !mem_app_fresh, !wit_app_fresh.
  destruct (touches x y a b) eqn:Et.
  - apply touches_iff in Et.
    assert (M1 : Dict.mem pair_eqb (a, b) done = false).
    { apply not_true_is_false. intros H. apply (mem_keys _ _ pair_eqb_eq) in H.
      destruct Et as [E|E]; inversion E; subst; contradiction. }
    assert (M2 : Dict.mem pair_eqb (b, a) done = false).
    { apply not_true_is_false. intros H. apply (mem_keys _ _ pair_eqb_eq) in H.
      destruct Et as [E|E]; inversion E; subst; contradiction. }
    rewrite M1, M2. cbn [orb].
    destruct (pair_eqb (a, b) (x, y)) eqn:E1; [reflexivity|].
    destruct (pair_eqb (b, a) (x, y)) eqn:E2; [reflexivity|].
    apply pair_eqb_neq in E1, E2. tauto.
  - assert (E1 : pair_eqb (a, b) (x, y) = false).
    { apply pair_eqb_neq. intros E. rewrite (proj2 (touches_iff x y a b)) in Et; auto.
      discriminate. }
    assert (E2 : pair_eqb (b, a) (x, y) = false).
    { apply pair_eqb_neq. intros E. rewrite (proj2 (touches_iff x y a b)) in Et; auto.
      discriminate. }
    rewrite E1, E2, !orb_false_r.
    destruct (Dict.mem pair_eqb (a, b) done); [reflexivity|].
    destruct (Dict.mem pair_eqb (b, a) done); reflexivity.
Qed.

Lemma witness_count_sym (R : triples) (a b : vertex) :
  canonical R -> witness_count R a b = witness_count R b a.
Proof.
  intros [_ Hc]. unfold witness_count.
  destruct (Dict.mem pair_eqb (a, b) R) eqn:M1;
    destruct (Dict.mem pair_eqb (b, a) R) eqn:M2; try reflexivity.
  apply (mem_keys _ _ pair_eqb_eq) in M1, M2.
  assert (a = b) by now apply Hc. now subst.
Qed.

Section Weigh.
Variable G : Graph.
Hypothesis WG : wf_graph G.
Hypothesis SG : data_symmetric G.
Variable R : triples.
Hypothesis HR : canonical R.

Lemma weigh_first_loop :
  exists G1,
    for_each R
      (fun G kv =>
         if has_edge G (fst (fst kv)) (snd (fst kv))
         then set_weight G (fst (fst kv)) (snd (fst kv)) (length (snd kv))
         else Ok G)
      G = Ok G1
    /\ weighted_by G R G1.
Proof.
  assert (Hsplit : forall done x y zs rest, R = done ++ ((x, y), zs) :: rest ->
                     ~ In (x, y) (keys_of done) /\ ~ In (y, x) (keys_of done)).
  { intros done x y zs rest E. destruct HR as [ND Hc]. unfold keys_of in *.
    rewrite E, map_app in ND. cbn [map fst] in ND.
    pose proof (NoDup_remove_2 _ _ _ ND) as Hn.
    assert (N1 : ~ In (x, y) (map fst done)).
    { intros H. apply Hn. apply in_app_iff. now left. }
    split; [assumption|]. intros H.
    assert (x = y).
    { apply Hc; rewrite E, map_app, in_app_iff; cbn [map fst].
      - right. now left.
      - now left. }
    subst. contradiction. }
  assert (Gen : forall rest done G',
             R = done ++ rest -> weighted_by G done G' ->
             exists G1,
               for_each rest
                 (fun G kv =>
                    if has_edge G (fst (fst kv)) (snd (fst kv))
                    then set_weight G (fst (fst kv)) (snd (fst kv)) (length (snd kv))
                    else Ok G)
                 G' = Ok G1
               /\ weighted_by G R G1).
  { induction rest as [|[[x y] zs] rest IH]; intros done G' E [S' D'].
    - exists G'. split; [reflexivity|]. rewrite app_nil_r in E. subst done. now split.
    - cbn [for_each fst snd].
      destruct (Hsplit done x y zs rest E) as [N1 N2].
      assert (E' : R = (done ++ [((x, y), zs)]) ++ rest)
        by (rewrite <- app_assoc; exact E).
      rewrite (skeleton_has_edge _ _ S').
      destruct (has_edge G x y) eqn:Exy.
      + destruct (set_weight_skeleton G' x y (length zs) (skeleton_wf _ _ S' WG))
          as [G'' [E'' S'']]; [now rewrite (skeleton_has_edge _ _ S')|].
        rewrite E''. cbn [bind]. apply (IH (done ++ [((x, y), zs)]) G'' E').
        split; [now rewrite S''|]. intros a b.
        rewrite (set_weight_data G' x y (length zs) G'' E'' a b), D'.
        rewrite (witness_count_app done x y zs a b N1 N2).
        destruct (touches x y a b) eqn:Et; [|reflexivity].
        assert (Hab : has_edge G a b = true).
        { apply touches_iff in Et. destruct Et as [Et|Et]; inversion Et; subst;
            [assumption|]. destruct WG as [_ [_ [Hs _]]]. now apply Hs. }
        now rewrite Hab.
      + cbn [bind]. apply (IH (done ++ [((x, y), zs)]) G' E').
        split; [assumption|]. intros a b. rewrite D'.
        rewrite (witness_count_app done x y zs a b N1 N2).
        destruct (touches x y a b) eqn:Et; [|reflexivity].
        assert (Hab : has_edge G a b = false).
        { apply touches_iff in Et. destruct Et as [Et|Et]; inversion Et; subst;
            [assumption|]. apply not_true_is_false. intros H.
          destruct WG as [_ [_ [Hs _]]]. apply Hs in H. congruence. }
        now rewrite Hab. }
  apply (Gen R [] G); [reflexivity|]. split; [reflexivity|].
  intros a b. unfold witness_count. cbn. now destruct (has_edge G a b).
Qed.


Lemma weighted_symmetric (G1 : Graph) : weighted_by G R G1 -> data_symmetric G1.
Proof.
  intros [_ D] a b. rewrite !D, (witness_count_sym R a b HR), (SG a b).
  assert (E : has_edge G a b = has_edge G b a).
  { destruct WG as [_ [_ [Hs _]]]. apply eq_true_iff_eq. split; apply Hs. }
  now rewrite E.
Qed.

Lemma weigh_second_loop (G1 : Graph) :
  wf_graph G1 -> data_symmetric G1 ->
  exists G2,
    for_each (edges G1)
      (fun G e =>
         w <- has_weight G (fst e) (snd e) ;;
         if negb w then set_weight G (fst e) (snd e) 0 else Ok G)
      G1 = Ok G2
    /\ zeroed_by G1 (edges G1) G2.
Proof.
  intros W1 S1.
  apply (for_each_prefix (zeroed_by G1)).
  - intros done [x y] G' [S' D'] Hin. cbn [fst snd].
    assert (He1 : has_edge G1 x y = true).
    { destruct W1 as [ND _]. now apply edges_has_edge. }
    assert (Hsame : forall a b, touches x y a b = true ->
                                edge_data G1 a b = edge_data G1 x y).
    { intros a b Et. apply touches_iff in Et. destruct Et as [Et|Et]; inversion Et; subst;
        [reflexivity | apply S1]. }
    assert (Hex : forall a b,
               existsb (fun e => touches (fst e) (snd e) a b) (done ++ [(x, y)])
               = existsb (fun e => touches (fst e) (snd e) a b) done || touches x y a b).
    { intros a b. rewrite existsb_app. cbn [existsb fst snd]. now rewrite orb_false_r. }
    unfold has_weight. fold (edge_data G' x y). rewrite (D' x y).
    pose proof He1 as Hm. unfold has_edge, Dict.mem in Hm. fold (edge_data G1 x y) in Hm.
    destruct (edge_data G1 x y) as [[w|]|] eqn:Ed; [| |discriminate].
    + cbn [bind negb]. exists G'. split; [reflexivity|]. split; [assumption|].
      intros a b. rewrite D', Hex. destruct (touches x y a b) eqn:Et.
      * rewrite (Hsame a b Et). reflexivity.
      * now rewrite orb_false_r.
    + destruct (existsb (fun e => touches (fst e) (snd e) x y) done) eqn:Eex;
        cbn [bind negb].
      * exists G'. split; [reflexivity|]. split; [assumption|].
        intros a b. rewrite D', Hex. destruct (touches x y a b) eqn:Et.
        -- rewrite (Hsame a b Et), orb_true_r.
           assert (Ea : existsb (fun e => touches (fst e) (snd e) a b) done = true).
           { apply touches_iff in Et. destruct Et as [Et|Et]; inversion Et; subst;
               [assumption|]. rewrite <- Eex. apply existsb_pointwise.
             intros e _. apply touches_sym. }
           now rewrite Ea.
        -- now rewrite orb_false_r.
      * destruct (set_weight_skeleton G' x y 0 (skeleton_wf _ _ S' W1))
          as [G'' [E'' S'']]; [now rewrite (skeleton_has_edge _ _ S')|].
        exists G''. split; [assumption|]. split; [now rewrite S''|].
        intros a b. rewrite (set_weight_data G' x y 0 G'' E'' a b), D', Hex.
        destruct (touches x y a b) eqn:Et.
        -- now rewrite (Hsame a b Et), orb_true_r.
        -- now rewrite orb_false_r.
  - split; [reflexivity|]. intros a b. cbn [existsb].
    destruct (edge_data G1 a b) as [[w|]|]; reflexivity.
Qed.

Lemma weigh_weights :
  exists Gw, weigh G R = Ok Gw
             /\ skeleton Gw = skeleton G
             /\ forall a b, has_edge G a b = true ->
                            edge_data Gw a b = Some (Some (edge_weight R G a b)).
Proof.
  unfold weigh. destruct weigh_first_loop as [G1 [E1 H1]]. rewrite E1. cbn [bind].
  pose proof H1 as [S1 D1].
  pose proof (skeleton_wf _ _ S1 WG) as W1.
  destruct (weigh_second_loop G1 W1 (weighted_symmetric G1 H1)) as [G2 [E2 [S2 D2]]].
  exists G2. split; [assumption|]. split; [now rewrite S2|].
  intros a b Hab. rewrite D2, D1, Hab. unfold edge_weight.
  assert (Hex : existsb (fun e => touches (fst e) (snd e) a b) (edges G1) = true).
  { apply existsb_exists. rewrite <- (skeleton_has_edge _ _ S1) in Hab.
    destruct (edges_complete G1 a b W1 Hab) as [H|H].
    - exists (a, b). split; [assumption|]. apply touches_iff. now left.
    - exists (b, a). split; [assumption|]. apply touches_iff. now right. }
  rewrite Hex. destruct (witness_count R a b) as [n|]; [reflexivity|].
  pose proof Hab as Hm. unfold has_edge, Dict.mem in Hm. fold (edge_data G a b) in Hm.
  destruct (edge_data G a b) as [[w|]|]; [reflexivity | reflexivity | discriminate].
Qed.

End Weigh.

Lemma edge_data_add_edge (g : Graph) (u v : vertex) (w : option nat) (a b : vertex) :
  exists d, forall a b, edge_data (add_edge g u v w) a b
                        = if touches u v a b then Some d else edge_data g a b.
Proof.
  unfold add_edge. cbv zeta.
  set (g0 := add_node (add_node g u) v).
  set (d := match w with
            | Some _ => w
            | None => match Dict.get Nat.eqb v (adj g0 u) with
                      | Some d => d
                      | None => None
                      end
            end).
  exists d. intros a' b'. unfold edge_data, touches. rewrite !adj_set.
  assert (Eg0 : forall c, adj g0 c = adj g c).
  { intros c. unfold g0. now rewrite !adj_add_node. }
  destruct (Nat.eqb a' v) eqn:Eav.
  - rewrite get_set_vertex. destruct (Nat.eqb b' u) eqn:Ebu.
    + now rewrite andb_true_r, orb_true_r.
    + rewrite andb_false_r, orb_false_r. apply Nat.eqb_eq in Eav. subst a'.
      destruct (Nat.eqb v u) eqn:Evu.
      * apply Nat.eqb_eq in Evu. subst v. rewrite Ebu. cbn [andb].
        now rewrite get_set_vertex, Ebu, Eg0.
      * now rewrite Eg0.
  - cbn [andb]. rewrite orb_false_r. destruct (Nat.eqb a' u) eqn:Eau.
    + rewrite get_set_vertex. apply Nat.eqb_eq in Eau. subst a'.
      destruct (Nat.eqb b' v); [reflexivity|]. now rewrite Eg0.
    + now rewrite Eg0.
Qed.

Lemma data_symmetric_add_edge (g : Graph) (u v : vertex) (w : option nat) :
  data_symmetric g -> data_symmetric (add_edge g u v w).
Proof.
  intros S a b. destruct (edge_data_add_edge g u v w a b) as [d Hd].
  rewrite !Hd, (touches_sym u v a b), (S a b). reflexivity.
Qed.

Lemma data_symmetric_copy (g : Graph) : data_symmetric (copy g).
Proof.
  unfold copy. apply (fold_left_invariant data_symmetric).
  - intros h na Hh _. apply (fold_left_invariant data_symmetric); [|assumption].
    intros h' md Hh' _. now apply data_symmetric_add_edge.
  - intros a b. unfold edge_data. now rewrite !add_nodes_from_adj.
Qed.

(** X23. The weights of [direct_graph_cut]: at its first entry, on the copy
    of a well-formed graph and the triples of this copy, the two weighting
    loops raise nothing, leave the nodes and the edges as they are, and
    leave a weight on every edge: the number of witnesses of its pair when
    the triples have the pair, in one order or the other; else the weight
    that the edge already had, and 0 when it had none. *)
Theorem direct_graph_cut_weights (G_ : Graph) (R1 R2 : bool) :
  wf_graph G_ ->
  exists R Gw,
    get_triples (copy G_) R1 R2 = Ok R
    /\ weigh (copy G_) R = Ok Gw
    /\ nodes Gw = nodes G_
    /\ (forall a b, has_edge Gw a b = has_edge G_ a b)
    /\ forall a b, has_edge G_ a b = true ->
                   edge_data Gw a b = Some (Some (edge_weight R (copy G_) a b)).
Proof.
  intros WG. pose proof (wf_copy G_) as WC.
  destruct (get_triples_inv (copy G_) R1 R2) as [R [ER HT]].
  destruct (triples_inv_canonical (copy G_) R (proj1 WC) HT) as [Hc _].
  destruct (weigh_weights (copy G_) WC (data_symmetric_copy G_) R Hc)
    as [Gw [EW [SW DW]]].
  exists R, Gw. split; [assumption|]. split; [assumption|]. split; [|split].
  - now rewrite (skeleton_nodes _ _ SW), (nodes_copy G_ WG).
  - intros a b. now rewrite (skeleton_has_edge _ _ SW), has_edge_copy.
  - intros a b Hab. apply DW. now rewrite has_edge_copy.
Qed.

Lemma direct_graph_cut_weights_witness :
  exists R Gw,
    get_triples (copy P4) true true = Ok R
    /\ weigh (copy P4) R = Ok Gw
    /\ nodes Gw = nodes P4
    /\ (forall a b, has_edge Gw a b = has_edge P4 a b)
    /\ forall a b, has_edge P4 a b = true ->
                   edge_data Gw a b = Some (Some (edge_weight R (copy P4) a b)).
Proof.
  apply (direct_graph_cut_weights P4 true true). apply (wf_path_graph 4 1).
Defined.

(* ================================================================== *)
(** ** The graphs that the two local searches return *)
(* ================================================================== *)

Section LocalSearch.
Variable O : Oracles.
Hypothesis HR : recognises_cographs O.


Lemma readd_edge_cograph (T : Graph) (e : vertex * vertex) :
  wf_graph T /\ p4_free T = true ->
  exists T', readd_edge O T e = Ok T' /\ wf_graph T' /\ p4_free T' = true.
Proof.
  intros [WT PT]. destruct e as [x y]. unfold readd_edge.
  pose proof (wf_add_edge T x y None WT) as W1. rewrite HR.
  destruct (p4_free (add_edge T x y None)) eqn:E1; cbn [negb].
  - eexists. split; [reflexivity|]. now split.
  - destruct (remove_edge_spec (add_edge T x y None) x y W1) as [T2 [E2 [W2 H2]]].
    { rewrite has_edge_add_edge, !Nat.eqb_refl. simpl. now rewrite orb_true_r. }
    exists T2. split; [assumption|]. split; [assumption|].
    assert (Hxy : has_edge T x y = false).
    { destruct (has_edge T x y) eqn:Exy; [|reflexivity]. exfalso.
      assert (Hs : forall a b, has_edge (add_edge T x y None) a b = has_edge T a b).
      { intros a b. rewrite has_edge_add_edge, <- orb_assoc.
        destruct ((a =? x) && (b =? y) || (a =? y) && (b =? x)) eqn:Ep;
          [|apply orb_false_r].
        rewrite orb_true_r. symmetry. apply orb_true_iff in Ep.
        destruct Ep as [Ep|Ep]; apply andb_true_iff in Ep; destruct Ep as [Ha Hb];
          apply Nat.eqb_eq in Ha, Hb; subst; [assumption|].
        destruct WT as [_ [_ [Hs _]]]. now apply Hs. }
      rewrite (p4_free_ext T _ WT W1 Hs) in E1. congruence. }
    assert (Hyx : has_edge T y x = false).
    { destruct (has_edge T y x) eqn:Eyx; [|reflexivity].
      destruct WT as [_ [_ [Hs _]]]. apply Hs in Eyx. congruence. }
    rewrite (p4_free_ext T T2 WT W2); [assumption|].
    intros a b. rewrite H2, has_edge_add_edge, <- orb_assoc.
    destruct ((a =? x) && (b =? y) || (a =? y) && (b =? x)) eqn:Ep.
    + rewrite orb_true_r. cbn. symmetry. apply orb_true_iff in Ep.
      destruct Ep as [Ep|Ep]; apply andb_true_iff in Ep; destruct Ep as [Ha Hb];
        apply Nat.eqb_eq in Ha, Hb; subst; assumption.
    + rewrite orb_false_r. apply andb_true_r.
Qed.

Lemma copy_cograph (g : Graph) :
  wf_graph g -> p4_free g = true -> wf_graph (copy g) /\ p4_free (copy g) = true.
Proof.
  intros W P. split; [apply wf_copy|].
  rewrite (p4_free_ext g (copy g) W (wf_copy g)); [assumption|].
  intros a b. now apply has_edge_copy.
Qed.


End LocalSearch.


Lemma min_cut_trials_total (O : Oracles) (G H : Graph) :
  recognises_cographs O -> permuting O ->
  wf_graph G -> wf_graph H -> p4_free H = true ->
  (exists x y, has_edge G x y = true /\ has_edge H x y = true) ->
  forall its st,
    Permutation (fst st)
                (filter (fun e => negb (has_edge H (fst e) (snd e))) (edges G)) ->
    (forall M, snd st = Some M ->
               wf_graph M /\ p4_free M = true /\ n_edits G M <= n_edits G H) ->
    exists st', for_each its (min_cut_trial O G H (length (edges G))) st = Ok st'
                /\ (forall M, snd st' = Some M ->
                              wf_graph M /\ p4_free M = true /\ n_edits G M <= n_edits G H)
                /\ (its <> [] -> snd st' <> None).
Proof.
  intros HR HP WG WH PH [x [y [Gxy Hxy]]].
  induction its as [|i its IH]; intros st Hp Hst.
  - exists st. split; [reflexivity|]. split; [assumption|]. congruence.
  - cbn [for_each]. unfold min_cut_trial at 1.
    set (cut0 := filter (fun e => negb (has_edge H (fst e) (snd e))) (edges G)) in *.
    assert (Hp' : Permutation (shuffle O i (fst st)) cut0).
    { eapply Permutation_trans; [apply HP | exact Hp]. }
    destruct (for_each_invariant (fun T => wf_graph T /\ p4_free T = true)
                (shuffle O i (fst st)) (readd_edge O)) with (s := copy H)
      as [T [ET [WT PT]]].
    { intros s e _ Hs. now apply readd_edge_cograph. }
    { now apply copy_cograph. }
    rewrite ET. cbn [bind].
    assert (Hin : forall a b, In (a, b) (shuffle O i (fst st)) ->
                              In (a, b) (edges G) /\ has_edge H a b = false).
    { intros a b Hab. apply (Permutation_in _ Hp') in Hab. unfold cut0 in Hab.
      apply filter_In in Hab. simpl in Hab. now rewrite negb_true_iff in Hab. }
    destruct (readd_loop_spec O G H (shuffle O i (fst st))) with (T := copy H)
      (T' := T) as [_ [I1 I2]]; auto.
    { apply WG. }
    { apply wf_copy. }
    { intros a b. now rewrite has_edge_copy. }
    { intros a b. rewrite has_edge_copy; auto. }
    { apply (Permutation_NoDup (Permutation_sym Hp')).
      apply NoDup_filter. now apply edges_NoDup. }
    { intros a b H1 H2. apply (edges_oriented G a b WG).
      - now apply Hin.
      - now apply Hin. }
    { intros a b Hab. destruct (Hin a b Hab) as [H1 H2]. split.
      - apply edges_has_edge; [apply WG | assumption].
      - now rewrite has_edge_copy. }
    assert (Hle : n_edits G T <= n_edits G H) by now apply n_edits_readded.
    assert (Hlt : n_deletions G T < length (edges G)).
    { unfold n_deletions.
      assert (Hs : forall a b, has_edge T a b = true -> has_edge T b a = true)
        by apply WT.
      destruct (edges_complete G x y WG Gxy) as [He|He].
      - apply (filter_length_lt _ _ (x, y) He). cbn [fst snd].
        apply negb_false_iff. now apply I1.
      - apply (filter_length_lt _ _ (y, x) He). cbn [fst snd].
        apply negb_false_iff. apply Hs. now apply I1. }
    apply Nat.ltb_lt in Hlt. rewrite Hlt.
    destruct (IH (shuffle O i (fst st), Some T)) as [st' [E' [H' N']]].
    { exact Hp'. }
    { cbn [snd]. intros M EM. inversion EM. subst. auto. }
    exists st'. split; [assumption|]. split; [assumption|]. intros _.
    destruct its as [|j its']; [|apply N'; discriminate].
    cbn [for_each] in E'. inversion E'. subst st'. discriminate.
Qed.


Lemma permuting_example : permuting (example_oracles no_shuffle).
Proof. intros i l. apply Permutation_refl. Qed.

(** X25. With cut oracles that keep their contract, a recogniser that is
    the test for an induced path on four vertices and a shuffle that
    permutes, on a well-formed graph [G] with three vertices or more:
    [min_cut_edit] returns a candidate [H], and when [H] keeps an edge of
    [G], [minimal_min_cut_edit] with one trial or more returns a
    well-formed graph with no induced path on four vertices that is not
    further from [G], in [n_edits], than [H]. *)
Theorem minimal_min_cut_edit_cograph (O : Oracles) (G : Graph) (n : nat)
  (half_cut R1 R2 : bool) :
  valid_oracles O -> recognises_cographs O -> permuting O ->
  wf_graph G -> 3 <= length (nodes G) ->
  exists H, min_cut_edit O G half_cut R1 R2 = Ok H
            /\ ((exists x y, has_edge G x y = true /\ has_edge H x y = true) ->
                exists M, minimal_min_cut_edit O G (S n) half_cut R1 R2 = Ok M
                          /\ wf_graph M /\ p4_free M = true
                          /\ n_edits G M <= n_edits G H).
Proof.
  intros HO HR HP WG H3.
  destruct (min_cut_edit_returns_cograph O G half_cut R1 R2 HO (proj1 WG) H3)
    as [H [EH [WH [_ PH]]]].
  exists H. split; [assumption|]. intros Hkept.
  unfold minimal_min_cut_edit. rewrite EH. cbn [bind]. cbv zeta.
  destruct (min_cut_trials_total O G H HR HP WG WH PH Hkept (seq 0 (S n))
              (filter (fun e => negb (has_edge H (fst e) (snd e))) (edges G), None))
    as [st [Est [Hst Hne]]].
  { apply Permutation_refl. }
  { cbn [snd]. discriminate. }
  rewrite Est. cbn [bind]. unfold read_local.
  destruct (snd st) as [M|] eqn:ES.
  - exists M. split; [reflexivity|]. now apply Hst.
  - exfalso. apply Hne; [discriminate|reflexivity].
Qed.

Lemma minimal_min_cut_edit_cograph_witness :
  exists H, min_cut_edit (example_oracles no_shuffle) P4 false true true = Ok H
            /\ ((exists x y, has_edge P4 x y = true /\ has_edge H x y = true) ->
                exists M, minimal_min_cut_edit (example_oracles no_shuffle) P4 1
                            false true true = Ok M
                          /\ wf_graph M /\ p4_free M = true
                          /\ n_edits P4 M <= n_edits P4 H).
Proof.
  apply (minimal_min_cut_edit_cograph (example_oracles no_shuffle) P4 0 false true true).
  - apply example_oracles_valid.
  - apply recognises_example.
  - apply permuting_example.
  - apply (wf_path_graph 4 1).
  - simpl. lia.
Defined.

(* ================================================================== *)
(** ** random_editing *)
(* ================================================================== *)



Section RandomEditing.
Variable O : Oracles.
Hypothesis HR : recognises_cographs O.



End RandomEditing.



(* ================================================================== *)
(** ** recursive_join and recursive_union *)
(* ================================================================== *)

Lemma element_graph_sub (in_join : bool) (cs : list nest) :
  element_graph in_join (Sub cs)
  = if in_join then recursive_union cs else recursive_join cs.
Proof. destruct in_join; reflexivity. Qed.

Lemma nest_induction (P : nest -> Prop) :
  (forall v, P (Leaf v)) -> (forall cs, Forall P cs -> P (Sub cs)) -> forall c, P c.
Proof.
  intros HL HS. fix IH 1. intros [v|cs]; [apply HL|]. apply HS.
  induction cs as [|c cs IHcs]; constructor; [apply IH | exact IHcs].
Qed.

Lemma fold_left_prefix {X S : Type} (Q : list X -> S -> Prop) (f : S -> X -> S)
  (xs : list X) :
  (forall done x rest s, xs = done ++ x :: rest -> Q done s -> Q (done ++ [x]) (f s x)) ->
  forall s0, Q [] s0 -> Q xs (fold_left f xs s0).
Proof.
  intros Hstep.
  assert (G : forall rest done s, xs = done ++ rest -> Q done s ->
                                  Q xs (fold_left f rest s)).
  { induction rest as [|x rest IH]; intros done s E HQ; cbn [fold_left].
    - subst. now rewrite app_nil_r.
    - apply (IH (done ++ [x])); [rewrite <- app_assoc; exact E|].
      now apply (Hstep done x rest). }
  intros s0 H0. now apply (G xs []).
Qed.

Lemma fold_cograph (jn : bool) (g : nest -> Graph) (cs : list nest) :
  (forall c, In c cs -> NoDup (leaves_of c) -> cograph_on (leaves_of c) (g c)) ->
  NoDup (flat_map leaves_of cs) ->
  cograph_on (flat_map leaves_of cs)
             (fold_left (fun G c => if jn then join G (g c) else union G (g c)) cs empty).
Proof.
  intros Hg ND.
  apply (fold_left_prefix (fun done G => cograph_on (flat_map leaves_of done) G)).
  - intros done c rest G E [WG [NG PG]]. subst cs.
    rewrite flat_map_app in ND. cbn [flat_map] in ND.
    assert (NDc : NoDup (leaves_of c)).
    { apply NoDup_app_remove_l in ND. now apply NoDup_app_remove_r in ND. }
    assert (Hd : forall v, In v (flat_map leaves_of done) -> In v (leaves_of c) -> False).
    { intros v H1 H2. apply (NoDup_app_disj _ _ v ND H1). apply in_app_iff. now left. }
    destruct (Hg c) as [Wc [Nc Pc]]; [apply in_app_iff; right; now left | assumption |].
    assert (Hdis : disjoint (nodes G) (nodes (g c))).
    { intros v H1 H2. apply (Hd v); [now apply NG | now apply Nc]. }
    assert (Hn : forall v, In v (nodes G) \/ In v (nodes (g c))
                           <-> In v (flat_map leaves_of (done ++ [c]))).
    { intros v. rewrite flat_map_app, in_app_iff, NG, Nc. cbn [flat_map].
      now rewrite app_nil_r. }
    destruct jn.
    + split; [apply wf_join|]. split.
      * intros v. rewrite (nodes_join G (g c) v WG Wc). apply Hn.
      * now apply p4_free_join.
    + split; [apply wf_union|]. split.
      * intros v. rewrite (nodes_union G (g c) v WG Wc). apply Hn.
      * now apply p4_free_union.
  - split; [apply wf_empty|]. split; [intros v; simpl; tauto | reflexivity].
Qed.

Lemma element_graph_cograph (c : nest) :
  forall in_join, NoDup (leaves_of c) -> cograph_on (leaves_of c) (element_graph in_join c).
Proof.
  induction c as [v|cs IH] using nest_induction; intros in_join ND.
  - cbn [element_graph leaves_of]. split; [apply wf_add_node, wf_empty|]. split.
    + intros x. simpl. tauto.
    + apply p4_free_small; [apply wf_add_node, wf_empty | simpl; lia].
  - cbn [leaves_of] in *. rewrite Forall_forall in IH. destruct in_join.
    + apply (fold_cograph false (element_graph false) cs); [|assumption].
      intros c Hc NDc. now apply IH.
    + apply (fold_cograph true (element_graph true) cs); [|assumption].
      intros c Hc NDc. now apply IH.
Qed.

(** X27. On a nested list whose vertices are distinct, [recursive_join]
    and [recursive_union] each return a cograph on these vertices: a
    well-formed graph with exactly the vertices of the list and no induced
    path on four vertices. *)
Theorem recursive_join_union_cograph (C : list nest) :
  NoDup (flat_map leaves_of C) ->
  (wf_graph (recursive_join C)
   /\ (forall v, In v (nodes (recursive_join C)) <-> In v (flat_map leaves_of C))
   /\ p4_free (recursive_join C) = true)
  /\ (wf_graph (recursive_union C)
      /\ (forall v, In v (nodes (recursive_union C)) <-> In v (flat_map leaves_of C))
      /\ p4_free (recursive_union C) = true).
Proof.
  intros ND. split.
  - apply (fold_cograph true (element_graph true) C); [|assumption].
    intros c _ NDc. now apply element_graph_cograph.
  - apply (fold_cograph false (element_graph false) C); [|assumption].
    intros c _ NDc. now apply element_graph_cograph.
Qed.

Lemma recursive_join_union_cograph_witness :
  (wf_graph (recursive_join [Leaf 1; Sub [Leaf 2; Leaf 3]])
   /\ (forall v, In v (nodes (recursive_join [Leaf 1; Sub [Leaf 2; Leaf 3]]))
                 <-> In v (flat_map leaves_of [Leaf 1; Sub [Leaf 2; Leaf 3]]))
   /\ p4_free (recursive_join [Leaf 1; Sub [Leaf 2; Leaf 3]]) = true)
  /\ (wf_graph (recursive_union [Leaf 1; Sub [Leaf 2; Leaf 3]])
      /\ (forall v, In v (nodes (recursive_union [Leaf 1; Sub [Leaf 2; Leaf 3]]))
                    <-> In v (flat_map leaves_of [Leaf 1; Sub [Leaf 2; Leaf 3]]))
      /\ p4_free (recursive_union [Leaf 1; Sub [Leaf 2; Leaf 3]]) = true).
Proof.
  apply (recursive_join_union_cograph [Leaf 1; Sub [Leaf 2; Leaf 3]]).
  repeat constructor; simpl; intuition discriminate.
Defined.
